(** * radian: CTC beam-search decoding with a sequence language model

    A shallow embedding of [radian/decode.py] and the properties of its
    specification.

    Numbers.  The program computes with IEEE doubles (Python [float],
    [numpy.float64]).  They are modelled by [xfloat]: the special values
    NaN, +inf and -inf are kept as they are, and the finite values are the
    real numbers, so that rounding, overflow and the sign of zero are
    idealised away and every identity below is one of real arithmetic.

    Exceptions.  A Python exception is a value [Raise e] of [except].
    numpy's divisions by zero are no exceptions: they give infinities and
    NaN.

    Dictionaries.  A Python [dict] keeps its keys in insertion order and
    [sorted] is stable, so ties between beams are broken by insertion
    order: dictionaries are association lists in insertion order. *)

From Stdlib Require Import Reals Lra Lia ZArith QArith Qreals List String Ascii Bool.
From Stdlib Require Import Permutation Sorted.
Import ListNotations.

Local Open Scope R_scope.

(* ================================================================== *)
(** * Part I: the embedding *)
(* ================================================================== *)

(** ** Exceptions *)

Inductive pyerr : Type :=
| ValueError
| IndexError
| KeyError.

Inductive except (A : Type) : Type :=
| Ok (a : A)
| Raise (e : pyerr).

Arguments Ok {A} a.
Arguments Raise {A} e.

Definition bind {A B : Type} (c : except A) (k : A -> except B) : except B :=
  match c with
  | Ok a => k a
  | Raise e => Raise e
  end.

Notation "x <- c ;; k" := (bind c (fun x => k))
  (at level 61, c at next level, right associativity).
Notation "' p <- c ;; k" := (bind c (fun x => let p := x in k))
  (at level 61, p pattern, c at next level, right associativity).

(** ** Floating-point values *)

Inductive xfloat : Type :=
| NaN
| PInf
| NInf
| Fin (r : R).

Definition Rltb (x y : R) : bool := if Rlt_dec x y then true else false.
Definition Reqb (x y : R) : bool := if Req_dec_T x y then true else false.

(** [x < y], [x > y] and [x == y] on floats: every comparison with NaN is
    false. *)
Definition fltb (x y : xfloat) : bool :=
  match x, y with
  | NaN, _ | _, NaN => false
  | PInf, _ => false
  | NInf, NInf => false
  | NInf, _ => true
  | Fin _, PInf => true
  | Fin _, NInf => false
  | Fin a, Fin b => Rltb a b
  end.

Definition fgtb (x y : xfloat) : bool := fltb y x.

Definition feqb (x y : xfloat) : bool :=
  match x, y with
  | PInf, PInf => true
  | NInf, NInf => true
  | Fin a, Fin b => Reqb a b
  | _, _ => false
  end.

Definition fneg (x : xfloat) : xfloat :=
  match x with
  | NaN => NaN
  | PInf => NInf
  | NInf => PInf
  | Fin a => Fin (- a)
  end.

Definition fadd (x y : xfloat) : xfloat :=
  match x, y with
  | NaN, _ | _, NaN => NaN
  | PInf, NInf | NInf, PInf => NaN
  | PInf, _ | _, PInf => PInf
  | NInf, _ | _, NInf => NInf
  | Fin a, Fin b => Fin (a + b)
  end.

(** The infinity that has the sign of the finite [a], or the opposite sign
    when [positive] is false, and NaN when [a] is zero: the product of an
    infinity and [a], and the quotient of [a] by zero. *)
Definition inf_signed (positive : bool) (a : R) : xfloat :=
  if Reqb a 0 then NaN
  else if xorb positive (Rltb 0 a) then NInf else PInf.

Definition fmul (x y : xfloat) : xfloat :=
  match x, y with
  | NaN, _ | _, NaN => NaN
  | PInf, PInf | NInf, NInf => PInf
  | PInf, NInf | NInf, PInf => NInf
  | PInf, Fin a | Fin a, PInf => inf_signed true a
  | NInf, Fin a | Fin a, NInf => inf_signed false a
  | Fin a, Fin b => Fin (a * b)
  end.

(** Division as numpy does it: a division by zero is no exception, it
    gives an infinity, or NaN for 0/0. *)
Definition fdiv (x y : xfloat) : xfloat :=
  match x, y with
  | NaN, _ | _, NaN => NaN
  | (PInf | NInf), (PInf | NInf) => NaN
  | PInf, Fin b => if Rltb b 0 then NInf else PInf
  | NInf, Fin b => if Rltb b 0 then PInf else NInf
  | Fin _, (PInf | NInf) => Fin 0
  | Fin a, Fin b => if Reqb b 0 then inf_signed true a else Fin (a / b)
  end.

(** [math.log]: a [ValueError] outside the positive numbers. *)
Definition math_log (x : xfloat) : except xfloat :=
  match x with
  | NaN => Ok NaN
  | PInf => Ok PInf
  | NInf => Raise ValueError
  | Fin a => if Rltb 0 a then Ok (Fin (ln a)) else Raise ValueError
  end.

(** [numpy.logaddexp]: log(exp x + exp y). *)
Definition logaddexp (x y : xfloat) : xfloat :=
  match x, y with
  | NaN, _ | _, NaN => NaN
  | PInf, _ | _, PInf => PInf
  | NInf, b => b
  | a, NInf => a
  | Fin a, Fin b => Fin (ln (exp a + exp b))
  end.

(** The sum of a sequence, from 0: the builtin [sum] and [numpy.sum]. *)
Definition fsum (l : list xfloat) : xfloat := fold_left fadd l (Fin 0).

(** ** Python sequences *)

(** [l[start:stop]] with Python's reading of negative and out-of-range
    bounds; [None] is an omitted bound. *)
Definition slice_bound (len : Z) (i : Z) : Z :=
  if (i <? 0)%Z then Z.max 0 (i + len) else Z.min i len.

Definition py_slice {A : Type} (l : list A) (start stop : option Z) : list A :=
  let len := Z.of_nat (List.length l) in
  let a := match start with Some i => slice_bound len i | None => 0%Z end in
  let b := match stop with Some i => slice_bound len i | None => len end in
  firstn (Z.to_nat (b - a)) (skipn (Z.to_nat a) l).

(** [l[i]] for a natural index: an [IndexError] out of range. *)
Definition index {A : Type} (l : list A) (i : nat) : except A :=
  match nth_error l i with
  | Some x => Ok x
  | None => Raise IndexError
  end.

(** [l[-1]]. *)
Definition index_last {A : Type} (l : list A) : except A :=
  match l with
  | [] => Raise IndexError
  | x :: l' => Ok (List.last l' x)
  end.

(** ** Dictionaries in insertion order *)

Section Dict.
Context {K V : Type} (K_eqb : K -> K -> bool).

Fixpoint dict_get (d : list (K * V)) (k : K) : option V :=
  match d with
  | [] => None
  | (k', v) :: d' => if K_eqb k k' then Some v else dict_get d' k
  end.

(** [d[k] = v]: the value is replaced in place, a new key goes last. *)
Fixpoint dict_set (d : list (K * V)) (k : K) (v : V) : list (K * V) :=
  match d with
  | [] => [(k, v)]
  | (k', v') :: d' =>
      if K_eqb k k' then (k', v) :: d' else (k', v') :: dict_set d' k v
  end.

End Dict.

Definition labeling_eqb (a b : list nat) : bool :=
  if list_eq_dec Nat.eq_dec a b then true else false.

(** ** [log] *)

(** [-math.inf if x == 0 else math.log(x)] *)
Definition log (x : xfloat) : except xfloat :=
  if feqb x (Fin 0) then Ok NInf else math_log x.

(** ** [BeamEntry] and [BeamList] *)

Record BeamEntry : Type := mkBeamEntry {
  pr_total : xfloat;
  pr_non_blank : xfloat;
  pr_blank : xfloat;
  labeling : list nat
}.

(** The defaults of the dataclass: [log(0)] three times and the empty
    tuple. *)
Definition BeamEntry_default : BeamEntry := mkBeamEntry NInf NInf NInf [].

Definition set_pr_total (e : BeamEntry) (v : xfloat) : BeamEntry :=
  mkBeamEntry v (pr_non_blank e) (pr_blank e) (labeling e).
Definition set_pr_non_blank (e : BeamEntry) (v : xfloat) : BeamEntry :=
  mkBeamEntry (pr_total e) v (pr_blank e) (labeling e).
Definition set_pr_blank (e : BeamEntry) (v : xfloat) : BeamEntry :=
  mkBeamEntry (pr_total e) (pr_non_blank e) v (labeling e).
Definition set_labeling (e : BeamEntry) (l : list nat) : BeamEntry :=
  mkBeamEntry (pr_total e) (pr_non_blank e) (pr_blank e) l.

(** [BeamList.entries], a [defaultdict(BeamEntry)]. *)
Definition BeamList : Type := list (list nat * BeamEntry).

(** [entries[l]] read: the stored entry, or the default one.  (On a missing
    key the defaultdict also stores the default.  The program reads
    [last.entries] only at keys that it holds, and where it reads
    [curr.entries] it goes on to assign a field, which [entry_update]
    models.) *)
Definition entry_get (b : BeamList) (l : list nat) : BeamEntry :=
  match dict_get labeling_eqb b l with
  | Some e => e
  | None => BeamEntry_default
  end.

(** [entries[l].field = f(entries[l].field)]: fetch or create, update,
    store. *)
Definition entry_update (b : BeamList) (l : list nat)
    (f : BeamEntry -> BeamEntry) : BeamList :=
  dict_set labeling_eqb b l (f (entry_get b l)).

(** [sorted(beams, reverse=True, key=...)]: a stable sort, largest key
    first; an entry moves in front of an earlier one only when that one's
    key is [<] its own.  (On keys without NaN, where [<] is a total
    preorder, this is the order of the builtin.) *)
Fixpoint insert_desc (x : BeamEntry) (l : list BeamEntry) : list BeamEntry :=
  match l with
  | [] => [x]
  | y :: l' =>
      if fltb (pr_total x) (pr_total y) then y :: insert_desc x l'
      else x :: y :: l'
  end.

Definition sorted_desc (l : list BeamEntry) : list BeamEntry :=
  fold_right insert_desc [] l.

Definition sort_labelings (b : BeamList) : list (list nat) :=
  map labeling (sorted_desc (map snd b)).

(** ** [get_context] *)

Definition get_context (labeling : list nat) (len_context : Z)
    (exclude_last : bool) : list nat :=
  if exclude_last then
    py_slice labeling (Some (- (len_context + 1))%Z) (Some (-1)%Z)
  else
    py_slice labeling (Some (- len_context)%Z) None.

(** ** [combine_dists], [normalise], [entropy] *)

(** [numpy.add] on two one-dimensional arrays, with broadcasting of a
    one-element array; other shapes do not match. *)
Definition np_add (a b : list xfloat) : except (list xfloat) :=
  if Nat.eqb (List.length a) (List.length b) then
    Ok (map (fun p => fadd (fst p) (snd p)) (combine a b))
  else
    match a, b with
    | [x], _ => Ok (map (fun y => fadd x y) b)
    | _, [y] => Ok (map (fun x => fadd x y) a)
    | _, _ => Raise ValueError
    end.

Definition combine_dists (r_dist s_dist : list xfloat) : except (list xfloat) :=
  let s_base_prob := fsum (py_slice s_dist None (Some (-1)%Z)) in
  let s_base_dist :=
    map (fun x => fdiv x s_base_prob) (py_slice s_dist None (Some (-1)%Z)) in
  c_dist <- np_add r_dist s_base_dist ;;
  let c_dist := map (fun x => fdiv x (Fin 2)) c_dist in
  let c_dist := map (fun x => fmul x s_base_prob) c_dist in
  blank <- index_last s_dist ;;
  Ok (c_dist ++ [blank]).

Definition normalise (dist : list xfloat) : list xfloat :=
  if feqb (fsum dist) (Fin 0) then dist
  else map (fun x => fdiv x (fsum dist)) dist.

Fixpoint mapM {A B : Type} (f : A -> except B) (l : list A) : except (list B) :=
  match l with
  | [] => Ok []
  | x :: l' => y <- f x ;; ys <- mapM f l' ;; Ok (y :: ys)
  end.

Definition entropy (dist : list xfloat) : except xfloat :=
  let dist := filter (fun p => fgtb p (Fin 0)) dist in
  terms <- mapM (fun p => lp <- math_log p ;; Ok (fmul p lp)) dist ;;
  Ok (fneg (fsum terms)).

(** ** [apply_rna_model] *)

(** The language model, a mapping from contexts to distributions, and the
    entropy cache. *)
Definition rna_model : Type := list (list nat * list xfloat).
Definition entropy_cache : Type := list (list nat * xfloat).

(** The cache is a dictionary of the caller that the function writes to:
    it is returned next to the result. *)
Definition apply_rna_model (s_dist : list xfloat) (context : list nat)
    (model : option rna_model) (entr_cache : entropy_cache)
    (s_entropy r_threshold s_threshold : xfloat)
    : except (list xfloat * entropy_cache) :=
  match model with
  | None => Ok (s_dist, entr_cache)
  | Some m =>
      match dict_get labeling_eqb m context with
      | None => Raise KeyError
      | Some r_dist =>
          '(r_entropy, entr_cache) <-
            match dict_get labeling_eqb entr_cache context with
            | None =>
                r_entropy <- entropy r_dist ;;
                Ok (r_entropy, dict_set labeling_eqb entr_cache context r_entropy)
            | Some r_entropy => Ok (r_entropy, entr_cache)
            end ;;
          if fltb r_entropy r_threshold && fgtb s_entropy s_threshold then
            d <- combine_dists r_dist s_dist ;; Ok (d, entr_cache)
          else Ok (s_dist, entr_cache)
      end
  end.

(** ** [beam_search] *)

(** A two-dimensional array: its rows and its second dimension (which
    [mat.shape] gives also when there is no row). *)
Record ndarray : Type := mkArray {
  rows : list (list xfloat);
  chars : nat
}.

(** The truth value of [lm]: [None] and the empty mapping are false. *)
Definition truthy (lm : option rna_model) : bool :=
  match lm with
  | Some (_ :: _) => true
  | _ => false
  end.

(** The parameters of one call that the loops do not change. *)
Record params : Type := mkParams {
  beam_width : Z;
  lm : option rna_model;
  s_threshold : xfloat;
  r_threshold : xfloat;
  len_context : Z
}.

(** The initial beam state: the empty labeling alone. *)
Definition initial_beam : except BeamList :=
  let last := dict_set labeling_eqb [] [] BeamEntry_default in
  l1 <- log (Fin 1) ;;
  let last := entry_update last [] (fun e => set_pr_blank e l1) in
  l1 <- log (Fin 1) ;;
  Ok (entry_update last [] (fun e => set_pr_total e l1)).

(** [s_entropies]: the entropy of the normalised non-blank part of every
    row. *)
Definition signal_entropies (mat : ndarray) : except (list xfloat) :=
  mapM (fun row => entropy (normalise (py_slice row None (Some (-1)%Z))))
       (rows mat).

(** COPY BEAM, for one labeling of the previous state.  ([nb] and [bl] are
    the program's local [pr_non_blank] and [pr_blank].) *)
Definition copy_beam (p : params) (blank_idx : nat) (row : list xfloat)
    (s_entropy : xfloat) (last : BeamList) (labeling : list nat)
    (st : BeamList * entropy_cache) : except (BeamList * entropy_cache) :=
  let '(curr, entr_cache) := st in
  nb <- log (Fin 0) ;;
  '(nb, entr_cache) <-
    match labeling with
    | [] => Ok (nb, entr_cache)
    | first :: rest =>
        '(pr_dist, entr_cache) <-
          (if truthy (lm p)
              && (len_context p + 1 <=? Z.of_nat (List.length labeling))%Z
           then
             let context := get_context labeling (len_context p) true in
             apply_rna_model row context (lm p) entr_cache s_entropy
               (r_threshold p) (s_threshold p)
           else Ok (row, entr_cache)) ;;
        x <- index pr_dist (List.last rest first) ;;
        lx <- log x ;;
        Ok (fadd (pr_non_blank (entry_get last labeling)) lx, entr_cache)
    end ;;
  b <- index row blank_idx ;;
  lb <- log b ;;
  let bl := fadd (pr_total (entry_get last labeling)) lb in
  let curr := entry_update curr labeling (fun e => set_labeling e labeling) in
  let curr := entry_update curr labeling (fun e =>
    set_pr_non_blank e (logaddexp (pr_non_blank e) nb)) in
  let curr := entry_update curr labeling (fun e =>
    set_pr_blank e (logaddexp (pr_blank e) bl)) in
  let curr := entry_update curr labeling (fun e =>
    set_pr_total e (logaddexp (pr_total e) (logaddexp bl nb))) in
  Ok (curr, entr_cache).

(** [labeling and labeling[-1] == c] *)
Definition ends_with (labeling : list nat) (c : nat) : bool :=
  match labeling with
  | [] => false
  | first :: rest => Nat.eqb (List.last rest first) c
  end.

(** The body of the loop over [c] in EXTEND BEAM. *)
Definition extend_char (last : BeamList) (labeling : list nat)
    (pr_dist : list xfloat) (curr : BeamList) (c : nat) : except BeamList :=
  let new_labeling := labeling ++ [c] in
  x <- index pr_dist c ;;
  lx <- log x ;;
  let nb :=
    if ends_with labeling c then fadd (pr_blank (entry_get last labeling)) lx
    else fadd (pr_total (entry_get last labeling)) lx in
  let curr := entry_update curr new_labeling (fun e =>
    set_labeling e new_labeling) in
  let curr := entry_update curr new_labeling (fun e =>
    set_pr_non_blank e (logaddexp (pr_non_blank e) nb)) in
  let curr := entry_update curr new_labeling (fun e =>
    set_pr_total e (logaddexp (pr_total e) nb)) in
  Ok curr.

(** A [for] loop whose body can raise. *)
Fixpoint foldM {A S : Type} (f : S -> A -> except S) (l : list A) (s : S)
    : except S :=
  match l with
  | [] => Ok s
  | x :: l' => s' <- f s x ;; foldM f l' s'
  end.

(** EXTEND BEAM, for one labeling of the previous state. *)
Definition extend_beam (p : params) (nchars : nat) (row : list xfloat)
    (s_entropy : xfloat) (last : BeamList) (labeling : list nat)
    (st : BeamList * entropy_cache) : except (BeamList * entropy_cache) :=
  let '(curr, entr_cache) := st in
  '(pr_dist, entr_cache) <-
    (if truthy (lm p) && (len_context p <=? Z.of_nat (List.length labeling))%Z
     then
       let context := get_context labeling (len_context p) false in
       apply_rna_model row context (lm p) entr_cache s_entropy
         (r_threshold p) (s_threshold p)
     else Ok (row, entr_cache)) ;;
  curr <- foldM (extend_char last labeling pr_dist) (seq 0 (nchars - 1)) curr ;;
  Ok (curr, entr_cache).

(** The body of the loop over the best beams. *)
Definition beam_step (p : params) (blank_idx nchars : nat) (row : list xfloat)
    (s_entropy : xfloat) (last : BeamList)
    (st : BeamList * entropy_cache) (labeling : list nat)
    : except (BeamList * entropy_cache) :=
  st <- copy_beam p blank_idx row s_entropy last labeling st ;;
  extend_beam p nchars row s_entropy last labeling st.

(** The body of the loop over the time-steps: the new beam state. *)
Definition timestep (p : params) (blank_idx nchars : nat)
    (st : BeamList * entropy_cache) (row_ent : list xfloat * xfloat)
    : except (BeamList * entropy_cache) :=
  let '(last, entr_cache) := st in
  let '(row, s_entropy) := row_ent in
  let best_labelings :=
    py_slice (sort_labelings last) None (Some (beam_width p)) in
  foldM (beam_step p blank_idx nchars row s_entropy last)
        best_labelings ([], entr_cache).

(** The beam state after the last time-step. *)
Definition beam_search_loop (mat : ndarray) (bases : string) (p : params)
    (entr_cache : entropy_cache) : except (BeamList * entropy_cache) :=
  let blank_idx := String.length bases in
  last <- initial_beam ;;
  s_entropies <- signal_entropies mat ;;
  foldM (timestep p blank_idx (chars mat))
        (combine (rows mat) s_entropies) (last, entr_cache).

(** [bases[label]] *)
Definition base_at (bases : string) (label : nat) : except ascii :=
  match String.get label bases with
  | Some a => Ok a
  | None => Raise IndexError
  end.

Definition beam_search (mat : ndarray) (bases : string) (p : params)
    (entr_cache : entropy_cache) : except string :=
  '(last, _) <- beam_search_loop mat bases p entr_cache ;;
  best_labeling <- index (sort_labelings last) 0 ;;
  best_seq <- mapM (base_at bases) best_labeling ;;
  Ok (string_of_list_ascii best_seq).

(** The [pr_total] of the beam that [beam_search] decodes. *)
Definition best_pr_total (mat : ndarray) (bases : string) (p : params)
    (entr_cache : entropy_cache) : except xfloat :=
  '(last, _) <- beam_search_loop mat bases p entr_cache ;;
  best <- index (sorted_desc (map snd last)) 0 ;;
  Ok (pr_total best).

(** ** Notions used in the statements *)

(** The sum of a list of real numbers. *)
Definition Rsum (l : list R) : R := fold_right Rplus 0 l.

(** A one-hot vector: one entry is 1 and every other entry is 0. *)
Definition one_hot (d : list xfloat) : Prop :=
  exists n m : nat, d = repeat (Fin 0) n ++ Fin 1 :: repeat (Fin 0) m.

(** The terms of the entropy of a vector of real numbers. *)
Definition plogp (a : R) : R := a * ln a.

(** The blend that [combine_dists] computes on finite numbers: [r] is the
    language model's distribution, [sb] the non-blank part of the signal
    distribution and [m] its sum. *)
Definition blend (r sb : list R) (m : R) : list R :=
  map (fun p => (fst p + snd p / m) / 2 * m) (combine r sb).

(** The invariant of a beam entry, and of a beam state. *)
Definition entry_inv (e : BeamEntry) : Prop :=
  pr_total e = logaddexp (pr_blank e) (pr_non_blank e).

Definition beam_inv (b : BeamList) : Prop :=
  forall (l : list nat) (e : BeamEntry), In (l, e) b -> entry_inv e.

(** What EXTEND adds to the entry of the extended labeling: [mass] goes
    into [pr_non_blank] and [pr_total], [pr_blank] is left as it is. *)
Definition extended_entry (e : BeamEntry) (new_labeling : list nat)
    (mass : xfloat) : BeamEntry :=
  mkBeamEntry (logaddexp (pr_total e) mass) (logaddexp (pr_non_blank e) mass)
              (pr_blank e) new_labeling.

(** The distribution that EXTEND uses for a labeling. *)
Definition extend_dist (p : params) (row : list xfloat) (s_entropy : xfloat)
    (labeling : list nat) (entr_cache : entropy_cache)
    : except (list xfloat * entropy_cache) :=
  if truthy (lm p) && (len_context p <=? Z.of_nat (List.length labeling))%Z
  then
    apply_rna_model row (get_context labeling (len_context p) false) (lm p)
      entr_cache s_entropy (r_threshold p) (s_threshold p)
  else Ok (row, entr_cache).

(** The mass that EXTEND contributes for the symbol [c], from the entry of
    [labeling] in the previous state and the logarithm [lx] of the
    symbol's probability. *)
Definition extend_mass (last : BeamList) (labeling : list nat) (c : nat)
    (lx : xfloat) : xfloat :=
  fadd (if ends_with labeling c then pr_blank (entry_get last labeling)
        else pr_total (entry_get last labeling)) lx.

(** What COPY adds to the entry of the labeling. *)
Definition copied_entry (e : BeamEntry) (labeling : list nat)
    (nb bl : xfloat) : BeamEntry :=
  mkBeamEntry (logaddexp (pr_total e) (logaddexp bl nb))
              (logaddexp (pr_non_blank e) nb)
              (logaddexp (pr_blank e) bl) labeling.

(** [x <= y] on floats. *)
Definition fleb (x y : xfloat) : bool :=
  match x, y with
  | NaN, _ | _, NaN => false
  | _, _ => negb (fltb y x)
  end.

(** ** The time-step without a language model, on a row of logarithms

    Without a language model the distribution of COPY and of EXTEND is the
    row itself, and the time-step is the following function of the
    logarithms [lrow] of the row ([timestep_logs_eq] below). *)
Definition copy_beam_logs (blank_idx : nat) (lrow : list xfloat)
    (last curr : BeamList) (labeling : list nat) : BeamList :=
  let nb :=
    match labeling with
    | [] => NInf
    | first :: rest =>
        fadd (pr_non_blank (entry_get last labeling))
             (nth (List.last rest first) lrow NInf)
    end in
  let bl := fadd (pr_total (entry_get last labeling)) (nth blank_idx lrow NInf) in
  entry_update curr labeling (fun e => copied_entry e labeling nb bl).

Definition extend_beam_logs (nchars : nat) (lrow : list xfloat)
    (last curr : BeamList) (labeling : list nat) : BeamList :=
  fold_left
    (fun curr c =>
       entry_update curr (labeling ++ [c]) (fun e =>
         extended_entry e (labeling ++ [c])
           (extend_mass last labeling c (nth c lrow NInf))))
    (seq 0 (nchars - 1)) curr.

Definition beam_step_logs (blank_idx nchars : nat) (lrow : list xfloat)
    (last curr : BeamList) (labeling : list nat) : BeamList :=
  extend_beam_logs nchars lrow last
    (copy_beam_logs blank_idx lrow last curr labeling) labeling.

Definition timestep_logs (width : Z) (blank_idx nchars : nat)
    (lrow : list xfloat) (last : BeamList) : BeamList :=
  fold_left (beam_step_logs blank_idx nchars lrow last)
    (py_slice (sort_labelings last) None (Some width)) [].

(** ** Notions for the comparison of two beam widths *)

(** The floats that are -inf or finite: the logarithms of probabilities. *)
Definition regular (x : xfloat) : Prop :=
  match x with
  | NInf | Fin _ => True
  | NaN | PInf => False
  end.

(** The probability that a regular float is the logarithm of. *)
Definition lin (x : xfloat) : R :=
  match x with
  | Fin a => exp a
  | _ => 0
  end.

(** A probability: a finite number that is not negative. *)
Definition prob_value (x : xfloat) : Prop := exists a : R, x = Fin a /\ 0 <= a.

(** The three probabilities of an entry; the neutral triple; the
    accumulation of a triple into another. *)
Definition vals : Type := (xfloat * xfloat * xfloat)%type.

Definition entry_vals (e : BeamEntry) : vals :=
  (pr_total e, pr_non_blank e, pr_blank e).

Definition vzero : vals := (NInf, NInf, NInf).

Definition vadd (v w : vals) : vals :=
  let '(t1, n1, b1) := v in
  let '(t2, n2, b2) := w in
  (logaddexp t1 t2, logaddexp n1 n2, logaddexp b1 b2).

Definition vsum (l : list vals) : vals := fold_right vadd vzero l.

Definition vle (v w : vals) : Prop :=
  let '(t1, n1, b1) := v in
  let '(t2, n2, b2) := w in
  fleb t1 t2 = true /\ fleb n1 n2 = true /\ fleb b1 b2 = true.

Definition vregular (v : vals) : Prop :=
  let '(t, n, b) := v in regular t /\ regular n /\ regular b.

(** What the processing of the labeling [l] in a time-step contributes to
    the entry of the labeling [k]: the COPY masses when [k] is [l], the
    EXTEND mass when [k] is [l] with one more symbol, nothing otherwise. *)
Definition contrib (blank_idx nchars : nat) (lrow : list xfloat)
    (last : BeamList) (k l : list nat) : vals :=
  if labeling_eqb k l then
    let nb :=
      match l with
      | [] => NInf
      | first :: rest =>
          fadd (pr_non_blank (entry_get last l))
               (nth (List.last rest first) lrow NInf)
      end in
    let bl := fadd (pr_total (entry_get last l)) (nth blank_idx lrow NInf) in
    (logaddexp bl nb, nb, bl)
  else if labeling_eqb (removelast k) l
          && negb (Nat.eqb (List.length k) 0)
          && (List.last k 0%nat <? nchars - 1)%nat then
    let m := extend_mass last l (List.last k 0%nat)
               (nth (List.last k 0%nat) lrow NInf) in
    (m, m, NInf)
  else vzero.

(** One beam state is below another when every entry is, the missing
    entries counting as the default one. *)
Definition dominated (s1 s2 : BeamList) : Prop :=
  forall k : list nat,
    vle (entry_vals (entry_get s1 k)) (entry_vals (entry_get s2 k)).

Definition state_regular (s : BeamList) : Prop :=
  forall k : list nat, vregular (entry_vals (entry_get s k)).

(** The keys of a beam state are distinct labelings over the symbols below
    [nsym], and every entry carries its key. *)
Definition keys_wf (nsym : nat) (s : BeamList) : Prop :=
  NoDup (map fst s) /\
  forall (k : list nat) (e : BeamEntry),
    In (k, e) s -> labeling e = k /\ Forall (fun c => (c < nsym)%nat) k.

(** A matrix of probabilities with one column per symbol of [bases] and
    one for the blank. *)
Definition mat_wf (mat : ndarray) (bases : string) : Prop :=
  chars mat = (String.length bases + 1)%nat /\
  Forall (fun row => List.length row = chars mat /\ Forall prob_value row)
         (rows mat).

(** A beam state of a run on a matrix of probabilities, and two of them,
    after [t] time-steps, of which the second comes from a beam width
    that never cut. *)
Definition state_ok (nchars : nat) (s : BeamList) : Prop :=
  keys_wf (nchars - 1) s /\ state_regular s.

Definition runs_related (nchars t : nat) (s1 s2 : BeamList) : Prop :=
  state_ok nchars s1 /\ state_ok nchars s2 /\
  dominated s1 s2 /\
  incl (map fst s1) (map fst s2) /\
  (List.length s2 <= nchars ^ t)%nat /\
  s1 <> [].

(** ** Rational probabilities *)

(** Rational numbers as floats, and the logarithm of a rational
    probability ([log(0)] is -inf): the values of a run on a matrix of
    rational probabilities. *)
Definition Q2F (q : Q) : xfloat := Fin (Q2R q).

Definition lnq (q : Q) : xfloat :=
  if Qle_bool q 0 then NInf else Fin (ln (Q2R q)).

(** ** A run on which a wider beam does worse

    Three time-steps over the symbols A and B and the blank, without a
    language model. *)
Definition ex_params (width : Z) : params :=
  mkParams width None (Fin 0) (Fin 0) 0.

Definition ex_row1 : list xfloat := [Q2F (1 # 10); Q2F (1 # 2); Q2F (2 # 5)].
Definition ex_row2 : list xfloat := [Q2F (1 # 10); Q2F (4 # 5); Q2F (1 # 10)].
Definition ex_row3 : list xfloat := [Q2F (1 # 2); Q2F (1 # 10); Q2F (2 # 5)].

Definition ex_mat : ndarray := mkArray [ex_row1; ex_row2; ex_row3] 3.

(** The initial beam state. *)
Definition ex_state0 : BeamList :=
  [([], mkBeamEntry (lnq 1) (lnq 0) (lnq 1) [])].

(** The beam state after time-step 1. *)
Definition ex_state1 : BeamList :=
  [([],
    mkBeamEntry (lnq (2 # 5)) (lnq 0) (lnq (2 # 5)) []);
   ([0]%nat,
    mkBeamEntry (lnq (1 # 10)) (lnq (1 # 10)) (lnq 0) [0]%nat);
   ([1]%nat,
    mkBeamEntry (lnq (1 # 2)) (lnq (1 # 2)) (lnq 0) [1]%nat)].





(** The logarithms of the rows. *)
Definition ex_lrow1 : list xfloat := [lnq (1 # 10); lnq (1 # 2); lnq (2 # 5)].
Definition ex_lrow2 : list xfloat := [lnq (1 # 10); lnq (4 # 5); lnq (1 # 10)].

(** ** A run with a language model that lacks a context

    One time-step over the symbol A and the blank; the model knows the
    context (7) only, and the context length is 0. *)
Definition ex_model : rna_model := [([7%nat], [Fin 1])].




(** ** Two small runs

    One time-step on the row (0.6, 0.3, 0.1), and two time-steps on the
    row (0.1, 0.8, 0.1), over the symbols A and B and the blank, with beam
    width 10 and without a language model. *)
Definition scen1_row : list xfloat := [Q2F (3 # 5); Q2F (3 # 10); Q2F (1 # 10)].
Definition scen1_lrow : list xfloat := [lnq (3 # 5); lnq (3 # 10); lnq (1 # 10)].
Definition scen1_mat : ndarray := mkArray [scen1_row] 3.

Definition scen1_state1 : BeamList :=
  [([],
    mkBeamEntry (lnq (1 # 10)) (lnq 0) (lnq (1 # 10)) []);
   ([0]%nat,
    mkBeamEntry (lnq (3 # 5)) (lnq (3 # 5)) (lnq 0) [0]%nat);
   ([1]%nat,
    mkBeamEntry (lnq (3 # 10)) (lnq (3 # 10)) (lnq 0) [1]%nat)].

Definition scen2_row : list xfloat := [Q2F (1 # 10); Q2F (4 # 5); Q2F (1 # 10)].
Definition scen2_lrow : list xfloat := [lnq (1 # 10); lnq (4 # 5); lnq (1 # 10)].
Definition scen2_mat : ndarray := mkArray [scen2_row; scen2_row] 3.

Definition scen2_state1 : BeamList :=
  [([],
    mkBeamEntry (lnq (1 # 10)) (lnq 0) (lnq (1 # 10)) []);
   ([0]%nat,
    mkBeamEntry (lnq (1 # 10)) (lnq (1 # 10)) (lnq 0) [0]%nat);
   ([1]%nat,
    mkBeamEntry (lnq (4 # 5)) (lnq (4 # 5)) (lnq 0) [1]%nat)].

Definition scen2_state2 : BeamList :=
  [([1]%nat,
    mkBeamEntry (lnq (4 # 5)) (lnq (18 # 25)) (lnq (2 # 25)) [1]%nat);
   ([1; 0]%nat,
    mkBeamEntry (lnq (2 # 25)) (lnq (2 # 25)) (lnq 0) [1; 0]%nat);
   ([1; 1]%nat,
    mkBeamEntry (lnq 0) (lnq 0) (lnq 0) [1; 1]%nat);
   ([],
    mkBeamEntry (lnq (1 # 100)) (lnq 0) (lnq (1 # 100)) []);
   ([0]%nat,
    mkBeamEntry (lnq (3 # 100)) (lnq (1 # 50)) (lnq (1 # 100)) [0]%nat);
   ([0; 0]%nat,
    mkBeamEntry (lnq 0) (lnq 0) (lnq 0) [0; 0]%nat);
   ([0; 1]%nat,
    mkBeamEntry (lnq (2 # 25)) (lnq (2 # 25)) (lnq 0) [0; 1]%nat)].

(** ** Notions for runs that differ in the cache or in the parameters *)

(** The distribution that COPY uses for a labeling that is not empty. *)
Definition copy_dist (p : params) (row : list xfloat) (s_entropy : xfloat)
    (labeling : list nat) (entr_cache : entropy_cache)
    : except (list xfloat * entropy_cache) :=
  if truthy (lm p) && (len_context p + 1 <=? Z.of_nat (List.length labeling))%Z
  then
    apply_rna_model row (get_context labeling (len_context p) true) (lm p)
      entr_cache s_entropy (r_threshold p) (s_threshold p)
  else Ok (row, entr_cache).

(** Two outcomes agree: the same exception, or two results that are
    related. *)
Definition except_rel {A B : Type} (R : A -> B -> Prop)
    (r1 : except A) (r2 : except B) : Prop :=
  match r1, r2 with
  | Ok x, Ok y => R x y
  | Raise e1, Raise e2 => e1 = e2
  | _, _ => False
  end.

(** An entropy cache that holds, for every context that it has, the
    entropy of the model's distribution for that context. *)
Definition cache_coherent (model : option rna_model) (c : entropy_cache)
    : Prop :=
  match model with
  | None => True
  | Some m =>
      forall (context : list nat) (e : xfloat),
        dict_get labeling_eqb c context = Some e ->
        exists r_dist : list xfloat,
          dict_get labeling_eqb m context = Some r_dist /\
          entropy r_dist = Ok e
  end.

(** The result of a call without the cache that comes with it. *)
Definition result_of {A C : Type} (r : except (A * C)) : except A :=
  x <- r ;; Ok (fst x).

(** Every entry of a beam state carries its key, a labeling of at most
    [t] symbols. *)
Definition labels_bounded (t : nat) (b : BeamList) : Prop :=
  forall (k : list nat) (e : BeamEntry),
    In (k, e) b -> labeling e = k /\ (List.length k <= t)%nat.

(** ** Notions for the probability mass of a beam state *)

(** The value of a finite float, the sum of a row, the product of a list
    of real numbers. *)
Definition fin_value (x : xfloat) : R :=
  match x with
  | Fin a => a
  | _ => 0
  end.

Definition row_sum (row : list xfloat) : R := Rsum (map fin_value row).

Definition Rprod (l : list R) : R := fold_right Rmult 1 l.

(** The probability mass that a beam state holds: the sum over its beams
    of the probability whose logarithm is [pr_total]. *)
Definition mass (b : BeamList) : R :=
  Rsum (map (fun x => lin (pr_total (snd x))) b).

(* ================================================================== *)
(** * Part II: properties *)
(* ================================================================== *)

(** ** Comparisons of real numbers *)

Lemma Rltb_true (x y : R) : x < y -> Rltb x y = true.
Proof. intros H. unfold Rltb. destruct (Rlt_dec x y); [reflexivity | contradiction]. Qed.

Lemma Rltb_false (x y : R) : y <= x -> Rltb x y = false.
Proof. intros H. unfold Rltb. destruct (Rlt_dec x y); [lra | reflexivity]. Qed.

Lemma Rltb_spec (x y : R) : Rltb x y = true <-> x < y.
Proof.
  unfold Rltb. destruct (Rlt_dec x y); split; intros; try assumption;
    try reflexivity; try discriminate; contradiction.
Qed.

Lemma Reqb_true (x y : R) : x = y -> Reqb x y = true.
Proof. intros H. unfold Reqb. destruct (Req_dec_T x y); [reflexivity | contradiction]. Qed.

Lemma Reqb_false (x y : R) : x <> y -> Reqb x y = false.
Proof. intros H. unfold Reqb. destruct (Req_dec_T x y); [contradiction | reflexivity]. Qed.

(** ** [log] *)

Lemma log_zero : log (Fin 0) = Ok NInf.
Proof. unfold log, feqb. now rewrite Reqb_true. Qed.

Lemma log_pos (a : R) : 0 < a -> log (Fin a) = Ok (Fin (ln a)).
Proof.
  intros H. unfold log, feqb, math_log.
  rewrite Reqb_false by lra. now rewrite Rltb_true.
Qed.

Lemma log_one : log (Fin 1) = Ok (Fin 0).
Proof. rewrite log_pos by lra. now rewrite ln_1. Qed.

Lemma log_neg (a : R) : a < 0 -> log (Fin a) = Raise ValueError.
Proof.
  intros H. unfold log, feqb, math_log.
  rewrite Reqb_false by lra. now rewrite Rltb_false by lra.
Qed.

(** ** Slices *)

Lemma py_slice_init {A : Type} (l : list A) :
  py_slice l None (Some (-1)%Z) = removelast l.
Proof.
  unfold py_slice, slice_bound. cbn [Z.ltb Z.compare].
  rewrite skipn_O.
  destruct l as [|x l'].
  - reflexivity.
  - replace (Z.to_nat (Z.max 0 (-1 + Z.of_nat (List.length (x :: l'))) - 0))
      with (List.length l') by (cbn [List.length]; lia).
    generalize x. induction l' as [|y l'' IH]; intros z.
    + reflexivity.
    + cbn [List.length firstn]. rewrite IH. reflexivity.
Qed.

Lemma py_slice_prefix {A : Type} (l : list A) (k : Z) :
  (0 <= k)%Z -> py_slice l None (Some k) = firstn (Z.to_nat k) l.
Proof.
  intros Hk. unfold py_slice, slice_bound.
  destruct (Z.ltb_spec k 0); [lia|].
  rewrite skipn_O, Z.sub_0_r.
  destruct (Z.le_ge_cases k (Z.of_nat (List.length l))) as [Hle | Hge].
  - now rewrite Z.min_l.
  - rewrite Z.min_r by assumption. rewrite Nat2Z.id.
    rewrite firstn_all. symmetry. apply firstn_all2. lia.
Qed.

(** ** [get_context] *)

Lemma get_context_suffix (l : list nat) (n : Z) :
  (1 <= n <= Z.of_nat (List.length l))%Z ->
  get_context l n false = skipn (List.length l - Z.to_nat n) l.
Proof.
  intros Hn. unfold get_context, py_slice, slice_bound.
  destruct (Z.ltb_spec (- n) 0); [|lia].
  rewrite Z.max_r by lia.
  replace (Z.to_nat (- n + Z.of_nat (List.length l)))
    with (List.length l - Z.to_nat n)%nat by lia.
  apply firstn_all2. rewrite length_skipn. lia.
Qed.

Lemma get_context_exclude_last (l : list nat) (n : Z) :
  (0 <= n)%Z -> (n + 1 <= Z.of_nat (List.length l))%Z ->
  get_context l n true =
    firstn (Z.to_nat n) (skipn (List.length l - Z.to_nat n - 1) l).
Proof.
  intros Hn Hlen. unfold get_context, py_slice, slice_bound.
  destruct (Z.ltb_spec (- (n + 1)) 0); [|lia].
  destruct (Z.ltb_spec (-1) 0); [|lia].
  rewrite !Z.max_r by lia.
  f_equal; [lia | f_equal; lia].
Qed.

Lemma get_context_zero (l : list nat) : get_context l 0 false = l.
Proof.
  unfold get_context, py_slice, slice_bound. cbn [Z.opp Z.ltb Z.compare].
  rewrite Z.min_l by lia. rewrite skipn_O, Z.sub_0_r, Nat2Z.id.
  apply firstn_all.
Qed.

(** C7.  [get_context] with context length 0 and [exclude_last=False]
    evaluates [labeling[-0:]], which is the whole labeling: on the labeling
    (1, 2, 3) it returns (1, 2, 3) and not the empty context, while
    [exclude_last=True] does return the empty context there. *)
Theorem get_context_length_zero :
  get_context [1; 2; 3]%nat 0 false = [1; 2; 3]%nat /\
  get_context [1; 2; 3]%nat 0 false <> [] /\
  get_context [1; 2; 3]%nat 0 true = [].
Proof.
  split; [apply get_context_zero|].
  split; [rewrite get_context_zero; discriminate|].
  reflexivity.
Qed.

(** ** The empty matrix *)

Lemma initial_beam_eq :
  initial_beam = Ok [([], mkBeamEntry (Fin 0) NInf (Fin 0) [])].
Proof. unfold initial_beam. rewrite log_one. reflexivity. Qed.

(** C9.  On a matrix without rows [beam_search] returns the empty string:
    the final beam state holds the empty labeling alone, and that is the
    labeling decoded. *)
Theorem beam_search_empty_matrix (nchars : nat) (bases : string) (p : params)
    (entr_cache : entropy_cache) :
  beam_search_loop (mkArray [] nchars) bases p entr_cache
    = Ok ([([], mkBeamEntry (Fin 0) NInf (Fin 0) [])], entr_cache) /\
  beam_search (mkArray [] nchars) bases p entr_cache = Ok EmptyString.
Proof.
  assert (Hloop : beam_search_loop (mkArray [] nchars) bases p entr_cache
            = Ok ([([], mkBeamEntry (Fin 0) NInf (Fin 0) [])], entr_cache)).
  { unfold beam_search_loop. rewrite initial_beam_eq. reflexivity. }
  split; [exact Hloop|].
  unfold beam_search. rewrite Hloop. reflexivity.
Qed.

(** ** Sums *)

Ltac real_dec :=
  repeat match goal with
  | |- context [Reqb ?a ?b] =>
      first [rewrite (Reqb_true a b) by lra | rewrite (Reqb_false a b) by lra]
  | |- context [Rltb ?a ?b] =>
      first [rewrite (Rltb_true a b) by lra | rewrite (Rltb_false a b) by lra]
  end.

Lemma fold_left_fadd_Fin (l : list R) (acc : R) :
  fold_left fadd (map Fin l) (Fin acc) = Fin (acc + Rsum l).
Proof.
  revert acc. induction l as [|a l IH]; intros acc; cbn [map fold_left Rsum fold_right].
  - f_equal. lra.
  - cbn [fadd]. rewrite IH. f_equal. unfold Rsum. lra.
Qed.

Lemma fsum_Fin (l : list R) : fsum (map Fin l) = Fin (Rsum l).
Proof. unfold fsum. rewrite fold_left_fadd_Fin. f_equal. lra. Qed.

Lemma Rsum_app (l1 l2 : list R) : Rsum (l1 ++ l2) = Rsum l1 + Rsum l2.
Proof.
  induction l1 as [|a l1 IH]; cbn [app Rsum fold_right].
  - unfold Rsum. cbn. lra.
  - unfold Rsum in *. rewrite IH. lra.
Qed.

Lemma removelast_map {A B : Type} (f : A -> B) (l : list A) :
  removelast (map f l) = map f (removelast l).
Proof.
  induction l as [|a l IH]; [reflexivity|].
  destruct l as [|b l]; [reflexivity|].
  cbn [map removelast] in *. now rewrite IH.
Qed.

Lemma Rsum_removelast (l : list R) :
  l <> [] -> Rsum l = Rsum (removelast l) + last l 0.
Proof.
  intros Hl. rewrite (app_removelast_last 0 Hl) at 1.
  rewrite Rsum_app. unfold Rsum at 2. cbn. lra.
Qed.

(** ** [entropy] *)

Lemma filter_positive_Fin (l : list R) :
  filter (fun p => fgtb p (Fin 0)) (map Fin l) = map Fin (filter (Rltb 0) l).
Proof.
  induction l as [|a l IH]; [reflexivity|].
  cbn [map filter]. unfold fgtb at 1. cbn [fltb].
  destruct (Rltb 0 a); cbn [map]; now rewrite IH.
Qed.

Lemma entropy_terms_Fin (l : list R) :
  Forall (fun a => 0 < a) l ->
  mapM (fun p => lp <- math_log p ;; Ok (fmul p lp)) (map Fin l)
    = Ok (map Fin (map plogp l)).
Proof.
  induction 1 as [|a l Ha Hl IH]; [reflexivity|].
  cbn [map mapM]. rewrite IH. cbn [math_log]. rewrite Rltb_true by assumption.
  reflexivity.
Qed.

Lemma filter_positive_Forall (l : list R) :
  Forall (fun a => 0 < a) (filter (Rltb 0) l).
Proof.
  apply Forall_forall. intros a Ha. apply filter_In in Ha.
  now apply Rltb_spec.
Qed.

(** The entropy of a vector of finite numbers, in closed form. *)
Lemma entropy_Fin (l : list R) :
  entropy (map Fin l) = Ok (Fin (- Rsum (map plogp (filter (Rltb 0) l)))).
Proof.
  unfold entropy. rewrite filter_positive_Fin.
  rewrite entropy_terms_Fin by apply filter_positive_Forall.
  cbn [bind]. now rewrite fsum_Fin.
Qed.

(** [entropy] raises on no input: what it takes the logarithm of is
    positive. *)
Lemma entropy_total (d : list xfloat) : exists h, entropy d = Ok h.
Proof.
  unfold entropy.
  assert (H : exists ts,
    mapM (fun p => lp <- math_log p ;; Ok (fmul p lp))
         (filter (fun p => fgtb p (Fin 0)) d) = Ok ts).
  { induction d as [|x d [ts IH]]; [now exists []|].
    cbn [filter]. destruct (fgtb x (Fin 0)) eqn:Hx; [|now exists ts].
    cbn [mapM]. rewrite IH.
    destruct x as [| | |a]; cbn in Hx; try discriminate.
    - eexists. reflexivity.
    - cbn [math_log]. rewrite Hx. eexists. reflexivity. }
  destruct H as [ts Hts]. rewrite Hts. eexists. reflexivity.
Qed.

(** Entries that are zero do not contribute. *)
Lemma entropy_skip_zero (d1 d2 : list xfloat) :
  entropy (d1 ++ Fin 0 :: d2) = entropy (d1 ++ d2).
Proof.
  unfold entropy. rewrite !filter_app. cbn [filter].
  unfold fgtb at 2. cbn [fltb]. now rewrite Rltb_false by lra.
Qed.

Lemma plogp_nonpos (a : R) : 0 < a <= 1 -> plogp a <= 0.
Proof.
  intros [Hpos Hle]. unfold plogp.
  assert (ln a <= 0).
  { destruct Hle as [Hlt | ->]; [|rewrite ln_1; lra].
    left. rewrite <- ln_1. now apply ln_increasing. }
  nra.
Qed.

Lemma plogp_zero (a : R) : 0 < a <= 1 -> plogp a = 0 -> a = 1.
Proof.
  intros [Hpos Hle] H0. unfold plogp in H0.
  destruct Hle as [Hlt | ->]; [|reflexivity].
  assert (ln a < 0) by (rewrite <- ln_1; now apply ln_increasing).
  nra.
Qed.

Lemma entropy_sum_nonpos (l : list R) :
  Forall (fun a => 0 <= a <= 1) l ->
  Rsum (map plogp (filter (Rltb 0) l)) <= 0.
Proof.
  induction 1 as [|a l Ha Hl IH]; [cbn; lra|].
  cbn [filter]. destruct (Rltb 0 a) eqn:Hpos; [|exact IH].
  apply Rltb_spec in Hpos. cbn [map Rsum fold_right].
  pose proof (plogp_nonpos a). unfold Rsum in IH. lra.
Qed.

(** With entries between 0 and 1 the entropy is zero only when every entry
    is 0 or 1. *)
Lemma entropy_sum_zero (l : list R) :
  Forall (fun a => 0 <= a <= 1) l ->
  Rsum (map plogp (filter (Rltb 0) l)) = 0 ->
  Forall (fun a => a = 0 \/ a = 1) l.
Proof.
  induction 1 as [|a l Ha Hl IH]; intros Hsum; [constructor|].
  cbn [filter] in Hsum. destruct (Rltb 0 a) eqn:Hpos.
  - apply Rltb_spec in Hpos. cbn [map Rsum fold_right] in Hsum.
    pose proof (plogp_nonpos a ltac:(lra)).
    pose proof (entropy_sum_nonpos l Hl) as Hrest. unfold Rsum in Hrest.
    constructor.
    + right. apply plogp_zero; lra.
    + apply IH. unfold Rsum. lra.
  - constructor; [|now apply IH].
    left. unfold Rltb in Hpos. destruct (Rlt_dec 0 a); [discriminate|lra].
Qed.

Lemma zero_one_sum_zero (l : list R) :
  Forall (fun a => a = 0 \/ a = 1) l -> Rsum l = 0 ->
  l = repeat 0 (List.length l).
Proof.
  induction 1 as [|a l Ha Hl IH]; intros Hsum; [reflexivity|].
  cbn [Rsum fold_right] in Hsum.
  assert (0 <= Rsum l).
  { clear -Hl. induction Hl as [|b l Hb _ IH]; [cbn; lra|].
    cbn [Rsum fold_right]. unfold Rsum in IH. lra. }
  unfold Rsum in *. cbn [List.length repeat].
  destruct Ha as [-> | ->]; [|lra].
  f_equal. apply IH. lra.
Qed.

Lemma zero_one_sum_one (l : list R) :
  Forall (fun a => a = 0 \/ a = 1) l -> Rsum l = 1 ->
  exists n m : nat, l = repeat 0 n ++ 1 :: repeat 0 m.
Proof.
  induction 1 as [|a l Ha Hl IH]; intros Hsum; [cbn in Hsum; lra|].
  cbn [Rsum fold_right] in Hsum. destruct Ha as [-> | ->].
  - destruct IH as (n & m & ->); [unfold Rsum; lra|].
    now exists (S n), m.
  - exists 0%nat, (List.length l). cbn [repeat app]. f_equal.
    apply zero_one_sum_zero; [assumption | unfold Rsum; lra].
Qed.

Lemma map_Fin_inj (l1 l2 : list R) : map Fin l1 = map Fin l2 -> l1 = l2.
Proof.
  revert l2. induction l1 as [|a l1 IH]; intros [|b l2] H; try discriminate.
  - reflexivity.
  - cbn in H. injection H as -> H. f_equal. now apply IH.
Qed.

Lemma one_hot_Fin (l : list R) :
  one_hot (map Fin l) <-> exists n m : nat, l = repeat 0 n ++ 1 :: repeat 0 m.
Proof.
  unfold one_hot. split; intros (n & m & H); exists n, m.
  - apply map_Fin_inj. rewrite H, map_app. cbn [map]. now rewrite !map_repeat.
  - rewrite H, map_app. cbn [map]. now rewrite !map_repeat.
Qed.

Lemma entropy_one_hot_sum (n m : nat) :
  Rsum (map plogp (filter (Rltb 0) (repeat 0 n ++ 1 :: repeat 0 m))) = 0.
Proof.
  assert (Hz : forall k, filter (Rltb 0) (repeat 0 k) = []).
  { induction k as [|k IH]; [reflexivity|]. cbn [repeat filter].
    now rewrite Rltb_false by lra. }
  rewrite filter_app, Hz. cbn [app filter]. rewrite Rltb_true by lra.
  rewrite Hz. cbn. unfold plogp. rewrite ln_1. lra.
Qed.

(** C8, as amended.  For a vector of finite numbers between 0 and 1,
    [entropy] returns a finite number that is at least 0 (no exception and
    no NaN, zeros included), an entry 0 can be left out without changing
    it, and when the entries sum to 1 it is 0 if and only if the vector is
    one-hot. *)
Theorem entropy_nonneg_one_hot (l : list R) :
  Forall (fun a => 0 <= a <= 1) l ->
  exists h : R,
    entropy (map Fin l) = Ok (Fin h) /\
    0 <= h /\
    (forall l1 l2, l = l1 ++ 0 :: l2 -> entropy (map Fin (l1 ++ l2)) = Ok (Fin h)) /\
    (Rsum l = 1 -> (h = 0 <-> one_hot (map Fin l))).
Proof.
  intros Hl. exists (- Rsum (map plogp (filter (Rltb 0) l))).
  split; [apply entropy_Fin|].
  split; [pose proof (entropy_sum_nonpos l Hl); lra|].
  split.
  - intros l1 l2 ->. rewrite <- entropy_Fin.
    rewrite !map_app. cbn [map]. symmetry. apply entropy_skip_zero.
  - intros Hsum. rewrite one_hot_Fin. split.
    + intros Hh. apply zero_one_sum_one; [|assumption].
      apply entropy_sum_zero; [assumption | lra].
    + intros (n & m & ->). rewrite entropy_one_hot_sum. lra.
Qed.

Lemma entropy_nonneg_one_hot_witness :
  Forall (fun a => 0 <= a <= 1) [0; 1; 0] /\
  exists h : R,
    entropy (map Fin [0; 1; 0]) = Ok (Fin h) /\
    0 <= h /\
    (forall l1 l2, [0; 1; 0] = l1 ++ 0 :: l2 ->
       entropy (map Fin (l1 ++ l2)) = Ok (Fin h)) /\
    (Rsum [0; 1; 0] = 1 -> (h = 0 <-> one_hot (map Fin [0; 1; 0]))).
Proof.
  assert (H : Forall (fun a => 0 <= a <= 1) [0; 1; 0])
    by (repeat constructor; lra).
  split; [exact H | exact (entropy_nonneg_one_hot [0; 1; 0] H)].
Defined.

Lemma not_one_hot_zeros : ~ one_hot [Fin 0; Fin 0].
Proof.
  intros (n & m & H).
  destruct n as [|[|[|n]]]; cbn in H; try discriminate;
    injection H; intros; try lra; try discriminate.
  all: destruct m; discriminate.
Qed.

(** C8 does not hold of every input: the all-zero vector, which
    [normalise] passes through unchanged, has entropy 0 and is not one-hot,
    and the entropy of a vector with an entry above 1 is negative. *)
Lemma entropy_counterexample :
  (entropy [Fin 0; Fin 0] = Ok (Fin 0) /\ ~ one_hot [Fin 0; Fin 0]) /\
  (exists h : R, entropy [Fin 2] = Ok (Fin h) /\ h < 0).
Proof.
  split; [split|].
  - change [Fin 0; Fin 0] with (map Fin [0; 0]). rewrite entropy_Fin.
    cbn [filter]. rewrite !Rltb_false by lra. cbn. do 2 f_equal. lra.
  - apply not_one_hot_zeros.
  - exists (- Rsum (map plogp (filter (Rltb 0) [2]))). split.
    + change [Fin 2] with (map Fin [2]). apply entropy_Fin.
    + cbn [filter]. rewrite Rltb_true by lra. cbn. unfold plogp.
      assert (0 < ln 2) by (rewrite <- ln_1; apply ln_increasing; lra).
      lra.
Qed.

(** ** [combine_dists] *)

Lemma index_last_snoc {A : Type} (l : list A) (x : A) :
  index_last (l ++ [x]) = Ok x.
Proof.
  destruct l as [|a l]; [reflexivity|].
  cbn [app index_last]. f_equal. apply last_last.
Qed.

Lemma index_last_Fin (s : list R) :
  s <> [] -> index_last (map Fin s) = Ok (Fin (last s 0)).
Proof.
  destruct s as [|a s]; [congruence|]. intros _. cbn [map index_last].
  f_equal. revert a. induction s as [|b s IH]; intros a; [reflexivity|].
  cbn [map last]. destruct s; [reflexivity | apply IH].
Qed.

(** The blank channel of the result is the blank channel of the signal
    distribution, whatever the two distributions are. *)
Lemma combine_dists_blank (r_dist s_dist d : list xfloat) :
  combine_dists r_dist s_dist = Ok d -> index_last d = index_last s_dist.
Proof.
  unfold combine_dists. intros H.
  destruct (np_add r_dist _) as [c|e]; [|discriminate]. cbn [bind] in H.
  destruct (index_last s_dist) as [blank|e]; [|discriminate]. cbn [bind] in H.
  injection H as <-. apply index_last_snoc.
Qed.

Lemma np_add_same_length (a b : list xfloat) :
  List.length a = List.length b ->
  np_add a b = Ok (map (fun p => fadd (fst p) (snd p)) (combine a b)).
Proof. intros H. unfold np_add. rewrite H, Nat.eqb_refl. reflexivity. Qed.

Lemma blend_steps_nonzero (r sb : list R) (m : R) :
  m <> 0 ->
  map (fun x => fmul x (Fin m))
    (map (fun x => fdiv x (Fin 2))
      (map (fun p => fadd (fst p) (snd p))
        (combine (map Fin r) (map (fun x => fdiv x (Fin m)) (map Fin sb)))))
  = map Fin (blend r sb m).
Proof.
  intros Hm. unfold blend. revert sb.
  induction r as [|a r IH]; intros [|b sb]; try reflexivity.
  cbn [map combine fst snd]. rewrite IH.
  cbn [fdiv]. rewrite (Reqb_false m 0) by assumption.
  cbn [fadd fdiv]. rewrite Reqb_false by lra. reflexivity.
Qed.

Lemma blend_steps_zero (r sb : list R) :
  List.length r = List.length sb ->
  map (fun x => fmul x (Fin 0))
    (map (fun x => fdiv x (Fin 2))
      (map (fun p => fadd (fst p) (snd p))
        (combine (map Fin r) (map (fun x => fdiv x (Fin 0)) (map Fin sb)))))
  = map (fun _ => NaN) r.
Proof.
  revert sb. induction r as [|a r IH]; intros [|b sb] Hlen;
    try discriminate; [reflexivity|].
  cbn [map combine fst snd]. rewrite IH by (cbn in Hlen; lia).
  f_equal. cbn [fdiv]. rewrite Reqb_true by reflexivity.
  unfold inf_signed. destruct (Reqb b 0); [reflexivity|].
  destruct (xorb true (Rltb 0 b)); cbn [fadd fdiv];
    rewrite (Rltb_false 2 0) by lra; cbn [fmul]; unfold inf_signed;
    now rewrite Reqb_true.
Qed.

Lemma combine_dists_nonzero (r s : list R) :
  s <> [] -> List.length r = List.length (removelast s) ->
  Rsum (removelast s) <> 0 ->
  combine_dists (map Fin r) (map Fin s)
    = Ok (map Fin (blend r (removelast s) (Rsum (removelast s)) ++ [last s 0])).
Proof.
  intros Hs Hlen Hm. unfold combine_dists.
  rewrite py_slice_init, removelast_map, fsum_Fin.
  rewrite np_add_same_length by (now rewrite !length_map).
  cbn [bind]. rewrite blend_steps_nonzero by assumption.
  rewrite index_last_Fin by assumption. cbn [bind].
  now rewrite map_app.
Qed.

Lemma combine_dists_zero (r s : list R) :
  s <> [] -> List.length r = List.length (removelast s) ->
  Rsum (removelast s) = 0 ->
  combine_dists (map Fin r) (map Fin s)
    = Ok (map (fun _ => NaN) r ++ [Fin (last s 0)]).
Proof.
  intros Hs Hlen Hm. unfold combine_dists.
  rewrite py_slice_init, removelast_map, fsum_Fin, Hm.
  rewrite np_add_same_length by (now rewrite !length_map).
  cbn [bind]. rewrite blend_steps_zero by assumption.
  rewrite index_last_Fin by assumption. reflexivity.
Qed.

Lemma Rsum_blend (r sb : list R) (m : R) :
  m <> 0 -> List.length r = List.length sb ->
  Rsum (blend r sb m) = (Rsum r * m + Rsum sb) / 2.
Proof.
  intros Hm. unfold blend. revert sb.
  induction r as [|a r IH]; intros [|b sb] Hlen; try discriminate.
  - cbn. lra.
  - cbn [combine map Rsum fold_right fst snd].
    specialize (IH sb ltac:(cbn in Hlen; lia)). unfold Rsum in *.
    rewrite IH. field. assumption.
Qed.

Lemma normalise_zero_sum (l : list R) :
  Rsum l = 0 -> normalise (map Fin l) = map Fin l.
Proof.
  intros H. unfold normalise. rewrite fsum_Fin, H.
  cbn [feqb]. now rewrite Reqb_true.
Qed.



(** C10.  [combine_dists] divides by the sum of the non-blank channels of
    the signal distribution and has no branch for a zero sum.  When that
    sum is strictly positive every entry of the result is a finite number;
    when it is zero every non-blank entry of the result is NaN, whereas
    [normalise] returns such a vector unchanged. *)
Theorem combine_dists_needs_nonblank_mass (r s : list R) :
  s <> [] ->
  List.length r = List.length (removelast s) ->
  (0 < Rsum (removelast s) ->
     exists d : list R, combine_dists (map Fin r) (map Fin s) = Ok (map Fin d)) /\
  (Rsum (removelast s) = 0 ->
     combine_dists (map Fin r) (map Fin s)
       = Ok (map (fun _ => NaN) r ++ [Fin (last s 0)]) /\
     normalise (map Fin (removelast s)) = map Fin (removelast s)).
Proof.
  intros Hs Hlen. split.
  - intros Hpos. eexists. apply combine_dists_nonzero; try assumption. lra.
  - intros Hzero. split.
    + now apply combine_dists_zero.
    + now apply normalise_zero_sum.
Qed.

Lemma combine_dists_needs_nonblank_mass_witness :
  [/ 4; / 4; / 2] <> [] /\
  List.length [/ 2; / 2] = List.length (removelast [/ 4; / 4; / 2]) /\
  (0 < Rsum (removelast [/ 4; / 4; / 2]) ->
     exists d : list R,
       combine_dists (map Fin [/ 2; / 2]) (map Fin [/ 4; / 4; / 2])
         = Ok (map Fin d)) /\
  (Rsum (removelast [/ 4; / 4; / 2]) = 0 ->
     combine_dists (map Fin [/ 2; / 2]) (map Fin [/ 4; / 4; / 2])
       = Ok (map (fun _ => NaN) [/ 2; / 2] ++ [Fin (last [/ 4; / 4; / 2] 0)]) /\
     normalise (map Fin (removelast [/ 4; / 4; / 2]))
       = map Fin (removelast [/ 4; / 4; / 2])).
Proof.
  assert (H1 : [/ 4; / 4; / 2] <> []) by discriminate.
  assert (H2 : List.length [/ 2; / 2] = List.length (removelast [/ 4; / 4; / 2]))
    by reflexivity.
  split; [exact H1|]. split; [exact H2|].
  exact (combine_dists_needs_nonblank_mass [/ 2; / 2] [/ 4; / 4; / 2] H1 H2).
Defined.

(** ** Dictionaries *)

Lemma labeling_eqb_refl (a : list nat) : labeling_eqb a a = true.
Proof. unfold labeling_eqb. destruct (list_eq_dec Nat.eq_dec a a); congruence. Qed.

Lemma labeling_eqb_neq (a b : list nat) : a <> b -> labeling_eqb a b = false.
Proof. intros H. unfold labeling_eqb. destruct (list_eq_dec Nat.eq_dec a b); congruence. Qed.

Lemma labeling_eqb_eq (a b : list nat) : labeling_eqb a b = true -> a = b.
Proof. unfold labeling_eqb. destruct (list_eq_dec Nat.eq_dec a b); congruence. Qed.

Section DictFacts.
Context {V : Type}.
Implicit Types (d : list (list nat * V)) (k : list nat) (v : V).

Lemma dict_get_set_same d k v :
  dict_get labeling_eqb (dict_set labeling_eqb d k v) k = Some v.
Proof.
  induction d as [|[k' v'] d IH]; cbn [dict_set dict_get].
  - now rewrite labeling_eqb_refl.
  - destruct (labeling_eqb k k') eqn:E; cbn [dict_get]; now rewrite E.
Qed.

Lemma dict_get_set_other d k k' v :
  k' <> k ->
  dict_get labeling_eqb (dict_set labeling_eqb d k v) k'
    = dict_get labeling_eqb d k'.
Proof.
  intros Hne. induction d as [|[k0 v0] d IH]; cbn [dict_set dict_get].
  - now rewrite labeling_eqb_neq.
  - destruct (labeling_eqb k k0) eqn:E; cbn [dict_get].
    + apply labeling_eqb_eq in E. subst k0.
      now rewrite labeling_eqb_neq.
    + now rewrite IH.
Qed.

Lemma dict_set_set d k v v' :
  dict_set labeling_eqb (dict_set labeling_eqb d k v) k v'
    = dict_set labeling_eqb d k v'.
Proof.
  induction d as [|[k0 v0] d IH]; cbn [dict_set].
  - now rewrite labeling_eqb_refl.
  - destruct (labeling_eqb k k0) eqn:E; cbn [dict_set]; rewrite E;
      [reflexivity | now rewrite IH].
Qed.

Lemma dict_get_In d k v : dict_get labeling_eqb d k = Some v -> In (k, v) d.
Proof.
  induction d as [|[k0 v0] d IH]; cbn [dict_get]; [discriminate|].
  destruct (labeling_eqb k k0) eqn:E.
  - apply labeling_eqb_eq in E. intros [= ->]. subst. now left.
  - intros H. right. now apply IH.
Qed.

Lemma dict_get_None d k :
  dict_get labeling_eqb d k = None <-> ~ In k (map fst d).
Proof.
  induction d as [|[k0 v0] d IH]; cbn [dict_get map fst In].
  - tauto.
  - destruct (labeling_eqb k k0) eqn:E.
    + apply labeling_eqb_eq in E. subst. split; [discriminate | tauto].
    + rewrite IH. split; [|tauto]. intros H [->|H']; [|tauto].
      now rewrite labeling_eqb_refl in E.
Qed.

Lemma In_dict_set d k v k' v' :
  In (k', v') (dict_set labeling_eqb d k v) ->
  (k' = k /\ v' = v) \/ In (k', v') d.
Proof.
  induction d as [|[k0 v0] d IH]; cbn [dict_set].
  - intros [[= <- <-]|[]]. now left.
  - destruct (labeling_eqb k k0) eqn:E.
    + apply labeling_eqb_eq in E. subst k0.
      intros [[= <- <-]|H]; [now left | right; now right].
    + intros [H|H]; [right; now left|].
      destruct (IH H) as [?|?]; [now left | right; now right].
Qed.

Lemma dict_set_keys d k v :
  map fst (dict_set labeling_eqb d k v)
    = match dict_get labeling_eqb d k with
      | Some _ => map fst d
      | None => map fst d ++ [k]
      end.
Proof.
  induction d as [|[k0 v0] d IH]; cbn [dict_set dict_get map fst app];
    [reflexivity|].
  destruct (labeling_eqb k k0) eqn:E; cbn [map fst]; [reflexivity|].
  rewrite IH. now destruct (dict_get labeling_eqb d k).
Qed.

End DictFacts.

(** ** [apply_rna_model] *)

Lemma apply_rna_model_None (s_dist : list xfloat) (context : list nat)
    (entr_cache : entropy_cache) (s_entropy r_thr s_thr : xfloat) :
  apply_rna_model s_dist context None entr_cache s_entropy r_thr s_thr
    = Ok (s_dist, entr_cache).
Proof. reflexivity. Qed.

Lemma apply_rna_model_KeyError (s_dist : list xfloat) (context : list nat)
    (m : rna_model) (entr_cache : entropy_cache)
    (s_entropy r_thr s_thr : xfloat) :
  dict_get labeling_eqb m context = None ->
  apply_rna_model s_dist context (Some m) entr_cache s_entropy r_thr s_thr
    = Raise KeyError.
Proof. intros H. unfold apply_rna_model. now rewrite H. Qed.

(** With one entry of the model's distribution per non-blank channel of
    a signal distribution that is not empty, [combine_dists] returns. *)
Lemma combine_dists_same_length (r_dist s_dist : list xfloat) :
  s_dist <> [] ->
  List.length r_dist = List.length (removelast s_dist) ->
  exists d : list xfloat,
    combine_dists r_dist s_dist = Ok d /\
    List.length d = List.length s_dist.
Proof.
  intros Hs Hlen. unfold combine_dists. rewrite py_slice_init.
  rewrite np_add_same_length by (now rewrite length_map).
  cbn [bind].
  assert (Hl : exists y, index_last s_dist = Ok y)
    by (destruct s_dist; [congruence | eexists; reflexivity]).
  destruct Hl as (y & ->). cbn [bind]. eexists. split; [reflexivity|].
  rewrite length_app, !length_map, length_combine, length_map, Hlen.
  rewrite Nat.min_id.
  rewrite (app_removelast_last y Hs) at 2. now rewrite length_app.
Qed.

(** C3, as amended.  For a model that defines the context, an entropy
    cache that holds for this context nothing but the entropy of the
    model's distribution, and a signal distribution that is not empty and
    has one non-blank channel per entry of the model's distribution,
    [combine_dists] gives a blend, and [apply_rna_model] returns that blend
    when the entropy of the model's distribution is below [r_threshold]
    and the signal entropy above [s_threshold], and the signal distribution
    unchanged otherwise; afterwards the cache holds that entropy for the
    context.  Without a model the signal distribution is returned
    unchanged. *)
Theorem apply_rna_model_policy (s_dist : list xfloat) (context : list nat)
    (m : rna_model) (entr_cache : entropy_cache)
    (s_entropy r_thr s_thr : xfloat) (r_dist : list xfloat) (r_entropy : xfloat) :
  dict_get labeling_eqb m context = Some r_dist ->
  entropy r_dist = Ok r_entropy ->
  (forall e, dict_get labeling_eqb entr_cache context = Some e -> e = r_entropy) ->
  s_dist <> [] ->
  List.length r_dist = List.length (removelast s_dist) ->
  exists (cache' : entropy_cache) (d : list xfloat),
    combine_dists r_dist s_dist = Ok d /\
    (fltb r_entropy r_thr = true /\ fgtb s_entropy s_thr = true ->
       apply_rna_model s_dist context (Some m) entr_cache s_entropy r_thr s_thr
         = Ok (d, cache')) /\
    (fltb r_entropy r_thr = false \/ fgtb s_entropy s_thr = false ->
       apply_rna_model s_dist context (Some m) entr_cache s_entropy r_thr s_thr
         = Ok (s_dist, cache')) /\
    dict_get labeling_eqb cache' context = Some r_entropy /\
    apply_rna_model s_dist context None entr_cache s_entropy r_thr s_thr
      = Ok (s_dist, entr_cache).
Proof.
  intros Hm Hent Hcache Hs Hlen.
  destruct (combine_dists_same_length r_dist s_dist Hs Hlen) as (d & Hd & _).
  unfold apply_rna_model. rewrite Hm.
  destruct (dict_get labeling_eqb entr_cache context) as [e|] eqn:Hget.
  - rewrite (Hcache e eq_refl) in *. exists entr_cache, d. cbn [bind].
    split; [exact Hd|].
    split; [intros [-> ->]; cbn [andb]; now rewrite Hd|].
    split; [|split; [exact Hget | reflexivity]].
    intros [-> | ->]; [reflexivity | now rewrite andb_false_r].
  - rewrite Hent.
    exists (dict_set labeling_eqb entr_cache context r_entropy), d.
    cbn [bind].
    split; [exact Hd|].
    split; [intros [-> ->]; cbn [andb]; now rewrite Hd|].
    split; [|split; [apply dict_get_set_same | reflexivity]].
    intros [-> | ->]; [reflexivity | now rewrite andb_false_r].
Qed.

Lemma entropy_one_zero : entropy [Fin 1; Fin 0] = Ok (Fin 0).
Proof.
  change [Fin 1; Fin 0] with (map Fin [1; 0]). rewrite entropy_Fin.
  cbn [filter]. rewrite Rltb_true, Rltb_false by lra.
  cbn. unfold plogp. rewrite ln_1. do 2 f_equal. lra.
Qed.

Lemma apply_rna_model_policy_witness :
  dict_get labeling_eqb [([], [Fin 1; Fin 0])] [] = Some [Fin 1; Fin 0] /\
  entropy [Fin 1; Fin 0] = Ok (Fin 0) /\
  (forall e, dict_get labeling_eqb (@nil (list nat * xfloat)) [] = Some e ->
     e = Fin 0) /\
  [Fin (/ 4); Fin (/ 4); Fin (/ 2)] <> [] /\
  List.length [Fin 1; Fin 0]
    = List.length (removelast [Fin (/ 4); Fin (/ 4); Fin (/ 2)]) /\
  exists (cache' : entropy_cache) (d : list xfloat),
    combine_dists [Fin 1; Fin 0] [Fin (/ 4); Fin (/ 4); Fin (/ 2)] = Ok d /\
    (fltb (Fin 0) (Fin 1) = true /\ fgtb (Fin 1) (Fin 0) = true ->
       apply_rna_model [Fin (/ 4); Fin (/ 4); Fin (/ 2)] []
         (Some [([], [Fin 1; Fin 0])]) [] (Fin 1) (Fin 1) (Fin 0)
         = Ok (d, cache')) /\
    (fltb (Fin 0) (Fin 1) = false \/ fgtb (Fin 1) (Fin 0) = false ->
       apply_rna_model [Fin (/ 4); Fin (/ 4); Fin (/ 2)] []
         (Some [([], [Fin 1; Fin 0])]) [] (Fin 1) (Fin 1) (Fin 0)
         = Ok ([Fin (/ 4); Fin (/ 4); Fin (/ 2)], cache')) /\
    dict_get labeling_eqb cache' [] = Some (Fin 0) /\
    apply_rna_model [Fin (/ 4); Fin (/ 4); Fin (/ 2)] [] None [] (Fin 1) (Fin 1) (Fin 0)
      = Ok ([Fin (/ 4); Fin (/ 4); Fin (/ 2)], []).
Proof.
  assert (H1 : dict_get labeling_eqb [([], [Fin 1; Fin 0])] []
                 = Some [Fin 1; Fin 0]) by reflexivity.
  assert (H3 : forall e,
             dict_get labeling_eqb (@nil (list nat * xfloat)) [] = Some e ->
             e = Fin 0) by (intros e H; discriminate H).
  assert (H4 : [Fin (/ 4); Fin (/ 4); Fin (/ 2)] <> []) by discriminate.
  assert (H5 : List.length [Fin 1; Fin 0]
               = List.length (removelast [Fin (/ 4); Fin (/ 4); Fin (/ 2)]))
    by reflexivity.
  split; [exact H1|]. split; [exact entropy_one_zero|]. split; [exact H3|].
  split; [exact H4|]. split; [exact H5|].
  exact (apply_rna_model_policy [Fin (/ 4); Fin (/ 4); Fin (/ 2)] []
           [([], [Fin 1; Fin 0])] [] (Fin 1) (Fin 1) (Fin 0)
           [Fin 1; Fin 0] (Fin 0) H1 entropy_one_zero H3 H4 H5).
Defined.

(** C3 does not hold of every call with a model.  When the model does not
    define the context the call raises [KeyError] and returns neither
    distribution.  And the entropy that is compared is the one found in the
    caller's cache: with -1 cached for a context whose distribution has
    entropy 0, the blend is returned under [r_threshold] 0, which the
    entropy of the distribution is not below. *)
Lemma apply_rna_model_counterexample :
  apply_rna_model [Fin (/ 4); Fin (/ 4); Fin (/ 2)] [0%nat]
    (Some [([1%nat], [Fin 1; Fin 0])]) [] (Fin 1) (Fin 1) (Fin 0)
    = Raise KeyError /\
  (entropy [Fin 1; Fin 0] = Ok (Fin 0) /\
   fltb (Fin 0) (Fin 0) = false /\
   exists d,
     apply_rna_model [Fin (/ 4); Fin (/ 4); Fin (/ 2)] []
       (Some [([], [Fin 1; Fin 0])]) [([], Fin (-1))] (Fin 1) (Fin 0) (Fin 0)
       = Ok (d, [([], Fin (-1))]) /\
     combine_dists [Fin 1; Fin 0] [Fin (/ 4); Fin (/ 4); Fin (/ 2)] = Ok d /\
     d <> [Fin (/ 4); Fin (/ 4); Fin (/ 2)]).
Proof.
  split; [reflexivity|].
  split; [exact entropy_one_zero|].
  split; [cbn; now rewrite Rltb_false by lra|].
  pose proof (combine_dists_nonzero [1; 0] [/ 4; / 4; / 2]
                ltac:(discriminate) eq_refl ltac:(cbn; lra)) as Hc.
  cbn [map] in Hc.
  eexists. split; [|split; [exact Hc|]].
  - unfold apply_rna_model. cbn [dict_get labeling_eqb list_eq_dec list_rec list_rect].
    cbn [bind]. cbn [fltb fgtb]. rewrite !Rltb_true by lra. cbn [andb].
    rewrite Hc. reflexivity.
  - intros H.
    apply (f_equal (fun l => match l with Fin x :: _ => x | _ => 0 end)) in H.
    cbn in H. lra.
Qed.

(** The shapes matter too.  With a model distribution of three entries for
    a signal distribution of two non-blank channels, and both tests
    passed, [numpy.add] raises [ValueError] and nothing is returned. *)
Lemma apply_rna_model_shape_error :
  entropy [Fin 1; Fin 0; Fin 0] = Ok (Fin 0) /\
  fltb (Fin 0) (Fin 1) = true /\ fgtb (Fin 1) (Fin 0) = true /\
  apply_rna_model [Fin (/ 4); Fin (/ 4); Fin (/ 2)] []
    (Some [([], [Fin 1; Fin 0; Fin 0])]) [] (Fin 1) (Fin 1) (Fin 0)
    = Raise ValueError.
Proof.
  assert (He : entropy [Fin 1; Fin 0; Fin 0] = Ok (Fin 0)).
  { change [Fin 1; Fin 0; Fin 0] with (map Fin [1; 0; 0]). rewrite entropy_Fin.
    cbn [filter]. rewrite Rltb_true, !Rltb_false by lra.
    cbn. unfold plogp. rewrite ln_1. do 2 f_equal. lra. }
  assert (Ht : fltb (Fin 0) (Fin 1) = true) by (cbn; apply Rltb_true; lra).
  split; [exact He|]. split; [exact Ht|]. split; [exact Ht|].
  unfold apply_rna_model. cbn [dict_get]. rewrite labeling_eqb_refl, He.
  cbn [bind dict_get]. unfold fgtb. rewrite Ht. cbn [andb].
  unfold combine_dists. rewrite py_slice_init. reflexivity.
Qed.


(** ** Beam states *)

Lemma entry_get_update_same (b : BeamList) (l : list nat)
    (f : BeamEntry -> BeamEntry) :
  entry_get (entry_update b l f) l = f (entry_get b l).
Proof. unfold entry_update, entry_get at 1. now rewrite dict_get_set_same. Qed.

Lemma dict_get_update_other (b : BeamList) (l l' : list nat)
    (f : BeamEntry -> BeamEntry) :
  l' <> l ->
  dict_get labeling_eqb (entry_update b l f) l' = dict_get labeling_eqb b l'.
Proof. intros H. unfold entry_update. now apply dict_get_set_other. Qed.

Lemma entry_get_update_other (b : BeamList) (l l' : list nat)
    (f : BeamEntry -> BeamEntry) :
  l' <> l -> entry_get (entry_update b l f) l' = entry_get b l'.
Proof. intros H. unfold entry_get. now rewrite dict_get_update_other. Qed.

(** Consecutive assignments to fields of one entry are one update. *)
Lemma entry_update_update (b : BeamList) (l : list nat)
    (f g : BeamEntry -> BeamEntry) :
  entry_update (entry_update b l f) l g = entry_update b l (fun e => g (f e)).
Proof.
  unfold entry_update at 1. rewrite entry_get_update_same.
  unfold entry_update. apply dict_set_set.
Qed.

Lemma entry_update_keys (b : BeamList) (l : list nat)
    (f : BeamEntry -> BeamEntry) :
  map fst (entry_update b l f)
    = match dict_get labeling_eqb b l with
      | Some _ => map fst b
      | None => map fst b ++ [l]
      end.
Proof. apply dict_set_keys. Qed.

(** ** C5: a context that the model does not define *)



(** ** [logaddexp] *)

Lemma logaddexp_comm (x y : xfloat) : logaddexp x y = logaddexp y x.
Proof.
  destruct x as [| | |a], y as [| | |b]; cbn [logaddexp]; try reflexivity.
  do 2 f_equal. lra.
Qed.

Lemma exp_sum_pos (a b : R) : 0 < exp a + exp b.
Proof. pose proof (exp_pos a). pose proof (exp_pos b). lra. Qed.

Lemma logaddexp_assoc (x y z : xfloat) :
  logaddexp x (logaddexp y z) = logaddexp (logaddexp x y) z.
Proof.
  destruct x as [| | |a], y as [| | |b], z as [| | |c];
    cbn [logaddexp]; try reflexivity.
  rewrite !exp_ln by apply exp_sum_pos. do 2 f_equal. lra.
Qed.

Lemma logaddexp_NInf_l (x : xfloat) : logaddexp NInf x = x.
Proof. now destruct x. Qed.

Lemma logaddexp_NInf_r (x : xfloat) : logaddexp x NInf = x.
Proof. now destruct x. Qed.

(** ** The invariant of the beam entries *)

Lemma entry_inv_default : entry_inv BeamEntry_default.
Proof. reflexivity. Qed.

Lemma entry_inv_copied (e : BeamEntry) (l : list nat) (nb bl : xfloat) :
  entry_inv e -> entry_inv (copied_entry e l nb bl).
Proof.
  unfold entry_inv. cbn. intros ->.
  rewrite !logaddexp_assoc. f_equal.
  rewrite <- !logaddexp_assoc. f_equal. apply logaddexp_comm.
Qed.

Lemma entry_inv_extended (e : BeamEntry) (l : list nat) (mass : xfloat) :
  entry_inv e -> entry_inv (extended_entry e l mass).
Proof.
  unfold entry_inv. cbn. intros ->. now rewrite logaddexp_assoc.
Qed.

Lemma beam_inv_entry_get (b : BeamList) (l : list nat) :
  beam_inv b -> entry_inv (entry_get b l).
Proof.
  intros Hb. unfold entry_get.
  destruct (dict_get labeling_eqb b l) as [e|] eqn:E.
  - apply dict_get_In in E. now apply (Hb l).
  - apply entry_inv_default.
Qed.

Lemma beam_inv_update (b : BeamList) (l : list nat)
    (f : BeamEntry -> BeamEntry) :
  beam_inv b -> entry_inv (f (entry_get b l)) -> beam_inv (entry_update b l f).
Proof.
  intros Hb Hf k e Hin. unfold entry_update in Hin.
  apply In_dict_set in Hin. destruct Hin as [[_ ->]|Hin]; [exact Hf|].
  now apply (Hb k).
Qed.

(** ** EXTEND BEAM *)

(** One round of the loop over [c]: the assignments to the entry of the
    extended labeling amount to [extended_entry]. *)
Lemma extend_char_eq (last : BeamList) (labeling : list nat)
    (pr_dist : list xfloat) (curr : BeamList) (c : nat) (x lx : xfloat) :
  index pr_dist c = Ok x -> log x = Ok lx ->
  extend_char last labeling pr_dist curr c
    = Ok (entry_update curr (labeling ++ [c]) (fun e =>
            extended_entry e (labeling ++ [c]) (extend_mass last labeling c lx))).
Proof.
  intros Hx Hlx. unfold extend_char. rewrite Hx. cbn [bind]. rewrite Hlx.
  cbn [bind]. rewrite !entry_update_update. f_equal.
  unfold entry_update. f_equal. unfold extended_entry, extend_mass. cbn.
  now destruct (ends_with labeling c).
Qed.

Lemma extend_chars_spec (last : BeamList) (labeling : list nat)
    (pr_dist : list xfloat) (logp : nat -> xfloat) (cs : list nat) :
  NoDup cs ->
  (forall c, In c cs -> exists x, index pr_dist c = Ok x /\ log x = Ok (logp c)) ->
  forall curr : BeamList,
  exists curr' : BeamList,
    foldM (extend_char last labeling pr_dist) cs curr = Ok curr' /\
    (forall c, In c cs ->
       entry_get curr' (labeling ++ [c])
         = extended_entry (entry_get curr (labeling ++ [c])) (labeling ++ [c])
             (extend_mass last labeling c (logp c))) /\
    (forall l, (forall c, In c cs -> l <> labeling ++ [c]) ->
       dict_get labeling_eqb curr' l = dict_get labeling_eqb curr l).
Proof.
  induction 1 as [|c cs Hc Hnd IH]; intros Hlog curr.
  - exists curr. split; [reflexivity|]. split; [intros c []|reflexivity].
  - destruct (Hlog c (or_introl eq_refl)) as (x & Hx & Hlx).
    cbn [foldM]. rewrite (extend_char_eq _ _ _ _ _ _ _ Hx Hlx). cbn [bind].
    set (curr1 := entry_update curr _ _).
    destruct (IH (fun c' H => Hlog c' (or_intror H)) curr1)
      as (curr' & Hfold & Hin & Hout).
    exists curr'. split; [exact Hfold|]. split.
    + intros c' [<-|Hc'].
      * unfold entry_get at 1. rewrite Hout.
        -- fold (entry_get curr1 (labeling ++ [c])). unfold curr1.
           now rewrite entry_get_update_same.
        -- intros c'' Hc'' Heq. apply app_inj_tail in Heq.
           destruct Heq as [_ ->]. contradiction.
      * rewrite (Hin c' Hc'). unfold curr1.
        rewrite entry_get_update_other; [reflexivity|].
        intros Heq. apply app_inj_tail in Heq. destruct Heq as [_ ->].
        contradiction.
    + intros l Hl. rewrite Hout by (intros c' Hc'; apply Hl; now right).
      unfold curr1. apply dict_get_update_other. apply Hl. now left.
Qed.

Lemma last_cons {A : Type} (first d : A) (rest : list A) :
  List.last (first :: rest) d = List.last rest first.
Proof.
  revert first. induction rest as [|b rest IH]; intros first; [reflexivity|].
  cbn [List.last] in *. destruct rest; [reflexivity | apply IH].
Qed.

(** [ends_with labeling c], the program's [labeling and labeling[-1] == c],
    holds exactly when [c] is the last symbol of the labeling. *)
Lemma ends_with_spec (labeling : list nat) (c : nat) :
  ends_with labeling c = true <-> exists front, labeling = front ++ [c].
Proof.
  split.
  - destruct labeling as [|first rest]; [discriminate|]. cbn [ends_with].
    intros H. apply Nat.eqb_eq in H. exists (removelast (first :: rest)).
    rewrite <- H, <- (last_cons first first rest).
    apply app_removelast_last. discriminate.
  - intros (front & ->). destruct front as [|a front]; cbn [app ends_with].
    + apply Nat.eqb_refl.
    + rewrite last_last. apply Nat.eqb_refl.
Qed.

Lemma ends_with_false (labeling : list nat) (c : nat) :
  ends_with labeling c = false <-> forall front, labeling <> front ++ [c].
Proof.
  split.
  - intros H front Heq.
    assert (Ht : ends_with labeling c = true)
      by (apply ends_with_spec; now exists front).
    congruence.
  - intros H. destruct (ends_with labeling c) eqn:E; [|reflexivity].
    apply ends_with_spec in E. destruct E as (front & Heq).
    now destruct (H front).
Qed.

(** C1.  EXTEND BEAM for a labeling L, with the distribution chosen for it
    and the logarithms of its non-blank entries defined, returns a state in
    which, for every non-blank symbol c, the entry of L+c has received a
    mass: the previous [pr_blank] of L plus log(dist[c]) when c is the last
    symbol of L (L is some labeling followed by c), the previous
    [pr_total] of L plus log(dist[c]) when it is not (L is empty or ends
    with another symbol).  The mass is accumulated into [pr_non_blank] and
    into [pr_total] of that entry, its [pr_blank] is unchanged, and no
    other entry is touched. *)
Theorem extend_beam_contribution (p : params) (nchars : nat)
    (row : list xfloat) (s_entropy : xfloat) (last : BeamList)
    (labeling : list nat) (curr : BeamList) (entr_cache : entropy_cache)
    (pr_dist : list xfloat) (cache' : entropy_cache) (logp : nat -> xfloat) :
  extend_dist p row s_entropy labeling entr_cache = Ok (pr_dist, cache') ->
  (forall c, (c < nchars - 1)%nat ->
     exists x, index pr_dist c = Ok x /\ log x = Ok (logp c)) ->
  exists curr' : BeamList,
    extend_beam p nchars row s_entropy last labeling (curr, entr_cache)
      = Ok (curr', cache') /\
    (forall c front, (c < nchars - 1)%nat -> labeling = front ++ [c] ->
       let e := entry_get curr (labeling ++ [c]) in
       let e' := entry_get curr' (labeling ++ [c]) in
       let m := fadd (pr_blank (entry_get last labeling)) (logp c) in
       pr_non_blank e' = logaddexp (pr_non_blank e) m /\
       pr_total e' = logaddexp (pr_total e) m /\
       pr_blank e' = pr_blank e) /\
    (forall c, (c < nchars - 1)%nat ->
       (forall front, labeling <> front ++ [c]) ->
       let e := entry_get curr (labeling ++ [c]) in
       let e' := entry_get curr' (labeling ++ [c]) in
       let m := fadd (pr_total (entry_get last labeling)) (logp c) in
       pr_non_blank e' = logaddexp (pr_non_blank e) m /\
       pr_total e' = logaddexp (pr_total e) m /\
       pr_blank e' = pr_blank e) /\
    (forall l, (forall c, (c < nchars - 1)%nat -> l <> labeling ++ [c]) ->
       dict_get labeling_eqb curr' l = dict_get labeling_eqb curr l).
Proof.
  intros Hdist Hlog.
  destruct (extend_chars_spec last labeling pr_dist logp (seq 0 (nchars - 1))
              (seq_NoDup _ _)
              (fun c H => Hlog c (proj2 (proj1 (in_seq _ _ _) H))) curr)
    as (curr' & Hfold & Hin & Hout).
  exists curr'. split; [|split; [|split]].
  - unfold extend_beam. unfold extend_dist in Hdist. rewrite Hdist.
    cbn [bind]. rewrite Hfold. reflexivity.
  - intros c front Hc Hfront. cbn zeta.
    rewrite (Hin c) by (apply in_seq; lia). unfold extend_mass.
    replace (ends_with labeling c) with true
      by (symmetry; apply ends_with_spec; now exists front).
    now cbn.
  - intros c Hc Hfront. cbn zeta.
    rewrite (Hin c) by (apply in_seq; lia). unfold extend_mass.
    replace (ends_with labeling c) with false
      by (symmetry; now apply ends_with_false).
    now cbn.
  - intros l Hl. apply Hout. intros c Hc. apply Hl. apply in_seq in Hc. lia.
Qed.

(** ** Loops and exceptions *)

Lemma bind_Ok_inv {A B : Type} (c : except A) (k : A -> except B) (b : B) :
  bind c k = Ok b -> exists a, c = Ok a /\ k a = Ok b.
Proof. destruct c as [a|e]; [|discriminate]. intros H. now exists a. Qed.

Lemma foldM_inv {A S : Type} (f : S -> A -> except S) (P : S -> Prop) :
  (forall s a s', f s a = Ok s' -> P s -> P s') ->
  forall l s s', foldM f l s = Ok s' -> P s -> P s'.
Proof.
  intros Hf. induction l as [|a l IH]; intros s s' H Hs; cbn [foldM] in H.
  - now injection H as <-.
  - apply bind_Ok_inv in H. destruct H as (s1 & H1 & H2).
    eapply IH; [exact H2|]. eapply Hf; eassumption.
Qed.

(** ** COPY BEAM *)

(** When COPY BEAM returns, its assignments to the entry of the labeling
    amount to [copied_entry], for the two masses [nb] and [bl] that it
    computed. *)
Lemma copy_beam_inv (p : params) (blank_idx : nat) (row : list xfloat)
    (s_entropy : xfloat) (last : BeamList) (labeling : list nat)
    (curr : BeamList) (entr_cache : entropy_cache)
    (curr' : BeamList) (cache' : entropy_cache) :
  copy_beam p blank_idx row s_entropy last labeling (curr, entr_cache)
    = Ok (curr', cache') ->
  exists nb bl : xfloat,
    curr' = entry_update curr labeling (fun e => copied_entry e labeling nb bl).
Proof.
  unfold copy_beam. intros H.
  apply bind_Ok_inv in H. destruct H as (nb0 & _ & H).
  apply bind_Ok_inv in H. destruct H as ([nb cache1] & _ & H).
  apply bind_Ok_inv in H. destruct H as (b & _ & H).
  apply bind_Ok_inv in H. destruct H as (lb & _ & H).
  injection H as <- _. rewrite !entry_update_update.
  exists nb, (fadd (pr_total (entry_get last labeling)) lb).
  reflexivity.
Qed.

Lemma copy_beam_beam_inv (p : params) (blank_idx : nat) (row : list xfloat)
    (s_entropy : xfloat) (last : BeamList) (labeling : list nat)
    (st st' : BeamList * entropy_cache) :
  copy_beam p blank_idx row s_entropy last labeling st = Ok st' ->
  beam_inv (fst st) -> beam_inv (fst st').
Proof.
  destruct st as [curr cache], st' as [curr' cache']. intros H Hinv.
  apply copy_beam_inv in H. destruct H as (nb & bl & ->). cbn [fst] in *.
  apply beam_inv_update; [assumption|].
  apply entry_inv_copied. now apply beam_inv_entry_get.
Qed.

Lemma extend_char_beam_inv (last : BeamList) (labeling : list nat)
    (pr_dist : list xfloat) (curr : BeamList) (c : nat) (curr' : BeamList) :
  extend_char last labeling pr_dist curr c = Ok curr' ->
  beam_inv curr -> beam_inv curr'.
Proof.
  intros H Hinv.
  destruct (index pr_dist c) as [x|e] eqn:Hx;
    [|unfold extend_char in H; rewrite Hx in H; discriminate].
  destruct (log x) as [lx|e] eqn:Hlx;
    [|unfold extend_char in H; rewrite Hx in H; cbn [bind] in H;
      rewrite Hlx in H; discriminate].
  rewrite (extend_char_eq _ _ _ _ _ _ _ Hx Hlx) in H. injection H as <-.
  apply beam_inv_update; [assumption|].
  apply entry_inv_extended. now apply beam_inv_entry_get.
Qed.

Lemma extend_beam_beam_inv (p : params) (nchars : nat) (row : list xfloat)
    (s_entropy : xfloat) (last : BeamList) (labeling : list nat)
    (st st' : BeamList * entropy_cache) :
  extend_beam p nchars row s_entropy last labeling st = Ok st' ->
  beam_inv (fst st) -> beam_inv (fst st').
Proof.
  destruct st as [curr cache], st' as [curr' cache']. unfold extend_beam.
  intros H Hinv.
  apply bind_Ok_inv in H. destruct H as ([pr_dist cache1] & _ & H).
  apply bind_Ok_inv in H. destruct H as (curr1 & Hfold & H).
  injection H as <- _. cbn [fst] in *.
  eapply (foldM_inv _ beam_inv); [|exact Hfold|exact Hinv].
  intros s a s' Hs. eapply extend_char_beam_inv. exact Hs.
Qed.

Lemma timestep_beam_inv (p : params) (blank_idx nchars : nat)
    (st : BeamList * entropy_cache) (row_ent : list xfloat * xfloat)
    (st' : BeamList * entropy_cache) :
  timestep p blank_idx nchars st row_ent = Ok st' -> beam_inv (fst st').
Proof.
  destruct st as [last cache], row_ent as [row s_entropy]. unfold timestep.
  intros H.
  eapply (foldM_inv _ (fun s => beam_inv (fst s))); [|exact H|].
  - intros s l s' Hstep Hs. unfold beam_step in Hstep.
    apply bind_Ok_inv in Hstep. destruct Hstep as (s1 & Hcopy & Hext).
    eapply extend_beam_beam_inv; [exact Hext|].
    eapply copy_beam_beam_inv; [exact Hcopy|exact Hs].
  - intros l e [].
Qed.

Lemma initial_beam_inv : beam_inv [([], mkBeamEntry (Fin 0) NInf (Fin 0) [])].
Proof. intros l e [[= <- <-]|[]]. reflexivity. Qed.

Lemma timesteps_beam_inv (p : params) (blank_idx nchars : nat)
    (row_ents : list (list xfloat * xfloat)) (st st' : BeamList * entropy_cache) :
  foldM (timestep p blank_idx nchars) row_ents st = Ok st' ->
  beam_inv (fst st) -> beam_inv (fst st').
Proof.
  apply (foldM_inv _ (fun s => beam_inv (fst s))).
  intros s a s' Hstep _. eapply timestep_beam_inv. exact Hstep.
Qed.

(** C2.  From the initial state, after any number of time-steps (over any
    rows, with or without a language model), every entry of the beam state
    has [pr_total = logaddexp(pr_blank, pr_non_blank)], in real
    arithmetic. *)
Theorem beam_invariant (p : params) (blank_idx nchars : nat)
    (row_ents : list (list xfloat * xfloat)) (entr_cache : entropy_cache)
    (last0 last : BeamList) (cache' : entropy_cache) :
  initial_beam = Ok last0 ->
  foldM (timestep p blank_idx nchars) row_ents (last0, entr_cache)
    = Ok (last, cache') ->
  forall (l : list nat) (e : BeamEntry),
    In (l, e) last -> pr_total e = logaddexp (pr_blank e) (pr_non_blank e).
Proof.
  intros H0 Hloop. rewrite initial_beam_eq in H0. injection H0 as <-.
  change (beam_inv (fst (last, cache'))).
  eapply timesteps_beam_inv; [exact Hloop|]. apply initial_beam_inv.
Qed.

(** The same for the state that [beam_search] decodes. *)
Lemma beam_search_loop_invariant (mat : ndarray) (bases : string) (p : params)
    (entr_cache : entropy_cache) (last : BeamList) (cache' : entropy_cache) :
  beam_search_loop mat bases p entr_cache = Ok (last, cache') ->
  beam_inv last.
Proof.
  unfold beam_search_loop. intros H.
  apply bind_Ok_inv in H. destruct H as (last0 & H0 & H).
  apply bind_Ok_inv in H. destruct H as (ents & _ & H).
  rewrite initial_beam_eq in H0. injection H0 as <-.
  change (beam_inv (fst (last, cache'))).
  eapply timesteps_beam_inv; [exact H|]. apply initial_beam_inv.
Qed.

(** ** Runs on rational probabilities *)

Lemma Qle_bool_false_pos (q : Q) : Qle_bool q 0 = false -> 0 < Q2R q.
Proof.
  intros H. destruct (Qlt_le_dec 0 q) as [Hlt|Hle].
  - apply Qlt_Rlt in Hlt. now rewrite RMicromega.Q2R_0 in Hlt.
  - apply Qle_bool_iff in Hle. congruence.
Qed.

Lemma Qle_bool_true_zero (q : Q) :
  Qle_bool 0 q = true -> Qle_bool q 0 = true -> Q2R q = 0.
Proof.
  intros H1 H2. apply Qle_bool_iff in H1, H2.
  apply Qle_Rle in H1, H2. rewrite RMicromega.Q2R_0 in *. lra.
Qed.

Lemma lnq_equiv (a b : Q) : (a == b)%Q -> lnq a = lnq b.
Proof.
  intros H. unfold lnq.
  assert (Hb : Qle_bool a 0 = Qle_bool b 0).
  { destruct (Qle_bool a 0) eqn:Ea, (Qle_bool b 0) eqn:Eb; try reflexivity.
    - apply Qle_bool_iff in Ea. rewrite H in Ea. apply Qle_bool_iff in Ea.
      congruence.
    - apply Qle_bool_iff in Eb. rewrite <- H in Eb. apply Qle_bool_iff in Eb.
      congruence. }
  rewrite Hb. destruct (Qle_bool b 0); [reflexivity|].
  now rewrite (Qeq_eqR _ _ H).
Qed.

Lemma log_Q2F (q : Q) : Qle_bool 0 q = true -> log (Q2F q) = Ok (lnq q).
Proof.
  intros H. unfold lnq, Q2F. destruct (Qle_bool q 0) eqn:E.
  - rewrite (Qle_bool_true_zero q H E). apply log_zero.
  - apply log_pos. now apply Qle_bool_false_pos.
Qed.

Lemma lnq_zero : lnq 0 = NInf.
Proof. reflexivity. Qed.

Lemma lnq_one : lnq 1 = Fin 0.
Proof.
  unfold lnq. cbn [Qle_bool Qnum Qden Z.leb Z.mul Z.compare Pos.mul].
  f_equal. rewrite RMicromega.Q2R_1. apply ln_1.
Qed.

Lemma Qle_bool_mult_zero (a b : Q) :
  Qle_bool 0 a = true -> Qle_bool 0 b = true ->
  Qle_bool (a * b) 0 = Qle_bool a 0 || Qle_bool b 0.
Proof.
  intros Ha Hb.
  destruct (Qle_bool a 0) eqn:Ea; cbn [orb].
  - apply Qle_bool_iff. pose proof (Qle_bool_true_zero a Ha Ea) as Hz.
    apply Rle_Qle. rewrite Q2R_mult, Hz, RMicromega.Q2R_0. lra.
  - destruct (Qle_bool b 0) eqn:Eb.
    + apply Qle_bool_iff. pose proof (Qle_bool_true_zero b Hb Eb) as Hz.
      apply Rle_Qle. rewrite Q2R_mult, Hz, RMicromega.Q2R_0. lra.
    + apply Qle_bool_false_pos in Ea, Eb.
      destruct (Qle_bool (a * b) 0) eqn:E; [|reflexivity].
      apply Qle_bool_iff, Qle_Rle in E.
      rewrite Q2R_mult, RMicromega.Q2R_0 in E. nra.
Qed.

Lemma fadd_lnq (a b : Q) :
  Qle_bool 0 a = true -> Qle_bool 0 b = true ->
  fadd (lnq a) (lnq b) = lnq (a * b).
Proof.
  intros Ha Hb. unfold lnq at 3. rewrite Qle_bool_mult_zero by assumption.
  unfold lnq.
  destruct (Qle_bool a 0) eqn:Ea, (Qle_bool b 0) eqn:Eb; cbn [orb fadd];
    try reflexivity.
  apply Qle_bool_false_pos in Ea, Eb.
  f_equal. rewrite Q2R_mult. symmetry. now apply ln_mult.
Qed.

Lemma Qle_bool_plus_zero (a b : Q) :
  Qle_bool 0 a = true -> Qle_bool 0 b = true ->
  Qle_bool (a + b) 0 = Qle_bool a 0 && Qle_bool b 0.
Proof.
  intros Ha Hb.
  destruct (Qle_bool a 0) eqn:Ea; cbn [andb].
  - pose proof (Qle_bool_true_zero a Ha Ea) as Hz.
    destruct (Qle_bool b 0) eqn:Eb.
    + pose proof (Qle_bool_true_zero b Hb Eb) as Hz'.
      apply Qle_bool_iff, Rle_Qle.
      rewrite Q2R_plus, Hz, Hz', RMicromega.Q2R_0. lra.
    + apply Qle_bool_false_pos in Eb.
      destruct (Qle_bool (a + b) 0) eqn:E; [|reflexivity].
      apply Qle_bool_iff, Qle_Rle in E.
      rewrite Q2R_plus, RMicromega.Q2R_0 in E. lra.
  - apply Qle_bool_false_pos in Ea.
    apply Qle_bool_iff, Qle_Rle in Hb. rewrite RMicromega.Q2R_0 in Hb.
    destruct (Qle_bool (a + b) 0) eqn:E; [|reflexivity].
    apply Qle_bool_iff, Qle_Rle in E.
    rewrite Q2R_plus, RMicromega.Q2R_0 in E. lra.
Qed.

Lemma logaddexp_lnq (a b : Q) :
  Qle_bool 0 a = true -> Qle_bool 0 b = true ->
  logaddexp (lnq a) (lnq b) = lnq (a + b).
Proof.
  intros Ha Hb. unfold lnq at 3. rewrite Qle_bool_plus_zero by assumption.
  unfold lnq.
  destruct (Qle_bool a 0) eqn:Ea, (Qle_bool b 0) eqn:Eb;
    cbn [andb logaddexp]; try reflexivity.
  - rewrite Q2R_plus, (Qle_bool_true_zero a Ha Ea). do 2 f_equal. lra.
  - rewrite Q2R_plus, (Qle_bool_true_zero b Hb Eb). do 2 f_equal. lra.
  - apply Qle_bool_false_pos in Ea, Eb.
    rewrite !exp_ln by assumption. now rewrite Q2R_plus.
Qed.

Lemma fltb_lnq (a b : Q) :
  Qle_bool 0 a = true -> Qle_bool 0 b = true ->
  fltb (lnq a) (lnq b) = negb (Qle_bool b a).
Proof.
  intros Ha Hb. unfold lnq.
  destruct (Qle_bool a 0) eqn:Ea, (Qle_bool b 0) eqn:Eb; cbn [fltb].
  - pose proof (Qle_bool_true_zero a Ha Ea). pose proof (Qle_bool_true_zero b Hb Eb).
    symmetry. apply negb_false_iff. apply Qle_bool_iff, Rle_Qle. lra.
  - pose proof (Qle_bool_true_zero a Ha Ea). apply Qle_bool_false_pos in Eb.
    symmetry. apply negb_true_iff.
    destruct (Qle_bool b a) eqn:E; [|reflexivity].
    apply Qle_bool_iff, Qle_Rle in E. lra.
  - pose proof (Qle_bool_true_zero b Hb Eb). apply Qle_bool_false_pos in Ea.
    symmetry. apply negb_false_iff. apply Qle_bool_iff, Rle_Qle. lra.
  - apply Qle_bool_false_pos in Ea, Eb.
    destruct (Qle_bool b a) eqn:E; cbn [negb].
    + apply Qle_bool_iff, Qle_Rle in E. apply Rltb_false.
      destruct E as [E|E]; [left; now apply ln_increasing | right; now rewrite E].
    + apply Rltb_true. apply ln_increasing; [assumption|].
      destruct (Rlt_le_dec (Q2R a) (Q2R b)) as [Hlt|Hle]; [assumption|].
      apply Rle_Qle, Qle_bool_iff in Hle. congruence.
Qed.

(** ** The time-step without a language model *)

Lemma mapM_nth {A B : Type} (f : A -> except B) (l : list A) (l' : list B)
    (i : nat) (d : B) :
  mapM f l = Ok l' -> (i < List.length l)%nat ->
  exists x, index l i = Ok x /\ f x = Ok (nth i l' d).
Proof.
  revert l' i. induction l as [|a l IH]; intros l' i H Hi; [cbn in Hi; lia|].
  cbn [mapM] in H.
  apply bind_Ok_inv in H. destruct H as (y & Hy & H).
  apply bind_Ok_inv in H. destruct H as (ys & Hys & H). injection H as <-.
  destruct i as [|i].
  - exists a. now split.
  - destruct (IH ys i Hys) as (x & Hx & Hfx); [cbn in Hi; lia|].
    exists x. split; assumption.
Qed.

Lemma foldM_pure {A S : Type} (f : S -> A -> except S) (g : S -> A -> S)
    (l : list A) :
  (forall s x, In x l -> f s x = Ok (g s x)) ->
  forall s, foldM f l s = Ok (fold_left g l s).
Proof.
  induction l as [|a l IH]; intros Hf s; [reflexivity|].
  cbn [foldM fold_left]. rewrite Hf by now left. cbn [bind].
  apply IH. intros s' x Hx. apply Hf. now right.
Qed.

Lemma last_In {A : Type} (rest : list A) (first : A) :
  In (List.last rest first) (first :: rest).
Proof.
  destruct rest as [|r rest']; [now left|]. right.
  assert (H : r :: rest' <> []) by discriminate.
  rewrite (app_removelast_last first H) at 2.
  apply in_or_app. right. now left.
Qed.

Section NoModel.
Context (p : params) (blank_idx nchars : nat) (row lrow : list xfloat)
        (s_entropy : xfloat) (last : BeamList).
Hypothesis Hlm : lm p = None.
Hypothesis Hlog : mapM log row = Ok lrow.
Hypothesis Hblank : (blank_idx < List.length row)%nat.
Hypothesis Hchars : (nchars - 1 <= List.length row)%nat.

Lemma copy_beam_logs_eq (labeling : list nat) (curr : BeamList)
    (entr_cache : entropy_cache) :
  Forall (fun c => c < List.length row)%nat labeling ->
  copy_beam p blank_idx row s_entropy last labeling (curr, entr_cache)
    = Ok (copy_beam_logs blank_idx lrow last curr labeling, entr_cache).
Proof.
  intros Hsym. unfold copy_beam, copy_beam_logs. rewrite log_zero. cbn [bind].
  destruct (mapM_nth _ _ _ blank_idx NInf Hlog Hblank) as (b & Hb & Hlb).
  destruct labeling as [|first rest].
  - cbn [bind]. rewrite Hb. cbn [bind]. rewrite Hlb. cbn [bind].
    rewrite !entry_update_update. reflexivity.
  - rewrite Hlm. cbn [truthy andb bind].
    assert (Hlast : (List.last rest first < List.length row)%nat).
    { rewrite Forall_forall in Hsym. apply Hsym. apply last_In. }
    destruct (mapM_nth _ _ _ _ NInf Hlog Hlast) as (x & Hx & Hlx).
    rewrite Hx. cbn [bind]. rewrite Hlx. cbn [bind].
    rewrite Hb. cbn [bind]. rewrite Hlb. cbn [bind].
    rewrite !entry_update_update. reflexivity.
Qed.

Lemma extend_chars_logs_eq (labeling : list nat) (cs : list nat)
    (curr : BeamList) :
  Forall (fun c => c < List.length row)%nat cs ->
  foldM (extend_char last labeling row) cs curr
    = Ok (fold_left
            (fun curr c =>
               entry_update curr (labeling ++ [c]) (fun e =>
                 extended_entry e (labeling ++ [c])
                   (extend_mass last labeling c (nth c lrow NInf))))
            cs curr).
Proof.
  intros Hcs. apply foldM_pure. intros s c Hc.
  rewrite Forall_forall in Hcs.
  destruct (mapM_nth _ _ _ c NInf Hlog (Hcs c Hc)) as (x & Hx & Hlx).
  now apply extend_char_eq with (x := x).
Qed.

Lemma extend_beam_logs_eq (labeling : list nat) (curr : BeamList)
    (entr_cache : entropy_cache) :
  extend_beam p nchars row s_entropy last labeling (curr, entr_cache)
    = Ok (extend_beam_logs nchars lrow last curr labeling, entr_cache).
Proof.
  unfold extend_beam, extend_beam_logs. rewrite Hlm. cbn [truthy andb bind].
  rewrite extend_chars_logs_eq; [reflexivity|].
  apply Forall_forall. intros c Hc. apply in_seq in Hc. lia.
Qed.

Lemma beam_step_logs_eq (labeling : list nat) (curr : BeamList)
    (entr_cache : entropy_cache) :
  Forall (fun c => c < List.length row)%nat labeling ->
  beam_step p blank_idx nchars row s_entropy last (curr, entr_cache) labeling
    = Ok (beam_step_logs blank_idx nchars lrow last curr labeling, entr_cache).
Proof.
  intros Hsym. unfold beam_step, beam_step_logs.
  rewrite copy_beam_logs_eq by assumption. cbn [bind].
  apply extend_beam_logs_eq.
Qed.

(** Without a language model, on a row whose logarithms are defined and
    with the symbols of the beams within the row, the time-step returns,
    and returns [timestep_logs]. *)
Lemma timestep_logs_eq (entr_cache : entropy_cache) :
  Forall (Forall (fun c => c < List.length row)%nat)
         (py_slice (sort_labelings last) None (Some (beam_width p))) ->
  timestep p blank_idx nchars (last, entr_cache) (row, s_entropy)
    = Ok (timestep_logs (beam_width p) blank_idx nchars lrow last, entr_cache).
Proof.
  intros Hsym. unfold timestep, timestep_logs.
  rewrite (foldM_pure _
             (fun st l => (beam_step_logs blank_idx nchars lrow last (fst st) l,
                           snd st))).
  - f_equal.
    generalize (py_slice (sort_labelings last) None (Some (beam_width p))).
    intros ls. generalize (@nil (list nat * BeamEntry)) as curr.
    induction ls as [|l ls IH]; intros curr; [reflexivity|].
    cbn [fold_left fst snd]. apply IH.
  - intros [curr c] l Hl. cbn [fst snd]. apply beam_step_logs_eq.
    rewrite Forall_forall in Hsym. now apply Hsym.
Qed.

End NoModel.

(** ** The order of the regular floats *)

Lemma lin_nonneg (x : xfloat) : 0 <= lin x.
Proof. destruct x; cbn; try lra. left. apply exp_pos. Qed.

Lemma fleb_lin (x y : xfloat) :
  regular x -> regular y -> (fleb x y = true <-> lin x <= lin y).
Proof.
  destruct x as [| | |a], y as [| | |b]; cbn; try contradiction; intros _ _.
  - split; [lra | reflexivity].
  - split; [intros _; left; apply exp_pos | reflexivity].
  - pose proof (exp_pos a). split; [discriminate | lra].
  - unfold Rltb. destruct (Rlt_dec b a) as [Hlt|Hge]; cbn.
    + apply exp_increasing in Hlt. split; [discriminate | lra].
    + split; [|reflexivity]. intros _.
      destruct (Rle_lt_or_eq_dec a b ltac:(lra)) as [Hlt| ->]; [|lra].
      left. now apply exp_increasing.
Qed.

Lemma lin_logaddexp (x y : xfloat) :
  regular x -> regular y -> lin (logaddexp x y) = lin x + lin y.
Proof.
  destruct x as [| | |a], y as [| | |b]; cbn; try contradiction; intros _ _;
    try lra.
  apply exp_ln, exp_sum_pos.
Qed.

Lemma lin_fadd (x y : xfloat) :
  regular x -> regular y -> lin (fadd x y) = lin x * lin y.
Proof.
  destruct x as [| | |a], y as [| | |b]; cbn; try contradiction; intros _ _;
    try lra.
  apply exp_plus.
Qed.

Lemma regular_logaddexp (x y : xfloat) :
  regular x -> regular y -> regular (logaddexp x y).
Proof. destruct x, y; cbn; tauto. Qed.

Lemma regular_fadd (x y : xfloat) :
  regular x -> regular y -> regular (fadd x y).
Proof. destruct x, y; cbn; tauto. Qed.

Lemma fleb_refl (x : xfloat) : regular x -> fleb x x = true.
Proof. intros H. apply fleb_lin; [assumption..|lra]. Qed.

Lemma fleb_trans (x y z : xfloat) :
  regular x -> regular y -> regular z ->
  fleb x y = true -> fleb y z = true -> fleb x z = true.
Proof.
  intros Hx Hy Hz Hxy Hyz.
  apply fleb_lin in Hxy, Hyz; try assumption.
  apply fleb_lin; [assumption..|lra].
Qed.




(** On regular floats [<] is the complement of [>=]. *)
Lemma fltb_false_fleb (x y : xfloat) :
  regular x -> regular y -> fltb x y = false -> fleb y x = true.
Proof. destruct x, y; cbn; try contradiction; intros _ _ H; now rewrite ?H. Qed.

Lemma fltb_true_fleb (x y : xfloat) :
  regular x -> regular y -> fltb x y = true -> fleb x y = true.
Proof.
  destruct x as [| | |a], y as [| | |b]; cbn; try contradiction;
    intros _ _ H; try reflexivity; try discriminate.
  apply Rltb_spec in H. now rewrite Rltb_false by lra.
Qed.

(** ** Triples of probabilities *)

Lemma vadd_comm (v w : vals) : vadd v w = vadd w v.
Proof.
  destruct v as [[t1 n1] b1], w as [[t2 n2] b2]. cbn.
  now rewrite (logaddexp_comm t1), (logaddexp_comm n1), (logaddexp_comm b1).
Qed.

Lemma vadd_assoc (u v w : vals) : vadd u (vadd v w) = vadd (vadd u v) w.
Proof.
  destruct u as [[t1 n1] b1], v as [[t2 n2] b2], w as [[t3 n3] b3]. cbn.
  now rewrite !logaddexp_assoc.
Qed.

Lemma vadd_vzero_r (v : vals) : vadd v vzero = v.
Proof. destruct v as [[t n] b]. cbn. now rewrite !logaddexp_NInf_r. Qed.

Lemma vadd_vzero_l (v : vals) : vadd vzero v = v.
Proof. rewrite vadd_comm. apply vadd_vzero_r. Qed.

Lemma vregular_vadd (v w : vals) :
  vregular v -> vregular w -> vregular (vadd v w).
Proof.
  destruct v as [[t1 n1] b1], w as [[t2 n2] b2]. cbn.
  intros (?&?&?) (?&?&?). repeat split; now apply regular_logaddexp.
Qed.

Lemma vregular_vzero : vregular vzero.
Proof. cbn. tauto. Qed.


Lemma vle_refl (v : vals) : vregular v -> vle v v.
Proof.
  destruct v as [[t n] b]. cbn. intros (?&?&?).
  repeat split; now apply fleb_refl.
Qed.



Lemma vregular_vsum (l : list vals) : Forall vregular l -> vregular (vsum l).
Proof.
  induction 1 as [|v l Hv Hl IH]; [apply vregular_vzero|].
  cbn [vsum fold_right]. now apply vregular_vadd.
Qed.

(** ** What a time-step puts into an entry *)

Lemma entry_get_dict_get (b b' : BeamList) (k k' : list nat) :
  dict_get labeling_eqb b k = dict_get labeling_eqb b' k' ->
  entry_get b k = entry_get b' k'.
Proof. unfold entry_get. now intros ->. Qed.

Lemma copy_beam_logs_get (blank_idx : nat) (lrow : list xfloat)
    (last curr : BeamList) (l k : list nat) :
  entry_vals (entry_get (copy_beam_logs blank_idx lrow last curr l) k)
    = if labeling_eqb k l then
        vadd (entry_vals (entry_get curr k))
             (contrib blank_idx 0 lrow last l l)
      else entry_vals (entry_get curr k).
Proof.
  unfold copy_beam_logs.
  destruct (labeling_eqb k l) eqn:E.
  - apply labeling_eqb_eq in E. subst k. rewrite entry_get_update_same.
    unfold contrib. rewrite labeling_eqb_refl. reflexivity.
  - rewrite entry_get_update_other; [reflexivity|].
    intros ->. now rewrite labeling_eqb_refl in E.
Qed.

Lemma extend_fold_spec (lrow : list xfloat) (last : BeamList)
    (l : list nat) (cs : list nat) :
  NoDup cs ->
  forall curr : BeamList,
  let curr' :=
    fold_left
      (fun curr c =>
         entry_update curr (l ++ [c]) (fun e =>
           extended_entry e (l ++ [c])
             (extend_mass last l c (nth c lrow NInf))))
      cs curr in
  (forall c, In c cs ->
     entry_get curr' (l ++ [c])
       = extended_entry (entry_get curr (l ++ [c])) (l ++ [c])
           (extend_mass last l c (nth c lrow NInf))) /\
  (forall k, (forall c, In c cs -> k <> l ++ [c]) ->
     dict_get labeling_eqb curr' k = dict_get labeling_eqb curr k).
Proof.
  induction 1 as [|c cs Hc Hnd IH]; intros curr; cbn zeta.
  - split; [intros c []|reflexivity].
  - cbn [fold_left]. set (curr1 := entry_update curr _ _).
    destruct (IH curr1) as [Hin Hout]. cbn zeta in Hin, Hout. split.
    + intros c' [<-|Hc'].
      * rewrite (entry_get_dict_get _ curr1 _ (l ++ [c])).
        -- unfold curr1. now rewrite entry_get_update_same.
        -- apply Hout. intros c'' Hc'' Heq. apply app_inj_tail in Heq.
           destruct Heq as [_ ->]. contradiction.
      * rewrite (Hin c' Hc'). unfold curr1.
        rewrite entry_get_update_other; [reflexivity|].
        intros Heq. apply app_inj_tail in Heq. destruct Heq as [_ ->].
        contradiction.
    + intros k Hk. rewrite Hout by (intros c' Hc'; apply Hk; now right).
      unfold curr1. apply dict_get_update_other. apply Hk. now left.
Qed.

(** The test of [contrib] for "[k] is [l] with one more symbol". *)
Lemma is_extension_true (nchars : nat) (k l : list nat) :
  labeling_eqb (removelast k) l && negb (Nat.eqb (List.length k) 0)
    && (List.last k 0%nat <? nchars - 1)%nat = true ->
  k = l ++ [List.last k 0%nat] /\ (List.last k 0%nat < nchars - 1)%nat.
Proof.
  intros H. apply andb_prop in H. destruct H as [H H3].
  apply andb_prop in H. destruct H as [H1 H2].
  apply labeling_eqb_eq in H1. apply Nat.ltb_lt in H3. split; [|exact H3].
  subst l. apply app_removelast_last.
  intros ->. discriminate H2.
Qed.

Lemma is_extension_snoc (nchars : nat) (l : list nat) (c : nat) :
  (c < nchars - 1)%nat ->
  labeling_eqb (removelast (l ++ [c])) l
    && negb (Nat.eqb (List.length (l ++ [c])) 0)
    && (List.last (l ++ [c]) 0%nat <? nchars - 1)%nat = true.
Proof.
  intros Hc. rewrite removelast_last, last_last, labeling_eqb_refl.
  rewrite length_app. cbn [List.length].
  replace (List.length l + 1 =? 0)%nat with false
    by (symmetry; apply Nat.eqb_neq; lia).
  cbn [andb negb]. now apply Nat.ltb_lt.
Qed.

Lemma snoc_neq_self {A : Type} (l : list A) (c : A) : l <> l ++ [c].
Proof.
  intros H. apply (f_equal (@List.length A)) in H.
  rewrite length_app in H. cbn in H. lia.
Qed.

(** The processing of one labeling accumulates its contribution. *)
Lemma beam_step_logs_get (blank_idx nchars : nat) (lrow : list xfloat)
    (last curr : BeamList) (l k : list nat) :
  entry_vals (entry_get (beam_step_logs blank_idx nchars lrow last curr l) k)
    = vadd (entry_vals (entry_get curr k))
           (contrib blank_idx nchars lrow last k l).
Proof.
  unfold beam_step_logs, extend_beam_logs.
  set (curr0 := copy_beam_logs blank_idx lrow last curr l).
  destruct (extend_fold_spec lrow last l (seq 0 (nchars - 1))
              (seq_NoDup _ _) curr0) as [Hin Hout]. cbn zeta in Hin, Hout.
  unfold contrib. destruct (labeling_eqb k l) eqn:Ekl.
  - apply labeling_eqb_eq in Ekl. subst k.
    rewrite (entry_get_dict_get _ curr0 _ l).
    + unfold curr0. rewrite copy_beam_logs_get, labeling_eqb_refl.
      unfold contrib. now rewrite labeling_eqb_refl.
    + apply Hout. intros c _. apply snoc_neq_self.
  - assert (Hkl : k <> l) by (intros ->; now rewrite labeling_eqb_refl in Ekl).
    destruct (labeling_eqb (removelast k) l
              && negb (Nat.eqb (List.length k) 0)
              && (List.last k 0%nat <? nchars - 1)%nat) eqn:Eext.
    + apply is_extension_true in Eext. destruct Eext as [Hk Hc].
      set (c := List.last k 0%nat) in *.
      rewrite Hk at 1. rewrite Hin by (apply in_seq; lia). rewrite <- Hk.
      unfold curr0.
      assert (Hv : entry_vals (entry_get (copy_beam_logs blank_idx lrow last curr l) k)
                 = entry_vals (entry_get curr k)).
      { rewrite copy_beam_logs_get. now rewrite Ekl. }
      unfold entry_vals in *. cbn [extended_entry pr_total pr_non_blank pr_blank].
      injection Hv as -> -> ->. cbn [vadd].
      now rewrite logaddexp_NInf_r.
    + rewrite (entry_get_dict_get _ curr0 _ k).
      * unfold curr0. rewrite copy_beam_logs_get, Ekl.
        now rewrite vadd_vzero_r.
      * apply Hout. intros c Hc ->. apply in_seq in Hc.
        rewrite is_extension_snoc in Eext by lia. discriminate.
Qed.

Lemma fold_beam_step_logs_get (blank_idx nchars : nat) (lrow : list xfloat)
    (last : BeamList) (ls : list (list nat)) (curr : BeamList) (k : list nat) :
  entry_vals
    (entry_get (fold_left (beam_step_logs blank_idx nchars lrow last) ls curr) k)
    = vadd (entry_vals (entry_get curr k))
           (vsum (map (contrib blank_idx nchars lrow last k) ls)).
Proof.
  revert curr. induction ls as [|l ls IH]; intros curr;
    cbn [fold_left map vsum fold_right].
  - now rewrite vadd_vzero_r.
  - rewrite IH, beam_step_logs_get. fold (vsum (map (contrib blank_idx nchars lrow last k) ls)).
    now rewrite vadd_assoc.
Qed.

(** Every entry after a time-step is the sum of the contributions of the
    beams that were kept. *)
Lemma timestep_logs_get (width : Z) (blank_idx nchars : nat)
    (lrow : list xfloat) (last : BeamList) (k : list nat) :
  entry_vals (entry_get (timestep_logs width blank_idx nchars lrow last) k)
    = vsum (map (contrib blank_idx nchars lrow last k)
                (py_slice (sort_labelings last) None (Some width))).
Proof.
  unfold timestep_logs. rewrite fold_beam_step_logs_get.
  apply vadd_vzero_l.
Qed.

(** ** More beams, more mass *)


Lemma regular_nth (lrow : list xfloat) (i : nat) :
  Forall regular lrow -> regular (nth i lrow NInf).
Proof.
  intros H. destruct (Nat.lt_ge_cases i (List.length lrow)) as [Hlt|Hge].
  - rewrite Forall_forall in H. apply H. now apply nth_In.
  - rewrite nth_overflow by assumption. exact I.
Qed.

Section Contributions.
Context (blank_idx nchars : nat) (lrow : list xfloat).
Hypothesis Hlrow : Forall regular lrow.

Lemma contrib_regular (last : BeamList) (k l : list nat) :
  state_regular last -> vregular (contrib blank_idx nchars lrow last k l).
Proof.
  intros Hlast. pose proof (Hlast l) as (Ht & Hn & Hb).
  cbn [entry_vals] in Ht, Hn, Hb.
  unfold contrib. destruct (labeling_eqb k l).
  - assert (Hnb : regular
              match l with
              | [] => NInf
              | first :: rest =>
                  fadd (pr_non_blank (entry_get last l))
                       (nth (List.last rest first) lrow NInf)
              end).
    { destruct l; [exact I|]. apply regular_fadd; [assumption|].
      now apply regular_nth. }
    assert (Hbl : regular (fadd (pr_total (entry_get last l))
                                (nth blank_idx lrow NInf))).
    { apply regular_fadd; [assumption | now apply regular_nth]. }
    cbn. repeat split; try assumption. now apply regular_logaddexp.
  - destruct (_ && _ && _); [|apply vregular_vzero].
    assert (Hm : regular (extend_mass last l (List.last k 0%nat)
                            (nth (List.last k 0%nat) lrow NInf))).
    { unfold extend_mass. apply regular_fadd; [|now apply regular_nth].
      now destruct (ends_with l _). }
    cbn. repeat split; try assumption.
Qed.


(** The state after a time-step is regular. *)
Lemma timestep_logs_regular (width : Z) (last : BeamList) :
  state_regular last ->
  state_regular (timestep_logs width blank_idx nchars lrow last).
Proof.
  intros Hlast k. rewrite timestep_logs_get.
  apply vregular_vsum, Forall_forall. intros v Hv.
  apply in_map_iff in Hv. destruct Hv as (l & <- & _).
  now apply contrib_regular.
Qed.


End Contributions.

(** ** The keys of the beam state *)

Lemma entry_update_In_keys (b : BeamList) (l k : list nat)
    (f : BeamEntry -> BeamEntry) :
  In k (map fst (entry_update b l f)) <-> k = l \/ In k (map fst b).
Proof.
  rewrite entry_update_keys.
  destruct (dict_get labeling_eqb b l) as [e|] eqn:E.
  - split; [tauto|]. intros [->|H]; [|exact H].
    apply dict_get_In in E. apply in_map_iff. now exists (l, e).
  - rewrite in_app_iff. cbn [In]. split; [intros [?|[?|[]]] | intros [?|?]];
      auto.
Qed.

Lemma entry_update_NoDup (b : BeamList) (l : list nat)
    (f : BeamEntry -> BeamEntry) :
  NoDup (map fst b) -> NoDup (map fst (entry_update b l f)).
Proof.
  intros H. rewrite entry_update_keys.
  destruct (dict_get labeling_eqb b l) as [e|] eqn:E; [exact H|].
  apply dict_get_None in E.
  apply NoDup_app; [exact H | repeat constructor; intros [] | ].
  intros x Hx [<-|[]]. contradiction.
Qed.

Lemma entry_update_length (b : BeamList) (l : list nat)
    (f : BeamEntry -> BeamEntry) :
  (List.length (entry_update b l f) <= List.length b + 1)%nat.
Proof.
  rewrite <- (length_map fst (entry_update b l f)), entry_update_keys.
  destruct (dict_get labeling_eqb b l).
  - rewrite length_map. lia.
  - rewrite length_app, length_map. cbn. lia.
Qed.

Lemma entry_update_keys_wf (nsym : nat) (b : BeamList) (l : list nat)
    (f : BeamEntry -> BeamEntry) :
  keys_wf nsym b ->
  labeling (f (entry_get b l)) = l ->
  Forall (fun c => (c < nsym)%nat) l ->
  keys_wf nsym (entry_update b l f).
Proof.
  intros [Hnd Hent] Hlab Hsym. split; [now apply entry_update_NoDup|].
  intros k e Hin. unfold entry_update in Hin. apply In_dict_set in Hin.
  destruct Hin as [[-> ->]|Hin]; [now split | now apply Hent].
Qed.

Section Keys.
Context (blank_idx nchars : nat) (lrow : list xfloat) (last : BeamList).

Lemma extend_beam_logs_In_keys (curr : BeamList) (l k : list nat) :
  In k (map fst (extend_beam_logs nchars lrow last curr l)) <->
  In k (map fst curr) \/ exists c, (c < nchars - 1)%nat /\ k = l ++ [c].
Proof.
  unfold extend_beam_logs.
  assert (H : forall cs curr,
    In k (map fst
      (fold_left
         (fun curr c =>
            entry_update curr (l ++ [c]) (fun e =>
              extended_entry e (l ++ [c])
                (extend_mass last l c (nth c lrow NInf)))) cs curr)) <->
    In k (map fst curr) \/ exists c, In c cs /\ k = l ++ [c]).
  { clear curr. induction cs as [|c cs IH]; intros curr; cbn [fold_left].
    - split; [tauto|]. intros [?|(c & [] & _)]. assumption.
    - rewrite IH, entry_update_In_keys. split.
      + intros [[->|?]|(c' & Hc' & ->)].
        * right. exists c. split; [now left | reflexivity].
        * now left.
        * right. exists c'. split; [now right | reflexivity].
      + intros [?|(c' & [<-|Hc'] & ->)].
        * left. now right.
        * left. now left.
        * right. now exists c'. }
  rewrite H. split.
  - intros [?|(c & Hc & ->)]; [now left|]. right. exists c.
    apply in_seq in Hc. split; [lia | reflexivity].
  - intros [?|(c & Hc & ->)]; [now left|]. right. exists c.
    split; [apply in_seq; lia | reflexivity].
Qed.

Lemma extend_beam_logs_keys_wf (curr : BeamList) (l : list nat) :
  keys_wf (nchars - 1) curr ->
  Forall (fun c => (c < nchars - 1)%nat) l ->
  keys_wf (nchars - 1) (extend_beam_logs nchars lrow last curr l).
Proof.
  intros Hwf Hl. unfold extend_beam_logs.
  assert (H : forall cs curr,
    Forall (fun c => (c < nchars - 1)%nat) cs ->
    keys_wf (nchars - 1) curr ->
    keys_wf (nchars - 1)
      (fold_left
         (fun curr c =>
            entry_update curr (l ++ [c]) (fun e =>
              extended_entry e (l ++ [c])
                (extend_mass last l c (nth c lrow NInf)))) cs curr)).
  { clear curr Hwf. induction cs as [|c cs IH]; intros curr Hcs Hwf;
      cbn [fold_left]; [exact Hwf|].
    inversion Hcs as [|? ? Hc Hcs']; subst.
    apply IH; [assumption|].
    apply entry_update_keys_wf; [assumption | reflexivity|].
    apply Forall_app. split; [assumption | now repeat constructor]. }
  apply H; [|assumption].
  apply Forall_forall. intros c Hc. apply in_seq in Hc. lia.
Qed.

Lemma extend_beam_logs_length (curr : BeamList) (l : list nat) :
  (List.length (extend_beam_logs nchars lrow last curr l)
     <= List.length curr + (nchars - 1))%nat.
Proof.
  unfold extend_beam_logs.
  assert (H : forall cs curr,
    (List.length
       (fold_left
          (fun curr c =>
             entry_update curr (l ++ [c]) (fun e =>
               extended_entry e (l ++ [c])
                 (extend_mass last l c (nth c lrow NInf)))) cs curr)
     <= List.length curr + List.length cs)%nat).
  { clear curr. induction cs as [|c cs IH]; intros curr;
      cbn [fold_left List.length]; [lia|].
    etransitivity; [apply IH|].
    pose proof (entry_update_length curr (l ++ [c]) (fun e =>
      extended_entry e (l ++ [c]) (extend_mass last l c (nth c lrow NInf)))).
    lia. }
  specialize (H (seq 0 (nchars - 1)) curr). now rewrite length_seq in H.
Qed.

Lemma beam_step_logs_In_keys (curr : BeamList) (l k : list nat) :
  In k (map fst (beam_step_logs blank_idx nchars lrow last curr l)) <->
  In k (map fst curr) \/ k = l \/
  exists c, (c < nchars - 1)%nat /\ k = l ++ [c].
Proof.
  unfold beam_step_logs. rewrite extend_beam_logs_In_keys.
  unfold copy_beam_logs. rewrite entry_update_In_keys. tauto.
Qed.

Lemma beam_step_logs_keys_wf (curr : BeamList) (l : list nat) :
  keys_wf (nchars - 1) curr ->
  Forall (fun c => (c < nchars - 1)%nat) l ->
  keys_wf (nchars - 1) (beam_step_logs blank_idx nchars lrow last curr l).
Proof.
  intros Hwf Hl. unfold beam_step_logs.
  apply extend_beam_logs_keys_wf; [|assumption].
  unfold copy_beam_logs.
  apply entry_update_keys_wf; [assumption | reflexivity | assumption].
Qed.

Lemma beam_step_logs_length (curr : BeamList) (l : list nat) :
  (1 <= nchars)%nat ->
  (List.length (beam_step_logs blank_idx nchars lrow last curr l)
     <= List.length curr + nchars)%nat.
Proof.
  intros Hn. unfold beam_step_logs.
  etransitivity; [apply extend_beam_logs_length|].
  unfold copy_beam_logs.
  pose proof (entry_update_length curr l (fun e =>
    copied_entry e l
      match l with
      | [] => NInf
      | first :: rest =>
          fadd (pr_non_blank (entry_get last l))
               (nth (List.last rest first) lrow NInf)
      end
      (fadd (pr_total (entry_get last l)) (nth blank_idx lrow NInf)))).
  lia.
Qed.

Lemma fold_beam_step_logs_In_keys (ls : list (list nat)) (curr : BeamList)
    (k : list nat) :
  In k (map fst (fold_left (beam_step_logs blank_idx nchars lrow last) ls curr))
  <->
  In k (map fst curr) \/
  exists l, In l ls /\
    (k = l \/ exists c, (c < nchars - 1)%nat /\ k = l ++ [c]).
Proof.
  revert curr. induction ls as [|l ls IH]; intros curr; cbn [fold_left].
  - split; [tauto|]. intros [?|(l & [] & _)]. assumption.
  - rewrite IH, beam_step_logs_In_keys. split.
    + intros [[?|H]|(l' & Hl' & H)].
      * now left.
      * right. exists l. split; [now left | exact H].
      * right. exists l'. split; [now right | exact H].
    + intros [?|(l' & [<-|Hl'] & H)].
      * left. now left.
      * left. now right.
      * right. now exists l'.
Qed.

Lemma fold_beam_step_logs_keys_wf (ls : list (list nat)) (curr : BeamList) :
  keys_wf (nchars - 1) curr ->
  Forall (Forall (fun c => (c < nchars - 1)%nat)) ls ->
  keys_wf (nchars - 1)
    (fold_left (beam_step_logs blank_idx nchars lrow last) ls curr).
Proof.
  revert curr. induction ls as [|l ls IH]; intros curr Hwf Hls;
    cbn [fold_left]; [exact Hwf|].
  inversion Hls as [|? ? Hl Hls']; subst.
  apply IH; [|assumption]. now apply beam_step_logs_keys_wf.
Qed.

Lemma fold_beam_step_logs_length (ls : list (list nat)) (curr : BeamList) :
  (1 <= nchars)%nat ->
  (List.length (fold_left (beam_step_logs blank_idx nchars lrow last) ls curr)
     <= List.length curr + List.length ls * nchars)%nat.
Proof.
  intros Hn. revert curr. induction ls as [|l ls IH]; intros curr;
    cbn [fold_left List.length]; [lia|].
  etransitivity; [apply IH|].
  pose proof (beam_step_logs_length curr l Hn). lia.
Qed.

End Keys.

(** ** The beams that are kept *)

Lemma insert_desc_perm (x : BeamEntry) (l : list BeamEntry) :
  Permutation (insert_desc x l) (x :: l).
Proof.
  induction l as [|y l IH]; cbn [insert_desc]; [reflexivity|].
  destruct (fltb (pr_total x) (pr_total y)); [|reflexivity].
  rewrite IH. apply perm_swap.
Qed.

Lemma sorted_desc_perm (l : list BeamEntry) : Permutation (sorted_desc l) l.
Proof.
  induction l as [|x l IH]; cbn [sorted_desc fold_right]; [reflexivity|].
  fold (sorted_desc l). rewrite insert_desc_perm. now constructor.
Qed.

(** The first of the sorted entries has the largest [pr_total]. *)
Lemma sorted_desc_head_max (l : list BeamEntry) (h : BeamEntry)
    (t : list BeamEntry) :
  Forall (fun e => regular (pr_total e)) l ->
  sorted_desc l = h :: t ->
  forall e, In e l -> fleb (pr_total e) (pr_total h) = true.
Proof.
  revert h t. induction l as [|x l IH]; intros h t Hreg Hs e He; [destruct He|].
  inversion Hreg as [|? ? Hx Hl]; subst.
  cbn [sorted_desc fold_right] in Hs. fold (sorted_desc l) in Hs.
  destruct (sorted_desc l) as [|h' t'] eqn:Hsl.
  - pose proof (sorted_desc_perm l) as Hp. rewrite Hsl in Hp.
    apply Permutation_nil in Hp. subst l.
    cbn in Hs. injection Hs as <- <-. destruct He as [<-|[]].
    now apply fleb_refl.
  - assert (Hh' : regular (pr_total h')).
    { rewrite Forall_forall in Hl. apply Hl.
      apply (Permutation_in _ (sorted_desc_perm l)). rewrite Hsl. now left. }
    cbn [insert_desc] in Hs.
    destruct (fltb (pr_total x) (pr_total h')) eqn:Elt.
    + injection Hs as <- <-. destruct He as [<-|He].
      * now apply fltb_true_fleb.
      * now apply (IH h' t').
    + injection Hs as <- <-. destruct He as [<-|He].
      * now apply fleb_refl.
      * apply (fleb_trans _ (pr_total h')); try assumption.
        -- rewrite Forall_forall in Hl. now apply Hl.
        -- now apply (IH h' t').
        -- now apply fltb_false_fleb.
Qed.

Lemma sort_labelings_perm (nsym : nat) (s : BeamList) :
  keys_wf nsym s -> Permutation (sort_labelings s) (map fst s).
Proof.
  intros [_ Hent]. unfold sort_labelings.
  rewrite (sorted_desc_perm (map snd s)). rewrite map_map.
  assert (H : map (fun x => labeling (snd x)) s = map fst s).
  { apply map_ext_in. intros [k e] Hin. cbn. now apply Hent. }
  now rewrite H.
Qed.

Lemma py_slice_firstn_skipn {A : Type} (l : list A) (start stop : option Z) :
  exists n m : nat, py_slice l start stop = firstn m (skipn n l).
Proof. unfold py_slice. eauto. Qed.

Lemma firstn_incl {A : Type} (n : nat) (l : list A) : incl (firstn n l) l.
Proof.
  intros x Hx. rewrite <- (firstn_skipn n l). apply in_or_app. now left.
Qed.

Lemma skipn_incl {A : Type} (n : nat) (l : list A) : incl (skipn n l) l.
Proof.
  intros x Hx. rewrite <- (firstn_skipn n l). apply in_or_app. now right.
Qed.

Lemma py_slice_incl {A : Type} (l : list A) (start stop : option Z) :
  incl (py_slice l start stop) l.
Proof.
  destruct (py_slice_firstn_skipn l start stop) as (n & m & ->).
  intros x Hx. apply (skipn_incl n), (firstn_incl m). exact Hx.
Qed.

Lemma py_slice_NoDup {A : Type} (l : list A) (start stop : option Z) :
  NoDup l -> NoDup (py_slice l start stop).
Proof.
  intros H. destruct (py_slice_firstn_skipn l start stop) as (n & m & ->).
  assert (H1 : NoDup (skipn n l)).
  { rewrite <- (firstn_skipn n l) in H. now apply NoDup_app_remove_l in H. }
  rewrite <- (firstn_skipn m (skipn n l)) in H1.
  now apply NoDup_app_remove_r in H1.
Qed.

Lemma py_slice_length {A : Type} (l : list A) (start stop : option Z) :
  (List.length (py_slice l start stop) <= List.length l)%nat.
Proof.
  destruct (py_slice_firstn_skipn l start stop) as (n & m & ->).
  rewrite length_firstn, length_skipn. lia.
Qed.

(** A beam width that is not below the number of beams keeps them all. *)
Lemma py_slice_all {A : Type} (l : list A) (k : Z) :
  (Z.of_nat (List.length l) <= k)%Z -> py_slice l None (Some k) = l.
Proof.
  intros H. rewrite py_slice_prefix by lia. apply firstn_all2. lia.
Qed.

(** A positive beam width keeps a beam when there is one. *)
Lemma py_slice_nonempty {A : Type} (l : list A) (k : Z) :
  (1 <= k)%Z -> l <> [] -> py_slice l None (Some k) <> [].
Proof.
  intros Hk Hl. rewrite py_slice_prefix by lia.
  destruct l as [|x l]; [congruence|].
  destruct (Z.to_nat k) as [|n] eqn:E; [lia|]. discriminate.
Qed.

Lemma In_dict_get {V : Type} (d : list (list nat * V)) (k : list nat) (v : V) :
  NoDup (map fst d) -> In (k, v) d -> dict_get labeling_eqb d k = Some v.
Proof.
  induction d as [|[k0 v0] d IH]; intros Hnd Hin; [destruct Hin|].
  cbn [map fst] in Hnd. inversion Hnd as [|? ? Hk0 Hnd']; subst.
  cbn [dict_get]. destruct Hin as [[= -> ->]|Hin].
  - now rewrite labeling_eqb_refl.
  - rewrite labeling_eqb_neq; [now apply IH|].
    intros ->. apply Hk0. apply in_map_iff. now exists (k0, v).
Qed.

Lemma In_entry_get (nsym : nat) (s : BeamList) (k : list nat) (e : BeamEntry) :
  keys_wf nsym s -> In (k, e) s -> entry_get s k = e.
Proof.
  intros [Hnd _] Hin. unfold entry_get. now rewrite (In_dict_get s k e).
Qed.

Lemma In_keys_entry (s : BeamList) (k : list nat) :
  In k (map fst s) -> exists e, In (k, e) s.
Proof.
  intros H. apply in_map_iff in H. destruct H as ([k' e] & Hk & Hin).
  cbn in Hk. subst k'. now exists e.
Qed.

(** ** Two beam widths, time-step by time-step *)

Lemma signal_entropies_total (mat : ndarray) :
  exists ents : list xfloat,
    signal_entropies mat = Ok ents /\ List.length ents = List.length (rows mat).
Proof.
  unfold signal_entropies. induction (rows mat) as [|row rs (ents & IH & Hlen)].
  - now exists [].
  - cbn [mapM].
    destruct (entropy_total (normalise (py_slice row None (Some (-1)%Z))))
      as [h ->].
    cbn [bind]. rewrite IH. exists (h :: ents). split; [reflexivity|].
    cbn [List.length]. now rewrite Hlen.
Qed.


Lemma log_prob_value (x : xfloat) :
  prob_value x -> exists lx, log x = Ok lx /\ regular lx.
Proof.
  intros (a & -> & Ha). destruct (Req_dec_T a 0) as [->|Hne].
  - exists NInf. split; [apply log_zero | exact I].
  - exists (Fin (ln a)). split; [apply log_pos; lra | exact I].
Qed.

Lemma row_logs (row : list xfloat) :
  Forall prob_value row ->
  exists lrow, mapM log row = Ok lrow /\ Forall regular lrow.
Proof.
  induction 1 as [|x row Hx Hrow (lrow & IH & Hreg)].
  - exists []. split; [reflexivity | constructor].
  - destruct (log_prob_value x Hx) as (lx & Hlx & Hrx).
    exists (lx :: lrow). cbn [mapM]. rewrite Hlx. cbn [bind]. rewrite IH.
    split; [reflexivity | now constructor].
Qed.

Section KeptBeams.
Context (nchars : nat) (s : BeamList) (width : Z).
Hypothesis Hok : state_ok nchars s.

Lemma kept_incl :
  incl (py_slice (sort_labelings s) None (Some width)) (map fst s).
Proof.
  intros l Hl. apply py_slice_incl in Hl.
  apply (Permutation_in _ (sort_labelings_perm _ s (proj1 Hok))). exact Hl.
Qed.

Lemma kept_NoDup : NoDup (py_slice (sort_labelings s) None (Some width)).
Proof.
  apply py_slice_NoDup.
  apply (Permutation_NoDup (Permutation_sym (sort_labelings_perm _ s (proj1 Hok)))).
  apply Hok.
Qed.

Lemma kept_symbols :
  Forall (Forall (fun c => (c < nchars - 1)%nat))
         (py_slice (sort_labelings s) None (Some width)).
Proof.
  apply Forall_forall. intros l Hl. apply kept_incl in Hl.
  apply In_keys_entry in Hl. destruct Hl as (e & He).
  destruct Hok as [[_ Hent] _]. now apply (Hent l e).
Qed.

Lemma kept_length :
  (List.length (py_slice (sort_labelings s) None (Some width))
     <= List.length s)%nat.
Proof.
  etransitivity; [apply py_slice_length|].
  rewrite (Permutation_length (sort_labelings_perm _ s (proj1 Hok))).
  now rewrite length_map.
Qed.

End KeptBeams.

Lemma keys_wf_nil (nsym : nat) : keys_wf nsym [].
Proof. split; [constructor | intros k e []]. Qed.

Lemma timestep_logs_ok (width : Z) (blank_idx nchars : nat)
    (lrow : list xfloat) (s : BeamList) :
  Forall regular lrow -> state_ok nchars s ->
  state_ok nchars (timestep_logs width blank_idx nchars lrow s).
Proof.
  intros Hlrow Hok. split.
  - unfold timestep_logs. apply fold_beam_step_logs_keys_wf.
    + apply keys_wf_nil.
    + now apply kept_symbols.
  - apply timestep_logs_regular; [assumption | apply Hok].
Qed.


Section TwoRuns.
Context (p1 p2 : params) (blank_idx nchars : nat).
Hypothesis Hlm1 : lm p1 = None.
Hypothesis Hlm2 : lm p2 = None.
Hypothesis Hwidth1 : (1 <= beam_width p1)%Z.
Hypothesis Hblank : (blank_idx < nchars)%nat.

Lemma timestep_ok (p : params) (row lrow : list xfloat) (s : BeamList)
    (s_entropy : xfloat) (entr_cache : entropy_cache) :
  lm p = None -> state_ok nchars s ->
  List.length row = nchars -> mapM log row = Ok lrow ->
  timestep p blank_idx nchars (s, entr_cache) (row, s_entropy)
    = Ok (timestep_logs (beam_width p) blank_idx nchars lrow s, entr_cache).
Proof.
  intros Hlm Hok Hlen Hlog.
  apply timestep_logs_eq; try assumption; try lia.
  eapply Forall_impl; [|apply (kept_symbols nchars s (beam_width p) Hok)].
  intros l Hl. eapply Forall_impl; [|exact Hl]. cbn. intros c Hc. lia.
Qed.


End TwoRuns.

Lemma initial_related (nchars : nat) :
  runs_related nchars 0 [([], mkBeamEntry (Fin 0) NInf (Fin 0) [])]
                        [([], mkBeamEntry (Fin 0) NInf (Fin 0) [])].
Proof.
  assert (Hok : state_ok nchars [([], mkBeamEntry (Fin 0) NInf (Fin 0) [])]).
  { split.
    - split; [repeat constructor; intros []|].
      intros k e [[= <- <-]|[]]. split; [reflexivity | constructor].
    - intros k. unfold entry_get. cbn [dict_get].
      destruct (labeling_eqb k []); cbn; tauto. }
  split; [exact Hok|]. split; [exact Hok|].
  split; [|split; [|split]].
  - intros k. apply vle_refl. apply Hok.
  - apply incl_refl.
  - cbn. lia.
  - discriminate.
Qed.



(* ================================================================== *)
(** * Part III: runs on concrete inputs *)
(* ================================================================== *)

(** ** Evaluation on rational probabilities *)

Lemma fadd_lnq_eval (a b q : Q) :
  Qle_bool 0 a = true -> Qle_bool 0 b = true -> Qeq_bool (a * b) q = true ->
  fadd (lnq a) (lnq b) = lnq q.
Proof.
  intros Ha Hb Hq. rewrite fadd_lnq by assumption.
  apply lnq_equiv. now apply Qeq_bool_iff.
Qed.

Lemma logaddexp_lnq_eval (a b q : Q) :
  Qle_bool 0 a = true -> Qle_bool 0 b = true -> Qeq_bool (a + b) q = true ->
  logaddexp (lnq a) (lnq b) = lnq q.
Proof.
  intros Ha Hb Hq. rewrite logaddexp_lnq by assumption.
  apply lnq_equiv. now apply Qeq_bool_iff.
Qed.

Lemma fltb_lnq_eval (a b : Q) (r : bool) :
  Qle_bool 0 a = true -> Qle_bool 0 b = true -> negb (Qle_bool b a) = r ->
  fltb (lnq a) (lnq b) = r.
Proof. intros Ha Hb <-. now apply fltb_lnq. Qed.

Lemma ex_state0_eq : [([], mkBeamEntry (Fin 0) NInf (Fin 0) [])] = ex_state0.
Proof. unfold ex_state0. now rewrite lnq_one. Qed.

(** The operations on floats are evaluated on the rational numbers under
    [lnq], by the lemmas above; everything else is computed. *)
Ltac lnq_arith_step :=
  match goal with
  | |- context [fadd NInf ?y] => change (fadd NInf y) with (fadd (lnq 0) y)
  | |- context [fadd ?x NInf] => change (fadd x NInf) with (fadd x (lnq 0))
  | |- context [logaddexp NInf ?y] =>
      change (logaddexp NInf y) with (logaddexp (lnq 0) y)
  | |- context [logaddexp ?x NInf] =>
      change (logaddexp x NInf) with (logaddexp x (lnq 0))
  | |- context [fltb NInf ?y] => change (fltb NInf y) with (fltb (lnq 0) y)
  | |- context [fltb ?x NInf] => change (fltb x NInf) with (fltb x (lnq 0))
  | |- context [fadd (lnq ?a) (lnq ?b)] =>
      let q := eval vm_compute in (Qred (a * b)) in
      rewrite (fadd_lnq_eval a b q) by (vm_compute; reflexivity)
  | |- context [logaddexp (lnq ?a) (lnq ?b)] =>
      let q := eval vm_compute in (Qred (a + b)) in
      rewrite (logaddexp_lnq_eval a b q) by (vm_compute; reflexivity)
  | |- context [fltb (lnq ?a) (lnq ?b)] =>
      let r := eval vm_compute in (negb (Qle_bool b a)) in
      rewrite (fltb_lnq_eval a b r) by (vm_compute; reflexivity)
  end.

Ltac lnq_eval :=
  repeat (progress (cbv -[fadd logaddexp fltb lnq log Q2F];
                    repeat lnq_arith_step)).

(** ** The logarithms of the rows and the order of the beams *)

Lemma ex_logs1 : mapM log ex_row1 = Ok ex_lrow1.
Proof.
  unfold ex_row1. cbn [mapM]. rewrite !log_Q2F by reflexivity. reflexivity.
Qed.

Lemma ex_logs2 : mapM log ex_row2 = Ok ex_lrow2.
Proof.
  unfold ex_row2. cbn [mapM]. rewrite !log_Q2F by reflexivity. reflexivity.
Qed.


Lemma ex_sort0 : sort_labelings ex_state0 = [[]].
Proof. reflexivity. Qed.




(** ** The time-steps *)

Ltac ex_timestep width lrow Hlogs Hsort :=
  match goal with
  | |- timestep _ _ _ (?last, _) (?row, ?e) = _ =>
      rewrite (timestep_logs_eq (ex_params width) 2 3 row lrow e last
                 eq_refl Hlogs);
      [ do 2 f_equal; unfold timestep_logs; rewrite Hsort; lnq_eval;
        reflexivity
      | cbn; lia
      | cbn; lia
      | cbn [beam_width ex_params]; rewrite Hsort; cbn; repeat constructor ]
  end.

Lemma ex_timestep1_width2 (e : xfloat) (c : entropy_cache) :
  timestep (ex_params 2) 2 3 (ex_state0, c) (ex_row1, e) = Ok (ex_state1, c).
Proof. ex_timestep 2%Z ex_lrow1 ex_logs1 ex_sort0. Qed.









(** ** Two small runs *)

Lemma scen1_logs : mapM log scen1_row = Ok scen1_lrow.
Proof.
  unfold scen1_row. cbn [mapM]. rewrite !log_Q2F by reflexivity. reflexivity.
Qed.

Lemma scen1_timestep1 (e : xfloat) (c : entropy_cache) :
  timestep (ex_params 10) 2 3 (ex_state0, c) (scen1_row, e)
    = Ok (scen1_state1, c).
Proof. ex_timestep 10%Z scen1_lrow scen1_logs ex_sort0. Qed.

(** On the single row (0.6, 0.3, 0.1) the decoded string is "A", with
    total probability 0.6; the empty labeling has 0.1. *)
Example beam_search_one_row :
  beam_search scen1_mat "AB" (ex_params 10) [] = Ok "A"%string /\
  best_pr_total scen1_mat "AB" (ex_params 10) [] = Ok (lnq (3 # 5)).
Proof.
  assert (Hloop : beam_search_loop scen1_mat "AB" (ex_params 10) []
                    = Ok (scen1_state1, [])).
  { unfold beam_search_loop. rewrite initial_beam_eq, ex_state0_eq. cbn [bind].
    destruct (signal_entropies_total scen1_mat) as (ents & -> & Hlen).
    destruct ents as [|e1 [|e2 ents]]; try discriminate Hlen.
    cbn [bind scen1_mat rows chars combine foldM String.length].
    now rewrite scen1_timestep1. }
  unfold beam_search, best_pr_total. rewrite Hloop. cbn [bind].
  unfold scen1_state1. split; lnq_eval; reflexivity.
Qed.

Lemma scen2_logs : mapM log scen2_row = Ok scen2_lrow.
Proof.
  unfold scen2_row. cbn [mapM]. rewrite !log_Q2F by reflexivity. reflexivity.
Qed.

Lemma scen2_sort1 : sort_labelings scen2_state1 = [[1]; []; [0]]%nat.
Proof. lnq_eval. reflexivity. Qed.

Lemma scen2_timestep1 (e : xfloat) (c : entropy_cache) :
  timestep (ex_params 10) 2 3 (ex_state0, c) (scen2_row, e)
    = Ok (scen2_state1, c).
Proof. ex_timestep 10%Z scen2_lrow scen2_logs ex_sort0. Qed.

Lemma scen2_timestep2 (e : xfloat) (c : entropy_cache) :
  timestep (ex_params 10) 2 3 (scen2_state1, c) (scen2_row, e)
    = Ok (scen2_state2, c).
Proof. ex_timestep 10%Z scen2_lrow scen2_logs scen2_sort1. Qed.

(** On the row (0.1, 0.8, 0.1) twice the decoded string is "B", not "BB":
    the repeated symbol is collapsed, and "BB" has total probability 0
    because no blank separates the two. *)
Example beam_search_repeated_symbol :
  beam_search scen2_mat "AB" (ex_params 10) [] = Ok "B"%string /\
  best_pr_total scen2_mat "AB" (ex_params 10) [] = Ok (lnq (4 # 5)) /\
  pr_total (entry_get scen2_state2 [1; 1]%nat) = lnq 0.
Proof.
  assert (Hloop : beam_search_loop scen2_mat "AB" (ex_params 10) []
                    = Ok (scen2_state2, [])).
  { unfold beam_search_loop. rewrite initial_beam_eq, ex_state0_eq. cbn [bind].
    destruct (signal_entropies_total scen2_mat) as (ents & -> & Hlen).
    destruct ents as [|e1 [|e2 [|e3 ents]]]; try discriminate Hlen.
    cbn [bind scen2_mat rows chars combine foldM String.length].
    rewrite scen2_timestep1. cbn [bind]. now rewrite scen2_timestep2. }
  unfold beam_search, best_pr_total. rewrite Hloop. cbn [bind].
  unfold scen2_state2. repeat split; lnq_eval; reflexivity.
Qed.

(** ** EXTEND and the invariant on the first time-step *)

Lemma ex_row2_logs (c : nat) :
  (c < 3 - 1)%nat ->
  exists x, index ex_row2 c = Ok x /\ log x = Ok (nth c ex_lrow2 NInf).
Proof.
  intros Hc. apply (mapM_nth log ex_row2 ex_lrow2 c NInf ex_logs2).
  cbn. lia.
Qed.

Lemma extend_beam_contribution_witness :
  extend_dist (ex_params 2) ex_row2 (Fin 0) [1%nat] [] = Ok (ex_row2, []) /\
  (forall c, (c < 3 - 1)%nat ->
     exists x, index ex_row2 c = Ok x /\ log x = Ok (nth c ex_lrow2 NInf)) /\
  exists curr' : BeamList,
    extend_beam (ex_params 2) 3 ex_row2 (Fin 0) ex_state1 [1%nat] ([], [])
      = Ok (curr', []) /\
    (forall c front, (c < 3 - 1)%nat -> [1%nat] = front ++ [c] ->
       let e := entry_get [] ([1%nat] ++ [c]) in
       let e' := entry_get curr' ([1%nat] ++ [c]) in
       let m :=
         fadd (pr_blank (entry_get ex_state1 [1%nat])) (nth c ex_lrow2 NInf) in
       pr_non_blank e' = logaddexp (pr_non_blank e) m /\
       pr_total e' = logaddexp (pr_total e) m /\
       pr_blank e' = pr_blank e) /\
    (forall c, (c < 3 - 1)%nat ->
       (forall front, [1%nat] <> front ++ [c]) ->
       let e := entry_get [] ([1%nat] ++ [c]) in
       let e' := entry_get curr' ([1%nat] ++ [c]) in
       let m :=
         fadd (pr_total (entry_get ex_state1 [1%nat])) (nth c ex_lrow2 NInf) in
       pr_non_blank e' = logaddexp (pr_non_blank e) m /\
       pr_total e' = logaddexp (pr_total e) m /\
       pr_blank e' = pr_blank e) /\
    (forall l, (forall c, (c < 3 - 1)%nat -> l <> [1%nat] ++ [c]) ->
       dict_get labeling_eqb curr' l = dict_get labeling_eqb [] l).
Proof.
  assert (H1 : extend_dist (ex_params 2) ex_row2 (Fin 0) [1%nat] []
                 = Ok (ex_row2, [])) by reflexivity.
  split; [exact H1|]. split; [exact ex_row2_logs|].
  exact (extend_beam_contribution (ex_params 2) 3 ex_row2 (Fin 0) ex_state1
           [1%nat] [] [] ex_row2 [] (fun c => nth c ex_lrow2 NInf) H1
           ex_row2_logs).
Defined.

Lemma ex_one_timestep :
  foldM (timestep (ex_params 2) 2 3) [(ex_row1, Fin 0)]
        ([([], mkBeamEntry (Fin 0) NInf (Fin 0) [])], [])
    = Ok (ex_state1, []).
Proof.
  cbn [foldM]. rewrite ex_state0_eq, ex_timestep1_width2. reflexivity.
Qed.

Lemma beam_invariant_witness :
  initial_beam = Ok [([], mkBeamEntry (Fin 0) NInf (Fin 0) [])] /\
  foldM (timestep (ex_params 2) 2 3) [(ex_row1, Fin 0)]
        ([([], mkBeamEntry (Fin 0) NInf (Fin 0) [])], [])
    = Ok (ex_state1, []) /\
  forall (l : list nat) (e : BeamEntry),
    In (l, e) ex_state1 -> pr_total e = logaddexp (pr_blank e) (pr_non_blank e).
Proof.
  split; [exact initial_beam_eq|]. split; [exact ex_one_timestep|].
  exact (beam_invariant (ex_params 2) 2 3 [(ex_row1, Fin 0)] []
           [([], mkBeamEntry (Fin 0) NInf (Fin 0) [])] ex_state1 []
           initial_beam_eq ex_one_timestep).
Defined.

(** ** A context that the model lacks *)



(** ** A beam width that keeps every beam *)

Lemma prob_value_Q2F (q : Q) : Qle_bool 0 q = true -> prob_value (Q2F q).
Proof.
  intros H. exists (Q2R q). split; [reflexivity|].
  apply Qle_bool_iff, Qle_Rle in H. now rewrite RMicromega.Q2R_0 in H.
Qed.

Lemma ex_mat_wf : mat_wf ex_mat "AB".
Proof.
  split; [reflexivity|].
  repeat constructor; now apply prob_value_Q2F.
Qed.


(* ================================================================== *)
(** * Part IV: further properties of the program *)
(* ================================================================== *)

(** ** [normalise] *)

Lemma Rsum_scale (l : list R) (s : R) :
  Rsum (map (fun a => a / s) l) = Rsum l / s.
Proof.
  induction l as [|a l IH]; cbn [map Rsum fold_right].
  - unfold Rdiv. lra.
  - unfold Rsum in IH. rewrite IH. unfold Rdiv. lra.
Qed.

Lemma normalise_Fin_nonzero (l : list R) :
  Rsum l <> 0 ->
  normalise (map Fin l) = map Fin (map (fun a => a / Rsum l) l).
Proof.
  intros Hs. unfold normalise. rewrite fsum_Fin. cbn [feqb].
  rewrite Reqb_false by assumption. rewrite !map_map.
  apply map_ext. intros a. cbn [fdiv]. now rewrite Reqb_false.
Qed.

Lemma Rsum_nonneg (l : list R) : Forall (fun a => 0 <= a) l -> 0 <= Rsum l.
Proof.
  induction 1 as [|a l Ha Hl IH]; cbn [Rsum fold_right]; [lra|].
  unfold Rsum in IH. lra.
Qed.

Lemma Rsum_ge_entry (l : list R) (a : R) :
  Forall (fun a => 0 <= a) l -> In a l -> a <= Rsum l.
Proof.
  induction 1 as [|b l Hb Hl IH]; intros Hin; [destruct Hin|].
  cbn [Rsum fold_right]. pose proof (Rsum_nonneg l Hl) as Hs. unfold Rsum in *.
  destruct Hin as [->|Hin]; [lra|]. specialize (IH Hin). lra.
Qed.

(** X1.  In real arithmetic, [normalise] divides a vector of finite
    numbers whose sum is not zero by that sum: the result has the same
    length and sums to 1, and when no entry is negative every entry of the
    result lies between 0 and 1.  (In doubles the sum of the result is 1
    up to rounding only, and the division can underflow.) *)
Theorem normalise_distribution (l : list R) :
  Rsum l <> 0 ->
  exists d : list R,
    normalise (map Fin l) = map Fin d /\
    List.length d = List.length l /\
    Rsum d = 1 /\
    (Forall (fun a => 0 <= a) l -> Forall (fun a => 0 <= a <= 1) d).
Proof.
  intros Hs. exists (map (fun a => a / Rsum l) l).
  split; [now apply normalise_Fin_nonzero|].
  split; [now rewrite length_map|].
  split; [rewrite Rsum_scale; now field|].
  intros Hpos. pose proof (Rsum_nonneg l Hpos) as Hge.
  assert (Hlt : 0 < Rsum l) by lra.
  apply Forall_forall. intros x Hx. apply in_map_iff in Hx.
  destruct Hx as (a & <- & Ha).
  pose proof (Rsum_ge_entry l a Hpos Ha) as Hle.
  rewrite Forall_forall in Hpos. specialize (Hpos a Ha).
  split.
  - apply Rmult_le_pos; [assumption|]. left. now apply Rinv_0_lt_compat.
  - apply (Rmult_le_reg_r (Rsum l)); [assumption|].
    unfold Rdiv. rewrite Rmult_assoc, Rinv_l by assumption. lra.
Qed.

Lemma normalise_distribution_witness :
  Rsum [3; 1] <> 0 /\
  exists d : list R,
    normalise (map Fin [3; 1]) = map Fin d /\
    List.length d = List.length [3; 1] /\
    Rsum d = 1 /\
    (Forall (fun a => 0 <= a) [3; 1] -> Forall (fun a => 0 <= a <= 1) d).
Proof.
  assert (H : Rsum [3; 1] <> 0) by (cbn; lra).
  split; [exact H | exact (normalise_distribution [3; 1] H)].
Defined.

(** X2.  [normalise] is idempotent on vectors of finite numbers: a vector
    whose sum is zero is returned as it is, and a normalised vector sums
    to 1, so that normalising it again divides by 1. *)
Theorem normalise_idempotent (l : list R) :
  normalise (normalise (map Fin l)) = normalise (map Fin l).
Proof.
  destruct (Req_dec_T (Rsum l) 0) as [Hz|Hnz].
  - now rewrite !normalise_zero_sum.
  - rewrite normalise_Fin_nonzero by assumption.
    assert (Hone : Rsum (map (fun a => a / Rsum l) l) = 1)
      by (rewrite Rsum_scale; now field).
    rewrite normalise_Fin_nonzero by lra. rewrite Hone.
    f_equal. rewrite map_map. apply map_ext. intros a. field. assumption.
Qed.

(** ** [entropy] *)

(** Values that are finite or +inf: what the terms of the entropy are. *)
Lemma entropy_terms_shape (d : list xfloat) :
  exists ts,
    mapM (fun p => lp <- math_log p ;; Ok (fmul p lp))
         (filter (fun p => fgtb p (Fin 0)) d) = Ok ts /\
    Forall (fun t => t = PInf \/ exists a, t = Fin a) ts.
Proof.
  induction d as [|x d (ts & IH & Hts)]; [exists []; now split|].
  cbn [filter]. destruct (fgtb x (Fin 0)) eqn:Hx; [|now exists ts].
  cbn [mapM]. rewrite IH.
  destruct x as [| | |a]; cbn in Hx; try discriminate.
  - exists (PInf :: ts). split; [reflexivity|]. constructor; [now left | exact Hts].
  - cbn [math_log]. rewrite Hx. exists (Fin (a * ln a) :: ts).
    split; [reflexivity|]. constructor; [right; now exists (a * ln a) | exact Hts].
Qed.

Lemma fold_fadd_shape (ts : list xfloat) (acc : xfloat) :
  Forall (fun t => t = PInf \/ exists a, t = Fin a) ts ->
  (acc = PInf \/ exists a, acc = Fin a) ->
  fold_left fadd ts acc = PInf \/ exists a, fold_left fadd ts acc = Fin a.
Proof.
  intros Hts. revert acc. induction Hts as [|t ts Ht Hts IH]; intros acc Hacc;
    [exact Hacc|].
  cbn [fold_left]. apply IH.
  destruct Hacc as [->|(a & ->)], Ht as [->|(b & ->)]; cbn; eauto.
Qed.

(** X3.  [entropy] raises on no input and never returns NaN, whatever the
    floats of its argument are (zeros, negative numbers, NaN, infinities):
    its result is a finite number or -inf. *)
Theorem entropy_never_fails (d : list xfloat) :
  exists h : xfloat,
    entropy d = Ok h /\ (h = NInf \/ exists a : R, h = Fin a).
Proof.
  unfold entropy. destruct (entropy_terms_shape d) as (ts & -> & Hts).
  cbn [bind]. eexists. split; [reflexivity|].
  destruct (fold_fadd_shape ts (Fin 0) Hts) as [H|(a & H)];
    [right; now exists 0 | | ]; unfold fsum; rewrite H; cbn; eauto.
Qed.

Lemma gibbs_term (a N : R) :
  0 < a -> 0 < N -> - plogp a <= / N - a + a * ln N.
Proof.
  intros Ha HN. unfold plogp.
  assert (Hpos : 0 < / (N * a)) by (apply Rinv_0_lt_compat; nra).
  pose proof (exp_ineq1_le (ln (/ (N * a)))) as H.
  rewrite exp_ln in H by assumption.
  rewrite ln_Rinv, ln_mult in H by nra.
  assert (Heq : a * / (N * a) = / N) by (field; split; lra).
  nra.
Qed.

Lemma gibbs_sum (l : list R) (N : R) :
  0 < N -> Forall (fun a => 0 <= a) l ->
  - Rsum (map plogp (filter (Rltb 0) l))
    <= INR (List.length l) * / N - Rsum l + Rsum l * ln N.
Proof.
  intros HN. induction 1 as [|a l Ha Hl IH].
  - cbn. lra.
  - cbn [filter List.length]. rewrite S_INR. cbn [Rsum fold_right].
    assert (HinvN : 0 < / N) by now apply Rinv_0_lt_compat.
    unfold Rsum in *. destruct (Rltb 0 a) eqn:E.
    + apply Rltb_spec in E. cbn [map fold_right].
      pose proof (gibbs_term a N E HN). lra.
    + unfold Rltb in E. destruct (Rlt_dec 0 a); [discriminate|].
      replace a with 0 by lra. lra.
Qed.

(** X4.  The entropy of a probability vector (no negative entry, sum 1) of
    n entries is at most log(n): no threshold above log(n) is ever
    exceeded. *)
Theorem entropy_upper_bound (l : list R) :
  Forall (fun a => 0 <= a) l -> Rsum l = 1 ->
  exists h : R,
    entropy (map Fin l) = Ok (Fin h) /\ h <= ln (INR (List.length l)).
Proof.
  intros Hpos Hsum. eexists. split; [apply entropy_Fin|].
  assert (Hn : 0 < INR (List.length l)).
  { destruct l as [|a l]; [cbn in Hsum; lra|]. apply lt_0_INR. cbn. lia. }
  pose proof (gibbs_sum l (INR (List.length l)) Hn Hpos) as H.
  rewrite Hsum in H. rewrite Rinv_r in H by lra. lra.
Qed.

Lemma entropy_upper_bound_witness :
  Forall (fun a => 0 <= a) [/ 2; / 2] /\
  Rsum [/ 2; / 2] = 1 /\
  exists h : R,
    entropy (map Fin [/ 2; / 2]) = Ok (Fin h) /\
    h <= ln (INR (List.length [/ 2; / 2])).
Proof.
  assert (H1 : Forall (fun a => 0 <= a) [/ 2; / 2])
    by (repeat constructor; lra).
  assert (H2 : Rsum [/ 2; / 2] = 1) by (cbn; lra).
  split; [exact H1|]. split; [exact H2|].
  exact (entropy_upper_bound [/ 2; / 2] H1 H2).
Defined.

(** ** [combine_dists] *)

Lemma blend_own_shape (l : list R) (m : R) :
  m <> 0 -> blend (map (fun a => a / m) l) l m = l.
Proof.
  intros Hm. unfold blend.
  induction l as [|a l IH]; [reflexivity|].
  cbn [map combine fst snd]. rewrite IH. f_equal. now field.
Qed.

(** X5.  Blending a signal distribution with its own non-blank shape (its
    non-blank channels, normalised by [normalise]) changes nothing:
    [combine_dists] returns the signal distribution. *)
Theorem combine_dists_own_shape (s : list R) :
  s <> [] -> Rsum (removelast s) <> 0 ->
  combine_dists (normalise (map Fin (removelast s))) (map Fin s)
    = Ok (map Fin s).
Proof.
  intros Hs Hm. rewrite normalise_Fin_nonzero by assumption.
  rewrite combine_dists_nonzero; [|assumption|now rewrite length_map|assumption].
  rewrite blend_own_shape by assumption.
  now rewrite <- (app_removelast_last 0 Hs).
Qed.

Lemma combine_dists_own_shape_witness :
  [/ 4; / 4; / 2] <> [] /\
  Rsum (removelast [/ 4; / 4; / 2]) <> 0 /\
  combine_dists (normalise (map Fin (removelast [/ 4; / 4; / 2])))
                (map Fin [/ 4; / 4; / 2])
    = Ok (map Fin [/ 4; / 4; / 2]).
Proof.
  assert (H1 : [/ 4; / 4; / 2] <> []) by discriminate.
  assert (H2 : Rsum (removelast [/ 4; / 4; / 2]) <> 0) by (cbn; lra).
  split; [exact H1|]. split; [exact H2|].
  exact (combine_dists_own_shape [/ 4; / 4; / 2] H1 H2).
Defined.

Lemma blend_nonneg (r sb : list R) (m : R) :
  0 < m ->
  Forall (fun a => 0 <= a) r -> Forall (fun a => 0 <= a) sb ->
  Forall (fun a => 0 <= a) (blend r sb m).
Proof.
  intros Hm Hr. revert sb. unfold blend.
  induction Hr as [|a r Ha Hr IH]; intros sb Hsb; [constructor|].
  destruct Hsb as [|b sb Hb Hsb]; [constructor|].
  cbn [combine map fst snd]. constructor; [|now apply IH].
  assert (0 <= b / m) by (apply Rmult_le_pos; [assumption|];
                           left; now apply Rinv_0_lt_compat).
  nra.
Qed.

Lemma Forall_removelast {A : Type} (P : A -> Prop) (l : list A) :
  Forall P l -> Forall P (removelast l).
Proof.
  induction 1 as [|a l Ha Hl IH]; [constructor|].
  destruct l as [|b l]; [constructor|]. cbn [removelast] in *.
  now constructor.
Qed.

(** X6.  [combine_dists] takes probability vectors to a probability
    vector: when the model's distribution and the signal distribution have
    no negative entry and sum to 1 each, and some non-blank channel of the
    signal distribution is not zero, every entry of the result lies
    between 0 and 1 and the result sums to 1. *)
Theorem combine_dists_probability_vector (r s : list R) :
  Forall (fun a => 0 <= a) r -> Rsum r = 1 ->
  Forall (fun a => 0 <= a) s -> Rsum s = 1 ->
  List.length r = List.length (removelast s) ->
  0 < Rsum (removelast s) ->
  exists d : list R,
    combine_dists (map Fin r) (map Fin s) = Ok (map Fin d) /\
    Forall (fun a => 0 <= a <= 1) d /\
    Rsum d = 1.
Proof.
  intros Hr Hr1 Hs Hs1 Hlen Hm.
  assert (Hne : s <> []) by (intros ->; cbn in Hs1; lra).
  set (m := Rsum (removelast s)) in *.
  exists (blend r (removelast s) m ++ [last s 0]).
  assert (Hsum : Rsum (blend r (removelast s) m ++ [last s 0]) = 1).
  { rewrite Rsum_app, Rsum_blend by (assumption || lra). fold m.
    rewrite Hr1. pose proof (Rsum_removelast s Hne) as H. fold m in H.
    rewrite Hs1 in H. unfold Rsum. cbn. lra. }
  assert (Hpos : Forall (fun a => 0 <= a)
                   (blend r (removelast s) m ++ [last s 0])).
  { apply Forall_app. split.
    - apply blend_nonneg; [assumption..|]. now apply Forall_removelast.
    - constructor; [|constructor]. rewrite Forall_forall in Hs. apply Hs.
      assert (Hin : In (last s 0) (removelast s ++ [last s 0]))
        by (apply in_or_app; right; now left).
      now rewrite <- app_removelast_last in Hin. }
  split; [apply combine_dists_nonzero; [assumption | assumption | fold m; lra]|].
  split; [|exact Hsum].
  apply Forall_forall. intros a Ha. split.
  - rewrite Forall_forall in Hpos. now apply Hpos.
  - rewrite <- Hsum. now apply Rsum_ge_entry.
Qed.

Lemma combine_dists_probability_vector_witness :
  Forall (fun a => 0 <= a) [1; 0] /\ Rsum [1; 0] = 1 /\
  Forall (fun a => 0 <= a) [/ 4; / 4; / 2] /\ Rsum [/ 4; / 4; / 2] = 1 /\
  List.length [1; 0] = List.length (removelast [/ 4; / 4; / 2]) /\
  0 < Rsum (removelast [/ 4; / 4; / 2]) /\
  exists d : list R,
    combine_dists (map Fin [1; 0]) (map Fin [/ 4; / 4; / 2]) = Ok (map Fin d) /\
    Forall (fun a => 0 <= a <= 1) d /\
    Rsum d = 1.
Proof.
  assert (H1 : Forall (fun a => 0 <= a) [1; 0]) by (repeat constructor; lra).
  assert (H2 : Rsum [1; 0] = 1) by (cbn; lra).
  assert (H3 : Forall (fun a => 0 <= a) [/ 4; / 4; / 2])
    by (repeat constructor; lra).
  assert (H4 : Rsum [/ 4; / 4; / 2] = 1) by (cbn; lra).
  assert (H5 : List.length [1; 0] = List.length (removelast [/ 4; / 4; / 2]))
    by reflexivity.
  assert (H6 : 0 < Rsum (removelast [/ 4; / 4; / 2])) by (cbn; lra).
  repeat (split; [assumption|]).
  exact (combine_dists_probability_vector _ _ H1 H2 H3 H4 H5 H6).
Defined.

Lemma np_add_ValueError (a b : list xfloat) :
  List.length a <> List.length b ->
  List.length a <> 1%nat -> List.length b <> 1%nat ->
  np_add a b = Raise ValueError.
Proof.
  intros Hab Ha Hb. unfold np_add.
  destruct (Nat.eqb_spec (List.length a) (List.length b)); [contradiction|].
  destruct a as [|x [|x' a]], b as [|y [|y' b]]; cbn in *;
    try reflexivity; congruence.
Qed.

Lemma np_add_Ok (a b : list xfloat) :
  List.length a = List.length b \/
  List.length a = 1%nat \/ List.length b = 1%nat ->
  exists c, np_add a b = Ok c /\
            (List.length a = List.length b -> List.length c = List.length a).
Proof.
  intros H. unfold np_add.
  destruct (Nat.eqb_spec (List.length a) (List.length b)) as [E|E].
  - eexists. split; [reflexivity|]. intros _.
    rewrite length_map, length_combine, E. apply Nat.min_id.
  - destruct H as [H|[H|H]]; [contradiction| |].
    + destruct a as [|x [|x' a]]; try discriminate.
      eexists. split; [reflexivity | contradiction].
    + destruct b as [|y [|y' b]]; try discriminate.
      destruct a as [|x [|x' a]]; eexists; (split; [reflexivity | contradiction]).
Qed.

(** X7.  The shapes that [combine_dists] accepts.  With n non-blank
    channels in the signal distribution, a model distribution whose length
    is neither n nor 1 (n itself not being 1) makes [numpy.add] raise
    [ValueError]; otherwise an empty signal distribution raises
    [IndexError] at [s_dist[-1]], and a signal distribution that is not
    empty gives a result, whose last entry is the blank channel and whose
    length is that of the signal distribution when the lengths agree. *)
Theorem combine_dists_shapes (r s : list xfloat) :
  (List.length r <> List.length (removelast s) ->
   List.length r <> 1%nat -> List.length (removelast s) <> 1%nat ->
   combine_dists r s = Raise ValueError) /\
  (List.length r = List.length (removelast s) \/
   List.length r = 1%nat \/ List.length (removelast s) = 1%nat ->
   (s = [] -> combine_dists r s = Raise IndexError) /\
   (s <> [] ->
    exists d, combine_dists r s = Ok d /\
              index_last d = index_last s /\
              (List.length r = List.length (removelast s) ->
               List.length d = List.length s))).
Proof.
  unfold combine_dists. rewrite py_slice_init.
  set (sb := map (fun x => fdiv x (fsum (removelast s))) (removelast s)).
  assert (Hsb : List.length sb = List.length (removelast s))
    by (unfold sb; now rewrite length_map).
  rewrite <- Hsb. split.
  - intros H1 H2 H3. now rewrite np_add_ValueError.
  - intros H. destruct (np_add_Ok r sb H) as (c & -> & Hc). cbn [bind].
    split.
    + intros ->. reflexivity.
    + intros Hs. destruct s as [|x s]; [congruence|].
      set (s' := x :: s) in *.
      assert (Hl : exists y, index_last s' = Ok y) by (eexists; reflexivity).
      destruct Hl as (y & Hl). rewrite Hl. cbn [bind]. eexists. split; [reflexivity|].
      split; [apply index_last_snoc|].
      intros E. rewrite length_app, !length_map, (Hc E), E, Hsb.
      rewrite (app_removelast_last x Hs) at 2. now rewrite length_app.
Qed.

(** ** [apply_rna_model] and the entropy cache *)

(** X8.  What a call of [apply_rna_model] that returns does to the
    caller's cache: afterwards the cache has an entry for the context
    (the entropy of the model's distribution when there was none before),
    no entry that was there has changed, no other context has been added,
    and the same call again returns the same distribution and leaves the
    cache as it is. *)
Theorem apply_rna_model_cache (s_dist : list xfloat) (context : list nat)
    (m : rna_model) (entr_cache : entropy_cache)
    (s_entropy r_thr s_thr : xfloat)
    (d : list xfloat) (cache' : entropy_cache) :
  apply_rna_model s_dist context (Some m) entr_cache s_entropy r_thr s_thr
    = Ok (d, cache') ->
  (exists (r_dist : list xfloat) (e : xfloat),
     dict_get labeling_eqb m context = Some r_dist /\
     dict_get labeling_eqb cache' context = Some e /\
     (dict_get labeling_eqb entr_cache context = None ->
      entropy r_dist = Ok e)) /\
  (forall k e, dict_get labeling_eqb entr_cache k = Some e ->
               dict_get labeling_eqb cache' k = Some e) /\
  (forall k, k <> context ->
             dict_get labeling_eqb cache' k
               = dict_get labeling_eqb entr_cache k) /\
  apply_rna_model s_dist context (Some m) cache' s_entropy r_thr s_thr
    = Ok (d, cache').
Proof.
  intros H. unfold apply_rna_model in H.
  destruct (dict_get labeling_eqb m context) as [r_dist|] eqn:Hm;
    [|discriminate].
  destruct (dict_get labeling_eqb entr_cache context) as [e|] eqn:Hc.
  - cbn [bind] in H.
    assert (Hcache : cache' = entr_cache).
    { destruct (fltb e r_thr && fgtb s_entropy s_thr).
      - apply bind_Ok_inv in H. destruct H as (d0 & _ & H). now injection H.
      - now injection H. }
    subst cache'.
    split; [exists r_dist, e; repeat split; [assumption | discriminate]|].
    split; [now intros|]. split; [now intros|].
    unfold apply_rna_model. rewrite Hm, Hc. exact H.
  - destruct (entropy r_dist) as [e|err] eqn:He; [|discriminate].
    cbn [bind] in H.
    assert (Hcache : cache' = dict_set labeling_eqb entr_cache context e).
    { destruct (fltb e r_thr && fgtb s_entropy s_thr).
      - apply bind_Ok_inv in H. destruct H as (d0 & _ & H). now injection H.
      - now injection H. }
    subst cache'.
    split.
    { exists r_dist, e. split; [reflexivity|].
      split; [apply dict_get_set_same | intros _; exact He]. }
    split.
    { intros k e' Hk. rewrite dict_get_set_other; [assumption|].
      intros ->. congruence. }
    split; [intros k Hk; now apply dict_get_set_other|].
    unfold apply_rna_model. rewrite Hm, dict_get_set_same. exact H.
Qed.

Lemma apply_rna_model_cache_witness :
  apply_rna_model [Fin (/ 4); Fin (/ 4); Fin (/ 2)] []
    (Some [([], [Fin 1; Fin 0])]) [] (Fin 1) (Fin 0) (Fin 0)
    = Ok ([Fin (/ 4); Fin (/ 4); Fin (/ 2)], [([], Fin 0)]) /\
  ((exists (r_dist : list xfloat) (e : xfloat),
      dict_get labeling_eqb [([], [Fin 1; Fin 0])] [] = Some r_dist /\
      dict_get labeling_eqb [([], Fin 0)] [] = Some e /\
      (dict_get labeling_eqb ([] : entropy_cache) [] = None ->
       entropy r_dist = Ok e)) /\
   (forall k e, dict_get labeling_eqb ([] : entropy_cache) k = Some e ->
                dict_get labeling_eqb [([], Fin 0)] k = Some e) /\
   (forall k, k <> [] ->
              dict_get labeling_eqb [([], Fin 0)] k
                = dict_get labeling_eqb ([] : entropy_cache) k) /\
   apply_rna_model [Fin (/ 4); Fin (/ 4); Fin (/ 2)] []
     (Some [([], [Fin 1; Fin 0])]) [([], Fin 0)] (Fin 1) (Fin 0) (Fin 0)
     = Ok ([Fin (/ 4); Fin (/ 4); Fin (/ 2)], [([], Fin 0)])).
Proof.
  assert (H : apply_rna_model [Fin (/ 4); Fin (/ 4); Fin (/ 2)] []
                (Some [([], [Fin 1; Fin 0])]) [] (Fin 1) (Fin 0) (Fin 0)
              = Ok ([Fin (/ 4); Fin (/ 4); Fin (/ 2)], [([], Fin 0)])).
  { unfold apply_rna_model. cbn [dict_get]. rewrite labeling_eqb_refl.
    rewrite entropy_one_zero. cbn [bind fltb dict_set].
    rewrite labeling_eqb_refl || idtac.
    now rewrite Rltb_false by lra. }
  split; [exact H|].
  exact (apply_rna_model_cache _ _ _ _ _ _ _ _ _ H).
Defined.

Lemma cache_coherent_set (m : rna_model) (c : entropy_cache)
    (context : list nat) (r_dist : list xfloat) (e : xfloat) :
  cache_coherent (Some m) c ->
  dict_get labeling_eqb m context = Some r_dist -> entropy r_dist = Ok e ->
  cache_coherent (Some m) (dict_set labeling_eqb c context e).
Proof.
  intros Hc Hm He k e' Hk.
  destruct (list_eq_dec Nat.eq_dec k context) as [->|Hne].
  - rewrite dict_get_set_same in Hk. injection Hk as <-. now exists r_dist.
  - rewrite dict_get_set_other in Hk by assumption. now apply Hc.
Qed.

(** With a coherent cache the call is the one on the entropy of the
    model's distribution, and the cache stays coherent. *)
Lemma apply_rna_model_coherent (s_dist : list xfloat) (context : list nat)
    (m : rna_model) (c : entropy_cache) (s_entropy r_thr s_thr : xfloat)
    (r_dist : list xfloat) (e : xfloat) :
  cache_coherent (Some m) c ->
  dict_get labeling_eqb m context = Some r_dist -> entropy r_dist = Ok e ->
  exists c' : entropy_cache,
    cache_coherent (Some m) c' /\
    apply_rna_model s_dist context (Some m) c s_entropy r_thr s_thr
      = if fltb e r_thr && fgtb s_entropy s_thr
        then d <- combine_dists r_dist s_dist ;; Ok (d, c')
        else Ok (s_dist, c').
Proof.
  intros Hc Hm He. unfold apply_rna_model. rewrite Hm.
  destruct (dict_get labeling_eqb c context) as [e'|] eqn:Hget.
  - exists c. split; [assumption|].
    destruct (Hc context e' Hget) as (r' & Hr' & He').
    assert (e' = e) by congruence. subst e'. reflexivity.
  - exists (dict_set labeling_eqb c context e).
    split; [now apply (cache_coherent_set m c context r_dist)|].
    rewrite He. reflexivity.
Qed.

Lemma apply_rna_model_rel (s_dist : list xfloat) (context : list nat)
    (model : option rna_model) (c1 c2 : entropy_cache)
    (s_entropy r_thr s_thr : xfloat) :
  cache_coherent model c1 -> cache_coherent model c2 ->
  except_rel (fun x y => fst x = fst y /\
                         cache_coherent model (snd x) /\
                         cache_coherent model (snd y))
    (apply_rna_model s_dist context model c1 s_entropy r_thr s_thr)
    (apply_rna_model s_dist context model c2 s_entropy r_thr s_thr).
Proof.
  intros H1 H2. destruct model as [m|]; [|now cbn].
  destruct (dict_get labeling_eqb m context) as [r_dist|] eqn:Hm.
  - destruct (entropy_total r_dist) as (e & He).
    destruct (apply_rna_model_coherent s_dist context m c1 s_entropy r_thr
                s_thr r_dist e H1 Hm He) as (c1' & Hc1 & ->).
    destruct (apply_rna_model_coherent s_dist context m c2 s_entropy r_thr
                s_thr r_dist e H2 Hm He) as (c2' & Hc2 & ->).
    destruct (fltb e r_thr && fgtb s_entropy s_thr); [|now cbn].
    destruct (combine_dists r_dist s_dist); now cbn.
  - rewrite !apply_rna_model_KeyError by assumption. reflexivity.
Qed.

(** X9.  The entropy cache is a speed-up only.  With two caches that are
    both coherent with the model (the empty one is), [apply_rna_model]
    returns the same distribution or raises the same exception, and both
    caches are coherent afterwards. *)
Theorem apply_rna_model_cache_transparent (s_dist : list xfloat)
    (context : list nat) (model : option rna_model) (c1 c2 : entropy_cache)
    (s_entropy r_thr s_thr : xfloat) :
  cache_coherent model c1 -> cache_coherent model c2 ->
  cache_coherent model [] /\
  result_of (apply_rna_model s_dist context model c1 s_entropy r_thr s_thr)
    = result_of (apply_rna_model s_dist context model c2 s_entropy r_thr s_thr) /\
  (forall d c1',
     apply_rna_model s_dist context model c1 s_entropy r_thr s_thr
       = Ok (d, c1') -> cache_coherent model c1').
Proof.
  intros H1 H2.
  split; [destruct model; [intros k e; discriminate | exact I]|].
  pose proof (apply_rna_model_rel s_dist context model c1 c2 s_entropy r_thr
                s_thr H1 H2) as Hrel.
  split.
  - unfold result_of.
    destruct (apply_rna_model _ _ _ c1 _ _ _) as [[d1 c1']|e1],
             (apply_rna_model _ _ _ c2 _ _ _) as [[d2 c2']|e2];
      cbn in Hrel |- *; try contradiction; [|congruence].
    destruct Hrel as [-> _]. reflexivity.
  - intros d c1' E. rewrite E in Hrel.
    destruct (apply_rna_model _ _ _ c2 _ _ _) as [[d2 c2']|e2];
      cbn in Hrel; [tauto | contradiction].
Qed.

Lemma apply_rna_model_cache_transparent_witness :
  cache_coherent (Some [([], [Fin 1; Fin 0])]) [([], Fin 0)] /\
  cache_coherent (Some [([], [Fin 1; Fin 0])]) [] /\
  (cache_coherent (Some [([], [Fin 1; Fin 0])]) [] /\
   result_of (apply_rna_model [Fin (/ 4); Fin (/ 4); Fin (/ 2)] []
                (Some [([], [Fin 1; Fin 0])]) [([], Fin 0)]
                (Fin 1) (Fin 1) (Fin 0))
     = result_of (apply_rna_model [Fin (/ 4); Fin (/ 4); Fin (/ 2)] []
                    (Some [([], [Fin 1; Fin 0])]) []
                    (Fin 1) (Fin 1) (Fin 0)) /\
   (forall d c1',
      apply_rna_model [Fin (/ 4); Fin (/ 4); Fin (/ 2)] []
        (Some [([], [Fin 1; Fin 0])]) [([], Fin 0)] (Fin 1) (Fin 1) (Fin 0)
        = Ok (d, c1') ->
      cache_coherent (Some [([], [Fin 1; Fin 0])]) c1')).
Proof.
  assert (H2 : cache_coherent (Some [([], [Fin 1; Fin 0])]) [])
    by (intros k e; discriminate).
  assert (H1 : cache_coherent (Some [([], [Fin 1; Fin 0])]) [([], Fin 0)]).
  { apply (cache_coherent_set _ [] [] [Fin 1; Fin 0] (Fin 0) H2).
    - cbn [dict_get]. now rewrite labeling_eqb_refl.
    - exact entropy_one_zero. }
  split; [exact H1|]. split; [exact H2|].
  exact (apply_rna_model_cache_transparent _ _ _ _ _ _ _ _ H1 H2).
Defined.

(** ** [get_context] *)

Lemma get_context_skipn (l : list nat) (n : Z) :
  (1 <= n)%Z ->
  get_context l n false = skipn (List.length l - Z.to_nat n) l.
Proof.
  intros Hn. unfold get_context, py_slice, slice_bound.
  destruct (Z.ltb_spec (- n) 0); [|lia].
  replace (Z.to_nat (Z.max 0 (- n + Z.of_nat (List.length l))))
    with (List.length l - Z.to_nat n)%nat by lia.
  apply firstn_all2. rewrite length_skipn. lia.
Qed.

(** X10.  For a context length of at least 1, [get_context] returns the
    last [len_context] symbols of the labeling, and the whole labeling
    when it is shorter than that. *)
Theorem get_context_last_symbols (l : list nat) (n : Z) :
  (1 <= n)%Z ->
  (exists front : list nat, l = front ++ get_context l n false) /\
  List.length (get_context l n false)
    = Nat.min (Z.to_nat n) (List.length l) /\
  ((Z.of_nat (List.length l) <= n)%Z -> get_context l n false = l).
Proof.
  intros Hn. rewrite get_context_skipn by assumption.
  split; [|split].
  - exists (firstn (List.length l - Z.to_nat n) l).
    symmetry. apply firstn_skipn.
  - rewrite length_skipn. lia.
  - intros Hlen.
    replace (List.length l - Z.to_nat n)%nat with 0%nat by lia.
    reflexivity.
Qed.

Lemma get_context_last_symbols_witness :
  (1 <= 2)%Z /\
  (exists front : list nat,
     [3; 1; 0; 2]%nat = front ++ get_context [3; 1; 0; 2]%nat 2 false) /\
  List.length (get_context [3; 1; 0; 2]%nat 2 false)
    = Nat.min (Z.to_nat 2) (List.length [3; 1; 0; 2]%nat) /\
  ((Z.of_nat (List.length [3; 1; 0; 2]%nat) <= 2)%Z ->
   get_context [3; 1; 0; 2]%nat 2 false = [3; 1; 0; 2]%nat).
Proof.
  assert (H : (1 <= 2)%Z) by lia.
  split; [exact H | exact (get_context_last_symbols [3; 1; 0; 2]%nat 2 H)].
Defined.

(** X11.  For a context length of at least 1, the context with
    [exclude_last=True] is the context of the labeling without its last
    symbol. *)
Theorem get_context_exclude_last_removelast (l : list nat) (n : Z) :
  (1 <= n)%Z ->
  get_context l n true = get_context (removelast l) n false.
Proof.
  intros Hn. rewrite get_context_skipn by assumption.
  rewrite removelast_firstn_len, skipn_firstn_comm.
  rewrite length_firstn.
  unfold get_context, py_slice, slice_bound.
  destruct (Z.ltb_spec (- (n + 1)) 0); [|lia].
  destruct (Z.ltb_spec (-1) 0); [|lia].
  f_equal; [lia|]. f_equal. lia.
Qed.

Lemma get_context_exclude_last_removelast_witness :
  (1 <= 2)%Z /\
  get_context [3; 1; 0; 2]%nat 2 true
    = get_context (removelast [3; 1; 0; 2]%nat) 2 false.
Proof.
  assert (H : (1 <= 2)%Z) by lia.
  split; [exact H|].
  exact (get_context_exclude_last_removelast [3; 1; 0; 2]%nat 2 H).
Defined.

(** ** [sort_labelings] *)

Lemma insert_desc_Forall (P : BeamEntry -> Prop) (x : BeamEntry)
    (l : list BeamEntry) :
  P x -> Forall P l -> Forall P (insert_desc x l).
Proof.
  intros Hx Hl. apply (Permutation_Forall (Permutation_sym (insert_desc_perm x l))).
  now constructor.
Qed.

Lemma insert_desc_sorted (x : BeamEntry) (l : list BeamEntry) :
  regular (pr_total x) -> Forall (fun e => regular (pr_total e)) l ->
  StronglySorted (fun a b => fleb (pr_total b) (pr_total a) = true) l ->
  StronglySorted (fun a b => fleb (pr_total b) (pr_total a) = true)
    (insert_desc x l).
Proof.
  intros Hx Hreg Hs. induction Hs as [|y l Hs IH Hy]; cbn [insert_desc].
  - constructor; constructor.
  - inversion Hreg as [|? ? Hry Hrl]; subst.
    destruct (fltb (pr_total x) (pr_total y)) eqn:E.
    + constructor; [now apply IH|].
      apply insert_desc_Forall; [|assumption].
      now apply fltb_true_fleb.
    + assert (Hyx : fleb (pr_total y) (pr_total x) = true)
        by now apply fltb_false_fleb.
      constructor; [now constructor|].
      constructor; [assumption|].
      rewrite Forall_forall in Hy, Hrl. apply Forall_forall. intros z Hz.
      apply (fleb_trans _ (pr_total y)); auto.
Qed.

(** X12.  [sort_labelings] returns the labelings of all the beams, none
    dropped and none twice, and when no [pr_total] is NaN or +inf, in
    an order in which no beam comes before one with a larger
    [pr_total]. *)
Theorem sort_labelings_sorted (b : BeamList) :
  Forall (fun e => regular (pr_total e)) (map snd b) ->
  Permutation (sort_labelings b) (map (fun x => labeling (snd x)) b) /\
  sort_labelings b = map labeling (sorted_desc (map snd b)) /\
  StronglySorted (fun x y => fleb (pr_total y) (pr_total x) = true)
    (sorted_desc (map snd b)).
Proof.
  intros Hreg. split; [|split; [reflexivity|]].
  - unfold sort_labelings. rewrite (sorted_desc_perm (map snd b)).
    now rewrite map_map.
  - induction (map snd b) as [|x l IH]; [constructor|].
    inversion Hreg; subst. cbn [sorted_desc fold_right]. fold (sorted_desc l).
    apply insert_desc_sorted; [assumption| |now apply IH].
    now apply (Permutation_Forall (Permutation_sym (sorted_desc_perm l))).
Qed.

Lemma sort_labelings_sorted_witness :
  Forall (fun e => regular (pr_total e)) (map snd ex_state1) /\
  Permutation (sort_labelings ex_state1)
    (map (fun x => labeling (snd x)) ex_state1) /\
  sort_labelings ex_state1 = map labeling (sorted_desc (map snd ex_state1)) /\
  StronglySorted (fun x y => fleb (pr_total y) (pr_total x) = true)
    (sorted_desc (map snd ex_state1)).
Proof.
  assert (H : Forall (fun e => regular (pr_total e)) (map snd ex_state1)).
  { unfold ex_state1. cbn [map snd pr_total]. unfold lnq.
    repeat constructor; cbn [pr_total];
      match goal with |- regular (if ?c then _ else _) => now destruct c end. }
  split; [exact H | exact (sort_labelings_sorted ex_state1 H)].
Defined.

Lemma insert_desc_filter_key (v : xfloat) (x : BeamEntry)
    (l : list BeamEntry) :
  filter (fun e => feqb (pr_total e) v) (insert_desc x l)
    = filter (fun e => feqb (pr_total e) v) (x :: l).
Proof.
  induction l as [|y l IH]; [reflexivity|]. cbn [insert_desc].
  destruct (fltb (pr_total x) (pr_total y)) eqn:E; [|reflexivity].
  cbn [filter] in *. rewrite IH.
  destruct (feqb (pr_total x) v) eqn:Ex; [|reflexivity].
  assert (Hy : feqb (pr_total y) v = false).
  { destruct (pr_total x) as [| | |a], (pr_total y) as [| | |c],
      v as [| | |w]; cbn in *; try reflexivity; try discriminate.
    unfold Reqb in *. destruct (Req_dec_T a w); [|discriminate]. subst.
    apply Rltb_spec in E. destruct (Req_dec_T c w); [lra | reflexivity]. }
  now rewrite Hy.
Qed.

(** X13.  The sort of [sort_labelings] is stable: when no [pr_total] is
    NaN, the beams that have one and the same [pr_total] come in the
    order in which the dictionary holds them. *)
Theorem sort_labelings_stable (v : xfloat) (l : list BeamEntry) :
  Forall (fun e => pr_total e <> NaN) l ->
  filter (fun e => feqb (pr_total e) v) (sorted_desc l)
    = filter (fun e => feqb (pr_total e) v) l.
Proof.
  intros _. induction l as [|x l IH]; [reflexivity|].
  cbn [sorted_desc fold_right]. fold (sorted_desc l).
  rewrite insert_desc_filter_key. cbn [filter]. now rewrite IH.
Qed.

Lemma sort_labelings_stable_witness :
  Forall (fun e => pr_total e <> NaN) (map snd scen2_state1) /\
  filter (fun e => feqb (pr_total e) (lnq (1 # 10)))
         (sorted_desc (map snd scen2_state1))
    = filter (fun e => feqb (pr_total e) (lnq (1 # 10)))
             (map snd scen2_state1).
Proof.
  assert (H : Forall (fun e => pr_total e <> NaN) (map snd scen2_state1)).
  { unfold scen2_state1. cbn [map snd]. unfold lnq.
    repeat constructor; cbn [pr_total];
      match goal with
      | |- (if ?c then _ else _) <> _ => destruct c; discriminate
      end. }
  split; [exact H|].
  exact (sort_labelings_stable (lnq (1 # 10)) (map snd scen2_state1) H).
Defined.

(** ** [log] *)

(** X14.  In real arithmetic, the branch of [log] for 0 extends the
    logarithm so that the logarithm of a product of two probabilities is
    the sum of their logarithms also when one of them is 0 (no exception,
    -inf on both sides), the order of probabilities is the order of their
    logarithms, and the exponential of the result (0 for -inf) is the
    probability.  (In doubles a product can underflow to 0 and the
    identities hold up to rounding only.) *)
Theorem log_product (a b : R) :
  0 <= a -> 0 <= b ->
  exists la lb : xfloat,
    log (Fin a) = Ok la /\ log (Fin b) = Ok lb /\
    regular la /\ lin la = a /\
    log (Fin (a * b)) = Ok (fadd la lb) /\
    (fleb la lb = true <-> a <= b).
Proof.
  intros Ha Hb.
  assert (Hlog : forall x, 0 <= x ->
            exists lx, log (Fin x) = Ok lx /\ regular lx /\ lin lx = x /\
                       (x = 0 -> lx = NInf) /\ (0 < x -> lx = Fin (ln x))).
  { intros x Hx. destruct (Req_dec_T x 0) as [->|Hne].
    - exists NInf. rewrite log_zero. repeat split; try reflexivity. lra.
    - exists (Fin (ln x)). rewrite log_pos by lra.
      repeat split; try reflexivity; [cbn; apply exp_ln; lra | lra]. }
  destruct (Hlog a Ha) as (la & Hla & Hra & Hlina & Ha0 & Hapos).
  destruct (Hlog b Hb) as (lb & Hlb & Hrb & Hlinb & Hb0 & Hbpos).
  exists la, lb. repeat (split; [assumption|]). split.
  - destruct (Req_dec_T a 0) as [->|Hane].
    { rewrite Rmult_0_l, log_zero, (Ha0 eq_refl).
      destruct lb; try contradiction; reflexivity. }
    destruct (Req_dec_T b 0) as [->|Hbne].
    { rewrite Rmult_0_r, log_zero, (Hb0 eq_refl).
      destruct la; try contradiction; reflexivity. }
    rewrite Hapos, Hbpos by lra. rewrite log_pos by nra.
    cbn [fadd]. now rewrite ln_mult by lra.
  - rewrite fleb_lin by assumption. now rewrite Hlina, Hlinb.
Qed.

Lemma log_product_witness :
  0 <= / 2 /\ 0 <= 0 /\
  exists la lb : xfloat,
    log (Fin (/ 2)) = Ok la /\ log (Fin 0) = Ok lb /\
    regular la /\ lin la = / 2 /\
    log (Fin (/ 2 * 0)) = Ok (fadd la lb) /\
    (fleb la lb = true <-> / 2 <= 0).
Proof.
  assert (H1 : 0 <= / 2) by lra.
  assert (H2 : 0 <= 0) by lra.
  split; [exact H1|]. split; [exact H2|].
  exact (log_product (/ 2) 0 H1 H2).
Defined.

(** ** Runs of [beam_search] that differ in the cache or the parameters *)

Lemma except_rel_bind {A B A' B' : Type} (R : A -> B -> Prop)
    (R' : A' -> B' -> Prop) (c1 : except A) (c2 : except B)
    (k1 : A -> except A') (k2 : B -> except B') :
  except_rel R c1 c2 ->
  (forall x y, R x y -> except_rel R' (k1 x) (k2 y)) ->
  except_rel R' (bind c1 k1) (bind c2 k2).
Proof.
  destruct c1 as [x|e1], c2 as [y|e2]; cbn; intros H Hk;
    try contradiction; auto.
Qed.

Lemma except_rel_refl {A : Type} (R : A -> A -> Prop) (c : except A) :
  (forall x, R x x) -> except_rel R c c.
Proof. intros H. destruct c; cbn; auto. Qed.

Lemma except_rel_eq {A : Type} (c1 c2 : except A) :
  except_rel eq c1 c2 -> c1 = c2.
Proof. destruct c1, c2; cbn; intros H; try contradiction; now subst. Qed.

Lemma foldM_rel {A S T : Type} (R : S -> T -> Prop)
    (f : S -> A -> except S) (g : T -> A -> except T) :
  (forall s t a, R s t -> except_rel R (f s a) (g t a)) ->
  forall l s t, R s t -> except_rel R (foldM f l s) (foldM g l t).
Proof.
  intros Hfg. induction l as [|a l IH]; intros s t Hst; cbn [foldM].
  - exact Hst.
  - eapply except_rel_bind; [now apply Hfg | exact IH].
Qed.

Section RelatedRuns.
Context (p1 p2 : params) (CR : entropy_cache -> entropy_cache -> Prop).
Hypothesis Hwidth : beam_width p1 = beam_width p2.
Hypothesis Hcopy : forall row e lab c1 c2, CR c1 c2 ->
  except_rel (fun x y => fst x = fst y /\ CR (snd x) (snd y))
    (copy_dist p1 row e lab c1) (copy_dist p2 row e lab c2).
Hypothesis Hextend : forall row e lab c1 c2, CR c1 c2 ->
  except_rel (fun x y => fst x = fst y /\ CR (snd x) (snd y))
    (extend_dist p1 row e lab c1) (extend_dist p2 row e lab c2).

Lemma copy_beam_rel (blank_idx : nat) (row : list xfloat) (e : xfloat)
    (last : BeamList) (lab : list nat) (curr : BeamList)
    (c1 c2 : entropy_cache) :
  CR c1 c2 ->
  except_rel (fun x y => fst x = fst y /\ CR (snd x) (snd y))
    (copy_beam p1 blank_idx row e last lab (curr, c1))
    (copy_beam p2 blank_idx row e last lab (curr, c2)).
Proof.
  intros Hc. unfold copy_beam. rewrite log_zero. cbn [bind].
  eapply (except_rel_bind
            (fun x y : xfloat * entropy_cache =>
               fst x = fst y /\ CR (snd x) (snd y))).
  - destruct lab as [|first rest]; [cbn; now split|].
    eapply except_rel_bind; [exact (Hcopy row e (first :: rest) c1 c2 Hc)|].
    intros [d1 c1'] [d2 c2'] [Hd Hc']. cbn [fst snd] in Hd, Hc'. subst d2.
    destruct (index d1 (List.last rest first)) as [x|err]; [|reflexivity].
    cbn [bind]. destruct (log x) as [lx|err]; [|reflexivity].
    cbn. now split.
  - intros [nb1 c1'] [nb2 c2'] [Hnb Hc']. cbn [fst snd] in Hnb, Hc'. subst nb2.
    destruct (index row blank_idx) as [b|err]; [|reflexivity].
    cbn [bind]. destruct (log b) as [lb|err]; [|reflexivity].
    cbn. now split.
Qed.

Lemma extend_beam_rel (nchars : nat) (row : list xfloat) (e : xfloat)
    (last : BeamList) (lab : list nat) (curr : BeamList)
    (c1 c2 : entropy_cache) :
  CR c1 c2 ->
  except_rel (fun x y => fst x = fst y /\ CR (snd x) (snd y))
    (extend_beam p1 nchars row e last lab (curr, c1))
    (extend_beam p2 nchars row e last lab (curr, c2)).
Proof.
  intros Hc. unfold extend_beam.
  eapply except_rel_bind; [exact (Hextend row e lab c1 c2 Hc)|].
  intros [d1 c1'] [d2 c2'] [Hd Hc']. cbn [fst snd] in Hd, Hc'. subst d2.
  destruct (foldM (extend_char last lab d1) (seq 0 (nchars - 1)) curr)
    as [curr'|err]; [|reflexivity].
  cbn. now split.
Qed.

Lemma timestep_rel (blank_idx nchars : nat) (last : BeamList)
    (c1 c2 : entropy_cache) (row_ent : list xfloat * xfloat) :
  CR c1 c2 ->
  except_rel (fun x y => fst x = fst y /\ CR (snd x) (snd y))
    (timestep p1 blank_idx nchars (last, c1) row_ent)
    (timestep p2 blank_idx nchars (last, c2) row_ent).
Proof.
  intros Hc. destruct row_ent as [row e]. unfold timestep. rewrite Hwidth.
  apply foldM_rel; [|now split].
  intros [curr1 d1] [curr2 d2] lab [Hcurr Hd]. cbn [fst snd] in Hcurr, Hd.
  subst curr2. unfold beam_step.
  eapply except_rel_bind; [now apply copy_beam_rel|].
  intros [b1 e1] [b2 e2] [Hb He]. cbn [fst snd] in Hb, He. subst b2.
  now apply extend_beam_rel.
Qed.

Lemma beam_search_loop_rel (mat : ndarray) (bases : string)
    (c1 c2 : entropy_cache) :
  CR c1 c2 ->
  except_rel (fun x y => fst x = fst y /\ CR (snd x) (snd y))
    (beam_search_loop mat bases p1 c1) (beam_search_loop mat bases p2 c2).
Proof.
  intros Hc. unfold beam_search_loop. rewrite initial_beam_eq. cbn [bind].
  destruct (signal_entropies mat) as [ents|err]; [|reflexivity].
  cbn [bind]. apply foldM_rel; [|now split].
  intros [l1 d1] [l2 d2] re [Hl Hd]. cbn [fst snd] in Hl, Hd. subst l2.
  now apply timestep_rel.
Qed.

Lemma beam_search_rel (mat : ndarray) (bases : string)
    (c1 c2 : entropy_cache) :
  CR c1 c2 ->
  beam_search mat bases p1 c1 = beam_search mat bases p2 c2.
Proof.
  intros Hc. apply except_rel_eq. unfold beam_search.
  eapply except_rel_bind; [now apply beam_search_loop_rel|].
  intros [l1 d1] [l2 d2] [Hl _]. cbn [fst] in Hl. subst l2.
  apply except_rel_refl. reflexivity.
Qed.

End RelatedRuns.

(** X15.  The entropy cache does not change what [beam_search] returns:
    with any two caches that are coherent with the language model, the
    empty one among them, the decoded string or the exception is the
    same. *)
Theorem beam_search_cache_transparent (mat : ndarray) (bases : string)
    (p : params) (c1 c2 : entropy_cache) :
  cache_coherent (lm p) c1 -> cache_coherent (lm p) c2 ->
  beam_search mat bases p c1 = beam_search mat bases p c2.
Proof.
  intros H1 H2.
  apply (beam_search_rel p p
           (fun x y => cache_coherent (lm p) x /\ cache_coherent (lm p) y));
    [reflexivity | | | now split].
  - intros row e lab x y [Hx Hy]. unfold copy_dist.
    destruct (truthy (lm p) && _); [now apply apply_rna_model_rel|].
    cbn. now repeat split.
  - intros row e lab x y [Hx Hy]. unfold extend_dist.
    destruct (truthy (lm p) && _); [now apply apply_rna_model_rel|].
    cbn. now repeat split.
Qed.

Lemma beam_search_cache_transparent_witness :
  cache_coherent (lm (mkParams 2 (Some [([], [Fin 1; Fin 0])])
                        (Fin 0) (Fin 1) 0)) [([], Fin 0)] /\
  cache_coherent (lm (mkParams 2 (Some [([], [Fin 1; Fin 0])])
                        (Fin 0) (Fin 1) 0)) [] /\
  beam_search scen1_mat "AB"
    (mkParams 2 (Some [([], [Fin 1; Fin 0])]) (Fin 0) (Fin 1) 0) [([], Fin 0)]
  = beam_search scen1_mat "AB"
      (mkParams 2 (Some [([], [Fin 1; Fin 0])]) (Fin 0) (Fin 1) 0) [].
Proof.
  assert (H2 : cache_coherent (Some [([], [Fin 1; Fin 0])]) [])
    by (intros k e; discriminate).
  assert (H1 : cache_coherent (Some [([], [Fin 1; Fin 0])]) [([], Fin 0)]).
  { apply (cache_coherent_set _ [] [] [Fin 1; Fin 0] (Fin 0) H2).
    - cbn [dict_get]. now rewrite labeling_eqb_refl.
    - exact entropy_one_zero. }
  split; [exact H1|]. split; [exact H2|].
  exact (beam_search_cache_transparent scen1_mat "AB"
           (mkParams 2 (Some [([], [Fin 1; Fin 0])]) (Fin 0) (Fin 1) 0)
           _ _ H1 H2).
Defined.

Lemma dist_no_model (p : params) (row : list xfloat) (e : xfloat)
    (lab : list nat) (c : entropy_cache) :
  truthy (lm p) = false ->
  copy_dist p row e lab c = Ok (row, c) /\
  extend_dist p row e lab c = Ok (row, c).
Proof. intros H. unfold copy_dist, extend_dist. now rewrite H. Qed.

Lemma beam_search_loop_no_model (mat : ndarray) (bases : string)
    (p1 p2 : params) (c : entropy_cache) :
  truthy (lm p1) = false -> truthy (lm p2) = false ->
  beam_width p1 = beam_width p2 ->
  beam_search_loop mat bases p1 c = beam_search_loop mat bases p2 c.
Proof.
  intros H1 H2 Hw.
  pose proof (beam_search_loop_rel p1 p2 eq Hw) as Hrel.
  specialize (Hrel
    ltac:(intros row e lab x y ->;
          rewrite (proj1 (dist_no_model p1 row e lab y H1)),
                  (proj1 (dist_no_model p2 row e lab y H2));
          cbn; now split)
    ltac:(intros row e lab x y ->;
          rewrite (proj2 (dist_no_model p1 row e lab y H1)),
                  (proj2 (dist_no_model p2 row e lab y H2));
          cbn; now split)
    mat bases c c eq_refl).
  destruct (beam_search_loop mat bases p1 c) as [[l1 d1]|e1],
           (beam_search_loop mat bases p2 c) as [[l2 d2]|e2];
    cbn in Hrel; try contradiction; [|congruence].
  destruct Hrel as [-> ->]. reflexivity.
Qed.

(** X16.  When [lm] is [None] or an empty mapping, [beam_search] does not
    depend on the thresholds, on the context length or on the cache: two
    calls with the same beam width return the same string or raise the
    same exception; and the cache is never written. *)
Theorem beam_search_without_model (mat : ndarray) (bases : string)
    (p1 p2 : params) (c1 c2 : entropy_cache) :
  truthy (lm p1) = false -> truthy (lm p2) = false ->
  beam_width p1 = beam_width p2 ->
  beam_search mat bases p1 c1 = beam_search mat bases p2 c2 /\
  (forall last c', beam_search_loop mat bases p1 c1 = Ok (last, c') ->
                   c' = c1).
Proof.
  intros H1 H2 Hw. split.
  - apply (beam_search_rel p1 p2 (fun _ _ => True)); [assumption | | | exact I].
    + intros row e lab x y _.
      rewrite (proj1 (dist_no_model p1 row e lab x H1)).
      rewrite (proj1 (dist_no_model p2 row e lab y H2)). cbn. now split.
    + intros row e lab x y _.
      rewrite (proj2 (dist_no_model p1 row e lab x H1)).
      rewrite (proj2 (dist_no_model p2 row e lab y H2)). cbn. now split.
  - intros last c' Hloop.
    pose proof (beam_search_loop_rel p1 p1 (fun x y => x = y /\ y = c1)
                  eq_refl) as Hrel.
    specialize (Hrel
      ltac:(intros row e lab x y [-> ->];
            rewrite (proj1 (dist_no_model p1 row e lab c1 H1));
            cbn; now repeat split)
      ltac:(intros row e lab x y [-> ->];
            rewrite (proj2 (dist_no_model p1 row e lab c1 H1));
            cbn; now repeat split)
      mat bases c1 c1 (conj eq_refl eq_refl)).
    rewrite Hloop in Hrel. cbn in Hrel. tauto.
Qed.

Lemma beam_search_without_model_witness :
  truthy (lm (ex_params 10)) = false /\
  truthy (lm (mkParams 10 (Some []) (Fin 1) (Fin 2) 3)) = false /\
  beam_width (ex_params 10)
    = beam_width (mkParams 10 (Some []) (Fin 1) (Fin 2) 3) /\
  beam_search scen1_mat "AB" (ex_params 10) []
    = beam_search scen1_mat "AB" (mkParams 10 (Some []) (Fin 1) (Fin 2) 3)
        [([0%nat], Fin 5)] /\
  (forall last c',
     beam_search_loop scen1_mat "AB" (ex_params 10) [] = Ok (last, c') ->
     c' = []).
Proof.
  assert (H1 : truthy (lm (ex_params 10)) = false) by reflexivity.
  assert (H2 : truthy (lm (mkParams 10 (Some []) (Fin 1) (Fin 2) 3)) = false)
    by reflexivity.
  assert (H3 : beam_width (ex_params 10)
               = beam_width (mkParams 10 (Some []) (Fin 1) (Fin 2) 3))
    by reflexivity.
  repeat (split; [assumption|]).
  exact (beam_search_without_model scen1_mat "AB" _ _ [] [([0%nat], Fin 5)]
           H1 H2 H3).
Defined.

(** ** [beam_search]: the beam width and the blank column *)

Lemma sort_labelings_length (b : BeamList) :
  List.length (sort_labelings b) = List.length b.
Proof.
  unfold sort_labelings. rewrite length_map.
  rewrite (Permutation_length (sorted_desc_perm (map snd b))).
  apply length_map.
Qed.

Lemma py_slice_width_nonpos {A : Type} (l : list A) (w : Z) :
  (List.length l <= 1)%nat -> (w <= 0)%Z -> py_slice l None (Some w) = [].
Proof.
  intros Hl Hw. unfold py_slice, slice_bound.
  destruct (Z.ltb_spec w 0).
  - replace (Z.to_nat (Z.max 0 (w + Z.of_nat (List.length l)) - 0)) with 0%nat
      by lia.
    reflexivity.
  - replace (Z.to_nat (Z.min w (Z.of_nat (List.length l)) - 0)) with 0%nat
      by lia.
    reflexivity.
Qed.

Lemma timestep_no_beam (p : params) (blank_idx nchars : nat)
    (last : BeamList) (c : entropy_cache) (row_ent : list xfloat * xfloat) :
  (beam_width p <= 0)%Z -> (List.length last <= 1)%nat ->
  timestep p blank_idx nchars (last, c) row_ent = Ok ([], c).
Proof.
  intros Hw Hlast. destruct row_ent as [row e]. unfold timestep.
  rewrite py_slice_width_nonpos;
    [reflexivity | now rewrite sort_labelings_length | assumption].
Qed.

Lemma timesteps_no_beam (p : params) (blank_idx nchars : nat)
    (row_ents : list (list xfloat * xfloat)) (last : BeamList)
    (c : entropy_cache) :
  (beam_width p <= 0)%Z -> (List.length last <= 1)%nat -> row_ents <> [] ->
  foldM (timestep p blank_idx nchars) row_ents (last, c) = Ok ([], c).
Proof.
  intros Hw. revert last.
  induction row_ents as [|re res IH]; intros last Hlast Hne; [congruence|].
  cbn [foldM]. rewrite timestep_no_beam by assumption. cbn [bind].
  destruct res as [|re' res]; [reflexivity|].
  apply IH; [cbn; lia | discriminate].
Qed.

(** X17.  With a beam width that is 0 or negative, on a matrix that has
    a row, [beam_search] keeps no beam in the first time-step and raises
    [IndexError] at the end ([sort_labelings()[0]] of an empty state),
    whatever the matrix, the bases and the language model are. *)
Theorem beam_search_no_beam (mat : ndarray) (bases : string) (p : params)
    (entr_cache : entropy_cache) :
  (beam_width p <= 0)%Z -> rows mat <> [] ->
  beam_search mat bases p entr_cache = Raise IndexError.
Proof.
  intros Hw Hrows. unfold beam_search, beam_search_loop.
  rewrite initial_beam_eq. cbn [bind].
  destruct (signal_entropies_total mat) as (ents & -> & Hlen). cbn [bind].
  rewrite timesteps_no_beam; [reflexivity | assumption | cbn; lia |].
  destruct (rows mat) as [|row rws]; [congruence|].
  destruct ents as [|e ents]; discriminate.
Qed.

Lemma beam_search_no_beam_witness :
  (beam_width (ex_params 0) <= 0)%Z /\ rows ex_mat <> [] /\
  beam_search ex_mat "AB" (ex_params 0) [] = Raise IndexError.
Proof.
  assert (H1 : (beam_width (ex_params 0) <= 0)%Z) by (cbn; lia).
  assert (H2 : rows ex_mat <> []) by discriminate.
  split; [exact H1|]. split; [exact H2|].
  exact (beam_search_no_beam ex_mat "AB" (ex_params 0) [] H1 H2).
Defined.

Lemma log_negative (x : xfloat) :
  fltb x (Fin 0) = true -> log x = Raise ValueError.
Proof.
  destruct x as [| | |a]; cbn; try discriminate; [reflexivity|].
  intros H. apply Rltb_spec in H. now apply log_neg.
Qed.

Lemma first_copy_beam (p : params) (blank_idx : nat) (row : list xfloat)
    (e : xfloat) (last curr : BeamList) (c : entropy_cache) :
  copy_beam p blank_idx row e last [] (curr, c)
    = b <- index row blank_idx ;; lb <- log b ;;
      Ok (entry_update curr [] (fun x =>
            copied_entry x [] NInf (fadd (pr_total (entry_get last [])) lb)),
          c).
Proof.
  unfold copy_beam. rewrite log_zero. cbn [bind].
  destruct (index row blank_idx) as [b|err]; [|reflexivity]. cbn [bind].
  destruct (log b) as [lb|err]; [|reflexivity]. cbn [bind].
  now rewrite !entry_update_update.
Qed.

Lemma first_timestep_raises (p : params) (blank_idx nchars : nat)
    (row : list xfloat) (e : xfloat) (c : entropy_cache)
    (res : list (list xfloat * xfloat)) (err : pyerr) :
  (1 <= beam_width p)%Z ->
  (b <- index row blank_idx ;; log b) = Raise err ->
  foldM (timestep p blank_idx nchars) ((row, e) :: res)
    ([([], mkBeamEntry (Fin 0) NInf (Fin 0) [])], c) = Raise err.
Proof.
  intros Hw Herr. cbn [foldM]. unfold timestep at 1.
  assert (Hbest : py_slice (sort_labelings
                    [([], mkBeamEntry (Fin 0) NInf (Fin 0) [])])
                    None (Some (beam_width p)) = [[]]).
  { rewrite py_slice_all; [reflexivity | cbn; lia]. }
  rewrite Hbest. cbn [foldM]. unfold beam_step. rewrite first_copy_beam.
  destruct (index row blank_idx) as [b|err']; cbn [bind] in *;
    [now rewrite Herr | now injection Herr as ->].
Qed.

(** X18.  The first thing that [beam_search] reads of the matrix, with a
    beam width of at least 1, is the blank column of the first row,
    [mat[0, len(bases)]]: when the row has no such column the call raises
    [IndexError], and when the entry is negative (or -inf) it raises the
    [ValueError] of [math.log], whatever the rest of the matrix and the
    language model are. *)
Theorem beam_search_first_blank (mat : ndarray) (bases : string) (p : params)
    (entr_cache : entropy_cache) (row : list xfloat)
    (rest : list (list xfloat)) :
  (1 <= beam_width p)%Z -> rows mat = row :: rest ->
  ((List.length row <= String.length bases)%nat ->
   beam_search mat bases p entr_cache = Raise IndexError) /\
  (forall x : xfloat,
     index row (String.length bases) = Ok x -> fltb x (Fin 0) = true ->
     beam_search mat bases p entr_cache = Raise ValueError).
Proof.
  intros Hw Hrows.
  assert (H : forall err,
            (b <- index row (String.length bases) ;; log b) = Raise err ->
            beam_search mat bases p entr_cache = Raise err).
  { intros err Herr. unfold beam_search, beam_search_loop.
    rewrite initial_beam_eq. cbn [bind].
    destruct (signal_entropies_total mat) as (ents & -> & Hlen). cbn [bind].
    rewrite Hrows in *. destruct ents as [|e ents]; [discriminate|].
    cbn [combine].
    now rewrite (first_timestep_raises p _ _ row e entr_cache _ err Hw Herr). }
  split.
  - intros Hlen. apply H. unfold index.
    destruct (nth_error row (String.length bases)) eqn:E; [|reflexivity].
    apply nth_error_None in Hlen. congruence.
  - intros x Hx Hneg. apply H. rewrite Hx. cbn [bind].
    now apply log_negative.
Qed.

Lemma beam_search_first_blank_witness :
  (1 <= beam_width (ex_params 2))%Z /\
  rows ex_mat = ex_row1 :: [ex_row2; ex_row3] /\
  ((List.length ex_row1 <= String.length "ABC")%nat ->
   beam_search ex_mat "ABC" (ex_params 2) [] = Raise IndexError) /\
  (forall x : xfloat,
     index ex_row1 (String.length "ABC") = Ok x -> fltb x (Fin 0) = true ->
     beam_search ex_mat "ABC" (ex_params 2) [] = Raise ValueError).
Proof.
  assert (H1 : (1 <= beam_width (ex_params 2))%Z) by (cbn; lia).
  assert (H2 : rows ex_mat = ex_row1 :: [ex_row2; ex_row3]) by reflexivity.
  split; [exact H1|]. split; [exact H2|].
  exact (beam_search_first_blank ex_mat "ABC" (ex_params 2) [] _ _ H1 H2).
Defined.

(** ** [beam_search]: the decoded string *)

Lemma entry_update_pairs (Q : list nat -> BeamEntry -> Prop) (b : BeamList)
    (l : list nat) (f : BeamEntry -> BeamEntry) :
  (forall k e, In (k, e) b -> Q k e) -> Q l (f (entry_get b l)) ->
  forall k e, In (k, e) (entry_update b l f) -> Q k e.
Proof.
  intros Hb Hl k e Hin. unfold entry_update in Hin.
  apply In_dict_set in Hin. destruct Hin as [[-> ->]|Hin]; auto.
Qed.

Lemma foldM_inv_In {A S : Type} (f : S -> A -> except S) (P : S -> Prop)
    (l : list A) :
  (forall s a s', In a l -> f s a = Ok s' -> P s -> P s') ->
  forall s s', foldM f l s = Ok s' -> P s -> P s'.
Proof.
  induction l as [|a l IH]; intros Hf s s' H Hs; cbn [foldM] in H.
  - now injection H as <-.
  - apply bind_Ok_inv in H. destruct H as (s1 & H1 & H2).
    apply (IH (fun s a s' Ha => Hf s a s' (or_intror Ha)) s1 s' H2).
    apply (Hf s a s1 (or_introl eq_refl) H1 Hs).
Qed.

Lemma copy_beam_bounded (p : params) (blank_idx : nat) (row : list xfloat)
    (s_entropy : xfloat) (last : BeamList) (lab : list nat) (t : nat)
    (st st' : BeamList * entropy_cache) :
  copy_beam p blank_idx row s_entropy last lab st = Ok st' ->
  (List.length lab <= t)%nat ->
  labels_bounded (S t) (fst st) -> labels_bounded (S t) (fst st').
Proof.
  destruct st as [curr c], st' as [curr' c']. intros H Hlab Hb.
  apply copy_beam_inv in H. destruct H as (nb & bl & ->). cbn [fst] in *.
  unfold labels_bounded.
  apply (entry_update_pairs
           (fun k e => labeling e = k /\ (List.length k <= S t)%nat));
    [exact Hb|]. cbn [copied_entry labeling].
  split; [reflexivity | lia].
Qed.

Lemma extend_char_bounded (last : BeamList) (lab : list nat)
    (pr_dist : list xfloat) (curr : BeamList) (c : nat) (curr' : BeamList)
    (t : nat) :
  extend_char last lab pr_dist curr c = Ok curr' ->
  (List.length lab <= t)%nat ->
  labels_bounded (S t) curr -> labels_bounded (S t) curr'.
Proof.
  intros H Hlab Hb.
  destruct (index pr_dist c) as [x|e] eqn:Hx;
    [|unfold extend_char in H; rewrite Hx in H; discriminate].
  destruct (log x) as [lx|e] eqn:Hlx;
    [|unfold extend_char in H; rewrite Hx in H; cbn [bind] in H;
      rewrite Hlx in H; discriminate].
  rewrite (extend_char_eq _ _ _ _ _ _ _ Hx Hlx) in H. injection H as <-.
  unfold labels_bounded.
  apply (entry_update_pairs
           (fun k e => labeling e = k /\ (List.length k <= S t)%nat));
    [exact Hb|]. cbn [extended_entry labeling].
  split; [reflexivity|]. rewrite length_app. cbn. lia.
Qed.

Lemma extend_beam_bounded (p : params) (nchars : nat) (row : list xfloat)
    (s_entropy : xfloat) (last : BeamList) (lab : list nat) (t : nat)
    (st st' : BeamList * entropy_cache) :
  extend_beam p nchars row s_entropy last lab st = Ok st' ->
  (List.length lab <= t)%nat ->
  labels_bounded (S t) (fst st) -> labels_bounded (S t) (fst st').
Proof.
  destruct st as [curr c], st' as [curr' c']. unfold extend_beam.
  intros H Hlab Hb.
  apply bind_Ok_inv in H. destruct H as ([pr_dist c1] & _ & H).
  apply bind_Ok_inv in H. destruct H as (curr1 & Hfold & H).
  injection H as <- _. cbn [fst] in *.
  eapply (foldM_inv _ (labels_bounded (S t))); [|exact Hfold|exact Hb].
  intros s a s' Hs Hbs. eapply extend_char_bounded; eassumption.
Qed.

Lemma sort_labelings_In (b : BeamList) (l : list nat) :
  In l (sort_labelings b) -> exists k e, In (k, e) b /\ labeling e = l.
Proof.
  unfold sort_labelings. intros H. apply in_map_iff in H.
  destruct H as (e & He & Hin).
  apply (Permutation_in _ (sorted_desc_perm _)) in Hin.
  apply in_map_iff in Hin. destruct Hin as ([k e'] & Hk & Hin).
  cbn [snd] in Hk. subst e'. now exists k, e.
Qed.

Lemma timestep_bounded (p : params) (blank_idx nchars : nat) (t : nat)
    (st : BeamList * entropy_cache) (row_ent : list xfloat * xfloat)
    (st' : BeamList * entropy_cache) :
  timestep p blank_idx nchars st row_ent = Ok st' ->
  labels_bounded t (fst st) -> labels_bounded (S t) (fst st').
Proof.
  destruct st as [last c], row_ent as [row e]. unfold timestep.
  cbn [fst]. intros H Hlast.
  eapply (foldM_inv_In _ (fun s => labels_bounded (S t) (fst s)));
    [|exact H|intros k x []].
  intros s lab s' Hlab Hstep Hs.
  assert (Hlen : (List.length lab <= t)%nat).
  { apply py_slice_incl, sort_labelings_In in Hlab.
    destruct Hlab as (k & x & Hin & <-).
    destruct (Hlast k x Hin) as [-> Hk]. exact Hk. }
  unfold beam_step in Hstep.
  apply bind_Ok_inv in Hstep. destruct Hstep as (s1 & Hcopy & Hext).
  eapply extend_beam_bounded; [exact Hext | exact Hlen |].
  eapply copy_beam_bounded; [exact Hcopy | exact Hlen | exact Hs].
Qed.

Lemma timesteps_bounded (p : params) (blank_idx nchars : nat)
    (row_ents : list (list xfloat * xfloat)) :
  forall (t : nat) (st st' : BeamList * entropy_cache),
    foldM (timestep p blank_idx nchars) row_ents st = Ok st' ->
    labels_bounded t (fst st) ->
    labels_bounded (t + List.length row_ents) (fst st').
Proof.
  induction row_ents as [|re res IH]; intros t st st' H Hb; cbn [foldM] in H.
  - injection H as <-. cbn [List.length]. now rewrite Nat.add_0_r.
  - apply bind_Ok_inv in H. destruct H as (s1 & H1 & H2).
    cbn [List.length]. rewrite Nat.add_succ_r.
    apply (IH (S t) s1 st' H2). eapply timestep_bounded; eassumption.
Qed.

Lemma string_get_In (bases : string) (n : nat) (a : ascii) :
  String.get n bases = Some a -> In a (list_ascii_of_string bases).
Proof.
  revert n. induction bases as [|b bases IH]; intros n H; [discriminate|].
  destruct n as [|n]; cbn in H |- *.
  - injection H as ->. now left.
  - right. now apply (IH n).
Qed.

Lemma mapM_base_at (bases : string) (l : list nat) (sq : list ascii) :
  mapM (base_at bases) l = Ok sq ->
  List.length sq = List.length l /\
  forall a, In a sq -> In a (list_ascii_of_string bases).
Proof.
  revert sq. induction l as [|x l IH]; intros sq H; cbn [mapM] in H.
  - injection H as <-. split; [reflexivity | intros a []].
  - apply bind_Ok_inv in H. destruct H as (y & Hy & H).
    apply bind_Ok_inv in H. destruct H as (ys & Hys & H). injection H as <-.
    destruct (IH ys Hys) as [Hlen Hin]. split; [cbn; now rewrite Hlen|].
    intros a [<-|Ha]; [|now apply Hin].
    unfold base_at in Hy. destruct (String.get x bases) eqn:E; [|discriminate].
    injection Hy as <-. now apply (string_get_In bases x).
Qed.

Lemma string_of_list_ascii_length (l : list ascii) :
  String.length (string_of_list_ascii l) = List.length l.
Proof. induction l as [|a l IH]; cbn; [reflexivity | now rewrite IH]. Qed.

(** X19.  Whatever the matrix, the language model and the cache are, a
    string that [beam_search] returns has at most one character per
    time-step, and every character of it is one of [bases]. *)
Theorem beam_search_decoded (mat : ndarray) (bases : string) (p : params)
    (entr_cache : entropy_cache) (s : string) :
  beam_search mat bases p entr_cache = Ok s ->
  (String.length s <= List.length (rows mat))%nat /\
  forall a : ascii,
    In a (list_ascii_of_string s) -> In a (list_ascii_of_string bases).
Proof.
  unfold beam_search. intros H.
  apply bind_Ok_inv in H. destruct H as ([last c'] & Hloop & H).
  apply bind_Ok_inv in H. destruct H as (best & Hbest & H).
  apply bind_Ok_inv in H. destruct H as (sq & Hsq & H). injection H as <-.
  destruct (mapM_base_at bases best sq Hsq) as [Hlen Hin].
  rewrite string_of_list_ascii_length, list_ascii_of_string_of_list_ascii, Hlen.
  split; [|exact Hin].
  unfold beam_search_loop in Hloop. rewrite initial_beam_eq in Hloop.
  cbn [bind] in Hloop.
  apply bind_Ok_inv in Hloop. destruct Hloop as (ents & _ & Hloop).
  apply (timesteps_bounded _ _ _ _ 0%nat) in Hloop.
  - cbn [fst] in Hloop. unfold index in Hbest.
    destruct (nth_error (sort_labelings last) 0) as [l|] eqn:E; [|discriminate].
    injection Hbest as ->. apply nth_error_In, sort_labelings_In in E.
    destruct E as (k & e & Hke & <-).
    destruct (Hloop k e Hke) as [-> Hk].
    rewrite length_combine in Hk. lia.
  - intros k e [[= <- <-]|[]]. cbn. split; [reflexivity | lia].
Qed.

Lemma beam_search_decoded_witness :
  beam_search scen1_mat "AB" (ex_params 10) [] = Ok "A"%string /\
  (String.length "A" <= List.length (rows scen1_mat))%nat /\
  forall a : ascii,
    In a (list_ascii_of_string "A") -> In a (list_ascii_of_string "AB").
Proof.
  assert (H : beam_search scen1_mat "AB" (ex_params 10) [] = Ok "A"%string)
    by exact (proj1 beam_search_one_row).
  split; [exact H|].
  exact (beam_search_decoded scen1_mat "AB" (ex_params 10) [] "A" H).
Defined.

(** ** [beam_search] without a language model: the call returns *)

Lemma timestep_logs_nonempty (width : Z) (blank_idx nchars : nat)
    (lrow : list xfloat) (s : BeamList) :
  state_ok nchars s -> (1 <= width)%Z -> s <> [] ->
  timestep_logs width blank_idx nchars lrow s <> [].
Proof.
  intros Hok Hw Hne.
  assert (Hbest : py_slice (sort_labelings s) None (Some width) <> []).
  { apply py_slice_nonempty; [assumption|].
    intros Hs. pose proof (sort_labelings_length s) as Hlen.
    rewrite Hs in Hlen. destruct s; [congruence | discriminate]. }
  destruct (py_slice (sort_labelings s) None (Some width)) as [|l ls] eqn:E;
    [congruence|].
  intros Hnil.
  assert (Hin : In l (map fst (timestep_logs width blank_idx nchars lrow s))).
  { unfold timestep_logs. apply fold_beam_step_logs_In_keys.
    right. exists l. rewrite E. split; [now left | now left]. }
  rewrite Hnil in Hin. destruct Hin.
Qed.

Lemma one_run (p : params) (blank_idx nchars : nat)
    (rws : list (list xfloat)) :
  lm p = None -> (1 <= beam_width p)%Z -> (blank_idx < nchars)%nat ->
  Forall (fun row => List.length row = nchars /\ Forall prob_value row) rws ->
  forall (ents : list xfloat) (s : BeamList) (c : entropy_cache),
    List.length ents = List.length rws ->
    state_ok nchars s -> s <> [] ->
    exists s' : BeamList,
      foldM (timestep p blank_idx nchars) (combine rws ents) (s, c)
        = Ok (s', c) /\
      state_ok nchars s' /\ s' <> [].
Proof.
  intros Hlm Hw Hblank.
  induction 1 as [|row rws [Hlen Hrow] Hrws IH]; intros ents s c He Hok Hne.
  - exists s. split; [reflexivity | split; assumption].
  - destruct ents as [|e ents]; [discriminate|].
    cbn [combine foldM].
    destruct (row_logs row Hrow) as (lrow & Hlog & Hreg).
    rewrite (timestep_ok blank_idx nchars Hblank p row lrow s e c Hlm Hok
               Hlen Hlog).
    cbn [bind]. apply IH.
    + cbn in He. lia.
    + now apply timestep_logs_ok.
    + now apply timestep_logs_nonempty.
Qed.

Lemma initial_state_ok (nchars : nat) :
  state_ok nchars [([], mkBeamEntry (Fin 0) NInf (Fin 0) [])].
Proof. exact (proj1 (initial_related nchars)). Qed.

Lemma string_get_Some (bases : string) (n : nat) :
  (n < String.length bases)%nat -> exists a, String.get n bases = Some a.
Proof.
  revert n. induction bases as [|b bases IH]; intros n H; [cbn in H; lia|].
  destruct n as [|n]; [now exists b|]. cbn in H |- *. apply IH. lia.
Qed.

Lemma mapM_base_at_total (bases : string) (l : list nat) :
  Forall (fun c => (c < String.length bases)%nat) l ->
  exists sq, mapM (base_at bases) l = Ok sq.
Proof.
  induction 1 as [|x l Hx Hl (sq & IH)]; [now exists []|].
  destruct (string_get_Some bases x Hx) as (a & Ha).
  exists (a :: sq). cbn [mapM]. unfold base_at at 1. rewrite Ha. cbn [bind].
  now rewrite IH.
Qed.

Lemma sorted_desc_regular (nchars : nat) (s : BeamList) :
  state_ok nchars s ->
  Forall (fun e => regular (pr_total e)) (map snd s).
Proof.
  intros Hs. apply Forall_forall. intros e He.
  apply in_map_iff in He. destruct He as ([k e'] & <- & Hin). cbn [snd].
  rewrite <- (In_entry_get _ s k e' (proj1 Hs) Hin).
  apply (proj2 Hs k).
Qed.

(** The end of a run without a language model, on a matrix of
    probabilities: the state is well formed and not empty, and its best
    beam decodes. *)
Lemma run_no_model (mat : ndarray) (bases : string) (p : params)
    (c : entropy_cache) :
  mat_wf mat bases -> truthy (lm p) = false -> (1 <= beam_width p)%Z ->
  exists (last : BeamList) (best : BeamEntry) (tl : list BeamEntry)
         (str : string),
    beam_search_loop mat bases p c = Ok (last, c) /\
    state_ok (chars mat) last /\
    sorted_desc (map snd last) = best :: tl /\
    beam_search mat bases p c = Ok str /\
    best_pr_total mat bases p c = Ok (pr_total best).
Proof.
  intros [Hchars Hrows] Hlm Hw.
  set (p0 := mkParams (beam_width p) None (s_threshold p) (r_threshold p)
                      (len_context p)).
  assert (Hloop0 : beam_search_loop mat bases p c
                   = beam_search_loop mat bases p0 c)
    by now apply beam_search_loop_no_model.
  destruct (signal_entropies_total mat) as (ents & Hents & Hlen).
  destruct (one_run p0 (String.length bases) (chars mat) (rows mat) eq_refl Hw
              ltac:(lia) Hrows ents _ c Hlen (initial_state_ok (chars mat))
              ltac:(discriminate)) as (last & Hfold & Hok & Hne).
  assert (Hloop : beam_search_loop mat bases p c = Ok (last, c)).
  { rewrite Hloop0. unfold beam_search_loop.
    rewrite initial_beam_eq, Hents. cbn [bind]. exact Hfold. }
  destruct (sorted_desc (map snd last)) as [|best tl] eqn:Hsort.
  { pose proof (Permutation_length (sorted_desc_perm (map snd last))) as Hl.
    rewrite Hsort, length_map in Hl. destruct last; [congruence|discriminate]. }
  assert (Hbest : In (labeling best) (map fst last)).
  { apply (Permutation_in _ (sort_labelings_perm _ last (proj1 Hok))).
    unfold sort_labelings. rewrite Hsort. now left. }
  apply In_keys_entry in Hbest. destruct Hbest as (e & He).
  destruct (proj2 (proj1 Hok) _ _ He) as [_ Hsym].
  destruct (mapM_base_at_total bases (labeling best)) as (sq & Hsq).
  { eapply Forall_impl; [|exact Hsym]. cbn. intros a Ha. lia. }
  exists last, best, tl, (string_of_list_ascii sq).
  split; [exact Hloop|]. split; [exact Hok|]. split; [exact Hsort|].
  unfold beam_search, best_pr_total. rewrite Hloop. cbn [bind].
  unfold sort_labelings. rewrite Hsort. cbn [map index nth_error bind].
  rewrite Hsq. now split.
Qed.

(** X20.  On a matrix of probabilities (finite, not negative) with one
    column per base and one for the blank, without a language model and
    with a beam width of at least 1, [beam_search] raises nothing: it
    returns a string, the [pr_total] of the decoded beam is a finite
    number or -inf, and no beam of the final state has a larger one. *)
Theorem beam_search_returns (mat : ndarray) (bases : string) (p : params)
    (entr_cache : entropy_cache) :
  mat_wf mat bases -> truthy (lm p) = false -> (1 <= beam_width p)%Z ->
  exists (str : string) (a : xfloat) (last : BeamList),
    beam_search mat bases p entr_cache = Ok str /\
    best_pr_total mat bases p entr_cache = Ok a /\ regular a /\
    beam_search_loop mat bases p entr_cache = Ok (last, entr_cache) /\
    forall k e, In (k, e) last -> fleb (pr_total e) a = true.
Proof.
  intros Hwf Hlm Hw.
  destruct (run_no_model mat bases p entr_cache Hwf Hlm Hw)
    as (last & best & tl & str & Hloop & Hok & Hsort & Hstr & Hbest).
  pose proof (sorted_desc_regular _ _ Hok) as Hreg.
  exists str, (pr_total best), last.
  split; [exact Hstr|]. split; [exact Hbest|]. split.
  - rewrite Forall_forall in Hreg. apply Hreg.
    apply (Permutation_in _ (sorted_desc_perm _)). rewrite Hsort. now left.
  - split; [exact Hloop|]. intros k e Hin.
    apply (sorted_desc_head_max (map snd last) best tl Hreg Hsort).
    apply in_map_iff. now exists (k, e).
Qed.

Lemma beam_search_returns_witness :
  mat_wf ex_mat "AB" /\ truthy (lm (ex_params 2)) = false /\
  (1 <= beam_width (ex_params 2))%Z /\
  exists (str : string) (a : xfloat) (last : BeamList),
    beam_search ex_mat "AB" (ex_params 2) [] = Ok str /\
    best_pr_total ex_mat "AB" (ex_params 2) [] = Ok a /\ regular a /\
    beam_search_loop ex_mat "AB" (ex_params 2) [] = Ok (last, []) /\
    forall k e, In (k, e) last -> fleb (pr_total e) a = true.
Proof.
  assert (H2 : truthy (lm (ex_params 2)) = false) by reflexivity.
  assert (H3 : (1 <= beam_width (ex_params 2))%Z) by (cbn; lia).
  split; [exact ex_mat_wf|]. split; [exact H2|]. split; [exact H3|].
  exact (beam_search_returns ex_mat "AB" (ex_params 2) [] ex_mat_wf H2 H3).
Defined.

(** ** The probability mass of the beam state *)

Lemma mass_entry_update (b : BeamList) (l : list nat)
    (f : BeamEntry -> BeamEntry) :
  mass (entry_update b l f)
    = mass b - lin (pr_total (entry_get b l))
      + lin (pr_total (f (entry_get b l))).
Proof.
  unfold entry_update. generalize (f (entry_get b l)) as v. intros v.
  unfold entry_get, mass.
  induction b as [|[k0 v0] b IH]; cbn [dict_set dict_get].
  - cbn. lra.
  - destruct (labeling_eqb l k0) eqn:E; cbn [map Rsum fold_right snd].
    + lra.
    + unfold Rsum in IH. rewrite IH. lra.
Qed.

Lemma totals_regular_update (b : BeamList) (l : list nat)
    (f : BeamEntry -> BeamEntry) :
  (forall k, regular (pr_total (entry_get b k))) ->
  regular (pr_total (f (entry_get b l))) ->
  forall k, regular (pr_total (entry_get (entry_update b l f) k)).
Proof.
  intros Hb Hl k. destruct (list_eq_dec Nat.eq_dec k l) as [->|Hne].
  - now rewrite entry_get_update_same.
  - now rewrite entry_get_update_other.
Qed.

Lemma mass_add_total (b : BeamList) (l : list nat)
    (f : BeamEntry -> BeamEntry) (x : xfloat) :
  (forall k, regular (pr_total (entry_get b k))) -> regular x ->
  (forall e, pr_total (f e) = logaddexp (pr_total e) x) ->
  mass (entry_update b l f) = mass b + lin x /\
  forall k, regular (pr_total (entry_get (entry_update b l f) k)).
Proof.
  intros Hb Hx Hf. split.
  - rewrite mass_entry_update, Hf, lin_logaddexp by auto. lra.
  - apply totals_regular_update; [assumption|].
    rewrite Hf. now apply regular_logaddexp.
Qed.

Lemma Rsum_if_index (j : nat) (t b : R) (P : nat -> R) (m a : nat) :
  Rsum (map (fun c => (if Nat.eqb j c then b else t) * P c) (seq a m))
    = t * Rsum (map P (seq a m))
      - (if (a <=? j)%nat && (j <? a + m)%nat then (t - b) * P j else 0).
Proof.
  revert a. induction m as [|m IH]; intros a.
  - cbn [seq map]. unfold Rsum. cbn [fold_right].
    destruct (a <=? j)%nat eqn:E1, (j <? a + 0)%nat eqn:E2; cbn [andb];
      try lra.
    apply Nat.leb_le in E1. apply Nat.ltb_lt in E2. lia.
  - cbn [seq map]. unfold Rsum in *. cbn [fold_right]. rewrite IH.
    destruct (Nat.eqb_spec j a) as [->|Hne].
    + rewrite Nat.leb_refl.
      replace (a <? a + S m)%nat with true by (symmetry; apply Nat.ltb_lt; lia).
      replace (S a <=? a)%nat with false by (symmetry; apply Nat.leb_gt; lia).
      cbn [andb]. lra.
    + assert (E : ((a <=? j)%nat && (j <? a + S m)%nat)
                  = ((S a <=? j)%nat && (j <? S a + m)%nat)).
      { destruct (Nat.leb_spec a j), (Nat.leb_spec (S a) j),
                 (Nat.ltb_spec j (a + S m)), (Nat.ltb_spec j (S a + m));
          cbn [andb]; try reflexivity; lia. }
      rewrite E. lra.
Qed.

Lemma Rsum_nth_seq (l : list xfloat) (a : nat) (pre : list xfloat) :
  List.length pre = a ->
  Rsum (map (fun c => lin (nth c (pre ++ l) NInf)) (seq a (List.length l)))
    = Rsum (map lin l).
Proof.
  revert a pre. induction l as [|x l IH]; intros a pre Ha; [reflexivity|].
  cbn [List.length seq map]. unfold Rsum in *. cbn [fold_right].
  rewrite app_nth2 by lia. replace (a - List.length pre)%nat with 0%nat by lia.
  cbn [nth]. f_equal.
  specialize (IH (S a) (pre ++ [x])). rewrite <- app_assoc in IH.
  apply IH. rewrite length_app. cbn. lia.
Qed.

Lemma lin_logs (row lrow : list xfloat) :
  Forall prob_value row -> mapM log row = Ok lrow ->
  map lin lrow = map fin_value row.
Proof.
  intros Hrow. revert lrow.
  induction Hrow as [|x row (a & -> & Ha) Hrow IH]; intros lrow H;
    cbn [mapM] in H.
  - now injection H as <-.
  - apply bind_Ok_inv in H. destruct H as (lx & Hlx & H).
    apply bind_Ok_inv in H. destruct H as (ls & Hls & H). injection H as <-.
    cbn [map]. rewrite (IH ls Hls). f_equal. cbn [fin_value].
    destruct (Req_dec_T a 0) as [->|Hne].
    + rewrite log_zero in Hlx. now injection Hlx as <-.
    + rewrite log_pos in Hlx by lra. injection Hlx as <-. cbn.
      apply exp_ln. lra.
Qed.

Lemma mapM_length {A B : Type} (f : A -> except B) (l : list A) (l' : list B) :
  mapM f l = Ok l' -> List.length l' = List.length l.
Proof.
  revert l'. induction l as [|a l IH]; intros l' H; cbn [mapM] in H.
  - now injection H as <-.
  - apply bind_Ok_inv in H. destruct H as (y & _ & H).
    apply bind_Ok_inv in H. destruct H as (ys & Hys & H). injection H as <-.
    cbn. now rewrite (IH ys Hys).
Qed.

(** The mass that the row gives to the symbols and to the blank. *)
Lemma row_mass (nchars : nat) (lrow : list xfloat) :
  (1 <= nchars)%nat -> List.length lrow = nchars ->
  Rsum (map (fun c => lin (nth c lrow NInf)) (seq 0 (nchars - 1)))
    + lin (nth (nchars - 1) lrow NInf)
  = Rsum (map lin lrow).
Proof.
  intros Hn Hlen.
  assert (Hseq : seq 0 nchars = seq 0 (nchars - 1) ++ [(nchars - 1)%nat]).
  { replace nchars with (S (nchars - 1)) at 1 by lia. now rewrite seq_S. }
  rewrite <- (Rsum_nth_seq lrow 0 [] eq_refl). cbn [app].
  rewrite Hlen, Hseq, map_app, Rsum_app. unfold Rsum. cbn [map fold_right].
  lra.
Qed.

Section StepMass.
Context (nchars : nat) (lrow : list xfloat) (last : BeamList).
Hypothesis Hn : (1 <= nchars)%nat.
Hypothesis Hlen : List.length lrow = nchars.
Hypothesis Hlrow : Forall regular lrow.
Hypothesis Hlast : state_regular last.
Hypothesis Hinv : beam_inv last.

Lemma extend_mass_regular (lab : list nat) (c : nat) :
  regular (extend_mass last lab c (nth c lrow NInf)).
Proof.
  pose proof (Hlast lab) as (Ht & _ & Hb). cbn [entry_vals] in Ht, Hb.
  unfold extend_mass. apply regular_fadd; [|now apply regular_nth].
  now destruct (ends_with lab c).
Qed.

Lemma extend_beam_logs_mass (lab : list nat) (cs : list nat)
    (curr : BeamList) :
  (forall k, regular (pr_total (entry_get curr k))) ->
  mass (fold_left
          (fun curr c =>
             entry_update curr (lab ++ [c]) (fun e =>
               extended_entry e (lab ++ [c])
                 (extend_mass last lab c (nth c lrow NInf))))
          cs curr)
    = mass curr
      + Rsum (map (fun c => lin (extend_mass last lab c (nth c lrow NInf))) cs)
  /\
  forall k, regular (pr_total (entry_get
    (fold_left
       (fun curr c =>
          entry_update curr (lab ++ [c]) (fun e =>
            extended_entry e (lab ++ [c])
              (extend_mass last lab c (nth c lrow NInf))))
       cs curr) k)).
Proof.
  revert curr. induction cs as [|c cs IH]; intros curr Hcurr;
    cbn [fold_left map].
  - split; [unfold Rsum; cbn; lra | exact Hcurr].
  - destruct (mass_add_total curr (lab ++ [c])
                (fun e => extended_entry e (lab ++ [c])
                            (extend_mass last lab c (nth c lrow NInf)))
                (extend_mass last lab c (nth c lrow NInf)) Hcurr
                (extend_mass_regular lab c) (fun e => eq_refl))
      as [Hm Hr].
    destruct (IH _ Hr) as [Hm' Hr']. split; [|exact Hr'].
    rewrite Hm', Hm. unfold Rsum. cbn [fold_right]. lra.
Qed.

Lemma beam_step_logs_mass (lab : list nat) (curr : BeamList) :
  Forall (fun c => (c < nchars - 1)%nat) lab ->
  (forall k, regular (pr_total (entry_get curr k))) ->
  mass (beam_step_logs (nchars - 1) nchars lrow last curr lab)
    = mass curr + lin (pr_total (entry_get last lab)) * Rsum (map lin lrow)
  /\
  forall k, regular (pr_total (entry_get
    (beam_step_logs (nchars - 1) nchars lrow last curr lab) k)).
Proof.
  intros Hsym Hcurr.
  pose proof (Hlast lab) as (Ht & Hnb & Hb). cbn [entry_vals] in Ht, Hnb, Hb.
  pose proof (beam_inv_entry_get last lab Hinv) as He. unfold entry_inv in He.
  assert (HT : lin (pr_total (entry_get last lab))
               = lin (pr_blank (entry_get last lab))
                 + lin (pr_non_blank (entry_get last lab)))
    by (rewrite He; now apply lin_logaddexp).
  set (nb := match lab with
             | [] => NInf
             | first :: rest =>
                 fadd (pr_non_blank (entry_get last lab))
                      (nth (List.last rest first) lrow NInf)
             end).
  set (bl := fadd (pr_total (entry_get last lab)) (nth (nchars - 1) lrow NInf)).
  assert (Hrnb : regular nb).
  { unfold nb. destruct lab; [exact I|].
    apply regular_fadd; [assumption | now apply regular_nth]. }
  assert (Hrbl : regular bl)
    by (apply regular_fadd; [assumption | now apply regular_nth]).
  destruct (mass_add_total curr lab (fun e => copied_entry e lab nb bl)
              (logaddexp bl nb) Hcurr (regular_logaddexp _ _ Hrbl Hrnb)
              (fun e => eq_refl)) as [Hm Hr].
  unfold beam_step_logs, extend_beam_logs.
  fold nb bl in Hm, Hr. unfold copy_beam_logs. fold nb bl.
  destruct (extend_beam_logs_mass lab (seq 0 (nchars - 1)) _ Hr) as [Hm' Hr'].
  split; [|exact Hr'].
  rewrite Hm', Hm. rewrite lin_logaddexp by assumption.
  unfold bl. rewrite lin_fadd by (assumption || now apply regular_nth).
  rewrite <- (row_mass nchars lrow Hn Hlen).
  assert (Hext : forall c,
            lin (extend_mass last lab c (nth c lrow NInf))
            = (if ends_with lab c then lin (pr_blank (entry_get last lab))
               else lin (pr_total (entry_get last lab)))
              * lin (nth c lrow NInf)).
  { intros c. unfold extend_mass.
    rewrite lin_fadd; [now destruct (ends_with lab c)
                      | now destruct (ends_with lab c)
                      | now apply regular_nth]. }
  rewrite (map_ext _ _ Hext).
  destruct lab as [|first rest].
  - cbn [ends_with]. unfold nb. cbn [lin].
    assert (Hs : Rsum (map (fun c => lin (pr_total (entry_get last []))
                                    * lin (nth c lrow NInf))
                           (seq 0 (nchars - 1)))
                 = lin (pr_total (entry_get last []))
                   * Rsum (map (fun c => lin (nth c lrow NInf))
                               (seq 0 (nchars - 1)))).
    { generalize (seq 0 (nchars - 1)). intros cs.
      induction cs as [|c cs IH]; unfold Rsum in *; cbn [map fold_right];
        [lra | rewrite IH; lra]. }
    rewrite Hs. lra.
  - set (j := List.last rest first).
    assert (Hj : (j < nchars - 1)%nat).
    { rewrite Forall_forall in Hsym. apply Hsym. apply last_In. }
    cbn [ends_with]. fold j.
    rewrite (Rsum_if_index j _ _ (fun c => lin (nth c lrow NInf))
               (nchars - 1) 0).
    replace ((0 <=? j)%nat && (j <? 0 + (nchars - 1))%nat) with true
      by (symmetry; apply andb_true_iff; split;
          [apply Nat.leb_le | apply Nat.ltb_lt]; lia).
    unfold nb. fold j.
    rewrite lin_fadd by (assumption || now apply regular_nth).
    rewrite HT. lra.
Qed.

Lemma fold_beam_step_logs_mass (ls : list (list nat)) (curr : BeamList) :
  Forall (Forall (fun c => (c < nchars - 1)%nat)) ls ->
  (forall k, regular (pr_total (entry_get curr k))) ->
  mass (fold_left (beam_step_logs (nchars - 1) nchars lrow last) ls curr)
    = mass curr
      + Rsum (map (fun l => lin (pr_total (entry_get last l))) ls)
        * Rsum (map lin lrow).
Proof.
  intros Hls. revert curr.
  induction Hls as [|l ls Hl Hls IH]; intros curr Hcurr; cbn [fold_left map].
  - unfold Rsum at 1. cbn. lra.
  - destruct (beam_step_logs_mass l curr Hl Hcurr) as [Hm Hr].
    rewrite (IH _ Hr), Hm. unfold Rsum. cbn [fold_right]. ring.
Qed.

End StepMass.

Lemma mass_nonneg (b : BeamList) : 0 <= mass b.
Proof.
  apply Rsum_nonneg, Forall_forall. intros x Hx.
  apply in_map_iff in Hx. destruct Hx as (y & <- & _). apply lin_nonneg.
Qed.

Lemma mass_keys (nsym : nat) (s : BeamList) :
  keys_wf nsym s ->
  mass s = Rsum (map (fun l => lin (pr_total (entry_get s l))) (map fst s)).
Proof.
  intros Hwf. unfold mass. rewrite map_map. f_equal.
  apply map_ext_in. intros [k e] Hin. cbn [fst snd].
  now rewrite (In_entry_get nsym s k e Hwf Hin).
Qed.

Lemma Rsum_perm {A : Type} (f : A -> R) (l1 l2 : list A) :
  Permutation l1 l2 -> Rsum (map f l1) = Rsum (map f l2).
Proof.
  induction 1 as [|x l1 l2 _ IH|x y l|l1 l2 l3 _ IH1 _ IH2];
    unfold Rsum in *; cbn [map fold_right]; lra.
Qed.

Lemma Rsum_incl_le {A : Type} (f : A -> R) (l1 : list A) :
  (forall x, 0 <= f x) -> NoDup l1 ->
  forall l2, incl l1 l2 -> Rsum (map f l1) <= Rsum (map f l2).
Proof.
  intros Hf. induction 1 as [|x l1 Hx Hnd IH]; intros l2 Hincl.
  - apply Rsum_nonneg, Forall_forall. intros y Hy.
    apply in_map_iff in Hy. destruct Hy as (z & <- & _). apply Hf.
  - destruct (in_split x l2 (Hincl x (or_introl eq_refl))) as (a & b & ->).
    assert (H : incl l1 (a ++ b)).
    { intros y Hy. pose proof (Hincl y (or_intror Hy)) as Hin.
      apply in_app_or in Hin. apply in_or_app.
      destruct Hin as [Hin|[->|Hin]]; [now left | contradiction | now right]. }
    specialize (IH _ H). rewrite !map_app, !Rsum_app in *.
    cbn [map]. unfold Rsum in *. cbn [fold_right]. lra.
Qed.

Lemma kept_mass (nchars : nat) (s : BeamList) (width : Z) :
  state_ok nchars s ->
  Rsum (map (fun l => lin (pr_total (entry_get s l)))
            (py_slice (sort_labelings s) None (Some width))) <= mass s /\
  ((Z.of_nat (List.length s) <= width)%Z ->
   Rsum (map (fun l => lin (pr_total (entry_get s l)))
             (py_slice (sort_labelings s) None (Some width))) = mass s).
Proof.
  intros Hok. rewrite (mass_keys _ s (proj1 Hok)). split.
  - apply Rsum_incl_le.
    + intros x. apply lin_nonneg.
    + now apply (kept_NoDup nchars).
    + now apply (kept_incl nchars).
  - intros Hw. rewrite py_slice_all by (now rewrite sort_labelings_length).
    apply Rsum_perm. now apply (sort_labelings_perm (nchars - 1)), Hok.
Qed.

Lemma timestep_logs_mass (width : Z) (nchars : nat) (lrow : list xfloat)
    (s : BeamList) :
  (1 <= nchars)%nat -> List.length lrow = nchars -> Forall regular lrow ->
  state_ok nchars s -> beam_inv s ->
  mass (timestep_logs width (nchars - 1) nchars lrow s)
    = Rsum (map (fun l => lin (pr_total (entry_get s l)))
                (py_slice (sort_labelings s) None (Some width)))
      * Rsum (map lin lrow).
Proof.
  intros Hn Hlen Hreg Hok Hinv. unfold timestep_logs.
  rewrite (fold_beam_step_logs_mass nchars lrow s Hn Hlen Hreg (proj2 Hok) Hinv).
  - unfold mass at 1. cbn [map]. unfold Rsum at 1. cbn [fold_right]. lra.
  - now apply kept_symbols.
  - intros k. exact I.
Qed.

Lemma row_sum_nonneg (row : list xfloat) :
  Forall prob_value row -> 0 <= row_sum row.
Proof.
  intros H. apply Rsum_nonneg, Forall_forall. intros x Hx.
  apply in_map_iff in Hx. destruct Hx as (y & <- & Hy).
  rewrite Forall_forall in H. destruct (H y Hy) as (a & -> & Ha). exact Ha.
Qed.

Lemma Rprod_nonneg (l : list R) : Forall (fun a => 0 <= a) l -> 0 <= Rprod l.
Proof.
  induction 1 as [|a l Ha Hl IH]; cbn; [lra|].
  now apply Rmult_le_pos.
Qed.

Lemma Rprod_le_1 (l : list R) : Forall (fun a => 0 <= a <= 1) l -> Rprod l <= 1.
Proof.
  induction 1 as [|a l Ha Hl IH]; cbn; [lra|].
  assert (0 <= Rprod l).
  { apply Rprod_nonneg. eapply Forall_impl; [|exact Hl]. cbn. intros; lra. }
  fold (Rprod l). nra.
Qed.

Lemma run_mass (p : params) (nchars : nat) (rws : list (list xfloat)) :
  lm p = None -> (1 <= beam_width p)%Z -> (1 <= nchars)%nat ->
  Forall (fun row => List.length row = nchars /\ Forall prob_value row) rws ->
  forall (ents : list xfloat) (s : BeamList) (c : entropy_cache) (t : nat),
    List.length ents = List.length rws ->
    state_ok nchars s -> beam_inv s ->
    exists s' : BeamList,
      foldM (timestep p (nchars - 1) nchars) (combine rws ents) (s, c)
        = Ok (s', c) /\
      mass s' <= mass s * Rprod (map row_sum rws) /\
      ((List.length s <= nchars ^ t)%nat ->
       (Z.of_nat (nchars ^ (t + List.length rws)) <= beam_width p)%Z ->
       mass s' = mass s * Rprod (map row_sum rws)).
Proof.
  intros Hlm Hw Hn.
  induction 1 as [|row rws [Hlen Hrow] Hrws IH];
    intros ents s c t He Hok Hinv.
  - exists s. cbn [combine foldM map Rprod fold_right].
    split; [reflexivity|]. split; [lra | intros _ _; lra].
  - destruct ents as [|e ents]; [discriminate|].
    cbn [combine foldM].
    destruct (row_logs row Hrow) as (lrow & Hlog & Hreg).
    pose proof (timestep_ok (nchars - 1) nchars ltac:(lia) p row lrow s e c
                  Hlm Hok Hlen Hlog) as Hstep.
    rewrite Hstep. cbn [bind].
    set (s1 := timestep_logs (beam_width p) (nchars - 1) nchars lrow s) in *.
    assert (Hok1 : state_ok nchars s1) by now apply timestep_logs_ok.
    assert (Hinv1 : beam_inv s1)
      by exact (timestep_beam_inv _ _ _ _ _ _ Hstep).
    assert (Hllen : List.length lrow = nchars)
      by (rewrite (mapM_length _ _ _ Hlog); exact Hlen).
    assert (Hm1 : mass s1
                  = Rsum (map (fun l => lin (pr_total (entry_get s l)))
                           (py_slice (sort_labelings s) None
                              (Some (beam_width p))))
                    * row_sum row).
    { unfold s1. rewrite timestep_logs_mass by assumption.
      unfold row_sum. now rewrite (lin_logs row lrow Hrow Hlog). }
    destruct (kept_mass nchars s (beam_width p) Hok) as [Hle Heq].
    pose proof (row_sum_nonneg row Hrow) as Hrs.
    assert (Hprod : 0 <= Rprod (map row_sum rws)).
    { apply Rprod_nonneg, Forall_forall. intros x Hx.
      apply in_map_iff in Hx. destruct Hx as (r & <- & Hr).
      rewrite Forall_forall in Hrws. now apply row_sum_nonneg, Hrws. }
    destruct (IH ents s1 c (S t) ltac:(cbn in He; lia) Hok1 Hinv1)
      as (s' & Hfold & Hle' & Heq').
    exists s'. split; [exact Hfold|].
    cbn [map Rprod fold_right]. fold (Rprod (map row_sum rws)).
    split.
    + apply (Rle_trans _ _ _ Hle'). rewrite Hm1.
      rewrite <- Rmult_assoc. apply Rmult_le_compat_r; [assumption|].
      now apply Rmult_le_compat_r.
    + intros Hs Hwide. cbn [List.length] in Hwide.
      assert (Hpow : (nchars ^ t <= nchars ^ (t + S (List.length rws)))%nat)
        by (apply Nat.pow_le_mono_r; lia).
      rewrite Heq'.
      * rewrite Hm1, Heq by lia. ring.
      * unfold s1, timestep_logs.
        etransitivity; [now apply fold_beam_step_logs_length|].
        cbn [List.length]. pose proof (kept_length nchars s (beam_width p) Hok).
        cbn [Nat.pow]. nia.
      * now replace (S t + List.length rws)%nat
          with (t + S (List.length rws))%nat by lia.
Qed.

(** The mass at the end of a run without a language model. *)
Lemma loop_mass (mat : ndarray) (bases : string) (p : params)
    (c : entropy_cache) :
  mat_wf mat bases -> truthy (lm p) = false -> (1 <= beam_width p)%Z ->
  exists last : BeamList,
    beam_search_loop mat bases p c = Ok (last, c) /\
    0 <= mass last <= Rprod (map row_sum (rows mat)) /\
    ((Z.of_nat (chars mat ^ List.length (rows mat)) <= beam_width p)%Z ->
     mass last = Rprod (map row_sum (rows mat))).
Proof.
  intros [Hchars Hrows] Hlm Hw.
  set (p0 := mkParams (beam_width p) None (s_threshold p) (r_threshold p)
                      (len_context p)).
  rewrite (beam_search_loop_no_model mat bases p p0 c Hlm eq_refl eq_refl).
  destruct (signal_entropies_total mat) as (ents & Hents & Hlen).
  destruct (run_mass p0 (chars mat) (rows mat) eq_refl Hw ltac:(lia) Hrows
              ents _ c 0%nat Hlen (initial_state_ok (chars mat))
              initial_beam_inv) as (last & Hfold & Hle & Heq).
  assert (Hm0 : mass [([], mkBeamEntry (Fin 0) NInf (Fin 0) [])] = 1).
  { unfold mass, Rsum. cbn. rewrite exp_0. lra. }
  rewrite Hm0 in Hle, Heq.
  exists last. split.
  - unfold beam_search_loop. rewrite initial_beam_eq, Hents. cbn [bind].
    replace (String.length bases) with (chars mat - 1)%nat by lia.
    exact Hfold.
  - split; [split; [apply mass_nonneg | lra]|].
    intros Hwide. rewrite Heq; [lra | cbn; lia | exact Hwide].
Qed.

(** X21.  On a matrix of probabilities, without a language model, the
    probability mass of the final beam state (the sum over its beams of
    exp(pr_total)) is at most the product of the sums of the rows, and it
    is that product when the beam width is at least C^T, so that no beam
    is ever dropped: COPY and EXTEND lose no mass and count none twice. *)
Theorem beam_search_mass (mat : ndarray) (bases : string) (p : params)
    (entr_cache : entropy_cache) :
  mat_wf mat bases -> truthy (lm p) = false -> (1 <= beam_width p)%Z ->
  exists last : BeamList,
    beam_search_loop mat bases p entr_cache = Ok (last, entr_cache) /\
    0 <= mass last <= Rprod (map row_sum (rows mat)) /\
    ((Z.of_nat (chars mat ^ List.length (rows mat)) <= beam_width p)%Z ->
     mass last = Rprod (map row_sum (rows mat))).
Proof. intros Hwf Hlm Hw. now apply loop_mass. Qed.

Lemma beam_search_mass_witness :
  mat_wf ex_mat "AB" /\ truthy (lm (ex_params 27)) = false /\
  (1 <= beam_width (ex_params 27))%Z /\
  exists last : BeamList,
    beam_search_loop ex_mat "AB" (ex_params 27) [] = Ok (last, []) /\
    0 <= mass last <= Rprod (map row_sum (rows ex_mat)) /\
    ((Z.of_nat (chars ex_mat ^ List.length (rows ex_mat))
        <= beam_width (ex_params 27))%Z ->
     mass last = Rprod (map row_sum (rows ex_mat))).
Proof.
  assert (H2 : truthy (lm (ex_params 27)) = false) by reflexivity.
  assert (H3 : (1 <= beam_width (ex_params 27))%Z) by (cbn; lia).
  split; [exact ex_mat_wf|]. split; [exact H2|]. split; [exact H3|].
  exact (beam_search_mass ex_mat "AB" (ex_params 27) [] ex_mat_wf H2 H3).
Defined.

(** X22.  In real arithmetic, on a matrix of probabilities whose rows sum
    to at most 1, without a language model, the beam that [beam_search]
    decodes has a probability of at most 1: its [pr_total] is not above 0.
    (In doubles [logaddexp] can round a total of 1 to a [pr_total] just
    above 0.) *)
Theorem beam_search_probability (mat : ndarray) (bases : string) (p : params)
    (entr_cache : entropy_cache) :
  mat_wf mat bases -> truthy (lm p) = false -> (1 <= beam_width p)%Z ->
  Forall (fun row => row_sum row <= 1) (rows mat) ->
  exists a : xfloat,
    best_pr_total mat bases p entr_cache = Ok a /\
    fleb a (Fin 0) = true.
Proof.
  intros Hwf Hlm Hw Hsum.
  destruct (run_no_model mat bases p entr_cache Hwf Hlm Hw)
    as (last & best & tl & str & Hloop & Hok & Hsort & _ & Hbest).
  destruct (loop_mass mat bases p entr_cache Hwf Hlm Hw)
    as (last' & Hloop' & [_ Hle] & _).
  assert (last' = last) by congruence. subst last'.
  exists (pr_total best). split; [exact Hbest|].
  assert (Hin : In best (map snd last)).
  { apply (Permutation_in _ (sorted_desc_perm _)). rewrite Hsort. now left. }
  pose proof (sorted_desc_regular _ _ Hok) as Hreg.
  rewrite Forall_forall in Hreg.
  apply fleb_lin; [now apply Hreg | exact I |].
  cbn [lin]. rewrite exp_0.
  assert (Hone : Rprod (map row_sum (rows mat)) <= 1).
  { apply Rprod_le_1, Forall_forall. intros x Hx.
    apply in_map_iff in Hx. destruct Hx as (row & <- & Hrow).
    destruct Hwf as [_ Hrows]. rewrite Forall_forall in Hrows, Hsum.
    split; [now apply row_sum_nonneg, Hrows | now apply Hsum]. }
  apply (Rle_trans _ (mass last)); [|lra].
  unfold mass. apply Rsum_ge_entry.
  - apply Forall_forall. intros x Hx.
    apply in_map_iff in Hx. destruct Hx as (y & <- & _). apply lin_nonneg.
  - apply in_map_iff in Hin. destruct Hin as (x & <- & Hx).
    apply in_map_iff. now exists x.
Qed.

Lemma ex_mat_row_sums : Forall (fun row => row_sum row <= 1) (rows ex_mat).
Proof.
  repeat constructor; unfold row_sum, Rsum, Q2R; cbn; lra.
Qed.

Lemma beam_search_probability_witness :
  mat_wf ex_mat "AB" /\ truthy (lm (ex_params 2)) = false /\
  (1 <= beam_width (ex_params 2))%Z /\
  Forall (fun row => row_sum row <= 1) (rows ex_mat) /\
  exists a : xfloat,
    best_pr_total ex_mat "AB" (ex_params 2) [] = Ok a /\
    fleb a (Fin 0) = true.
Proof.
  assert (H2 : truthy (lm (ex_params 2)) = false) by reflexivity.
  assert (H3 : (1 <= beam_width (ex_params 2))%Z) by (cbn; lia).
  split; [exact ex_mat_wf|]. split; [exact H2|]. split; [exact H3|].
  split; [exact ex_mat_row_sums|].
  exact (beam_search_probability ex_mat "AB" (ex_params 2) [] ex_mat_wf H2 H3
           ex_mat_row_sums).
Defined.

(** ** COPY BEAM *)

Lemma copy_beam_eq (p : params) (blank_idx : nat) (row : list xfloat)
    (s_entropy : xfloat) (last : BeamList) (lab : list nat)
    (curr : BeamList) (c c' : entropy_cache) (nb b lb : xfloat) :
  match lab with
  | [] => nb = NInf /\ c' = c
  | first :: rest =>
      exists pr_dist x lx,
        copy_dist p row s_entropy lab c = Ok (pr_dist, c') /\
        index pr_dist (List.last rest first) = Ok x /\ log x = Ok lx /\
        nb = fadd (pr_non_blank (entry_get last lab)) lx
  end ->
  index row blank_idx = Ok b -> log b = Ok lb ->
  copy_beam p blank_idx row s_entropy last lab (curr, c)
    = Ok (entry_update curr lab (fun e =>
            copied_entry e lab nb
              (fadd (pr_total (entry_get last lab)) lb)), c').
Proof.
  intros Hnb Hb Hlb. unfold copy_beam. rewrite log_zero. cbn [bind].
  destruct lab as [|first rest].
  - destruct Hnb as [-> ->]. cbn [bind]. rewrite Hb. cbn [bind].
    rewrite Hlb. cbn [bind]. now rewrite !entry_update_update.
  - destruct Hnb as (pr_dist & x & lx & Hd & Hx & Hlx & ->).
    unfold copy_dist in Hd. rewrite Hd. cbn [bind]. rewrite Hx. cbn [bind].
    rewrite Hlx. cbn [bind]. rewrite Hb. cbn [bind]. rewrite Hlb. cbn [bind].
    now rewrite !entry_update_update.
Qed.

(** X23.  COPY BEAM for a labeling L, when the blank column of the row
    and the logarithms are defined, adds to the entry of L in the new
    state the mass of the paths that end with a blank, the previous
    [pr_total] of L plus log(mat[t, blank]) (the row itself, not the
    distribution blended with the language model), into [pr_blank], and
    the mass of the paths that repeat the last symbol, the previous
    [pr_non_blank] of L plus log(pr_dist[L[-1]]), into [pr_non_blank]
    (nothing for the empty labeling); both go into [pr_total], and no
    other entry is touched. *)
Theorem copy_beam_contribution (p : params) (blank_idx : nat)
    (row : list xfloat) (s_entropy : xfloat) (last : BeamList)
    (lab : list nat) (curr : BeamList) (c c' : entropy_cache)
    (nb b lb : xfloat) :
  match lab with
  | [] => nb = NInf /\ c' = c
  | first :: rest =>
      exists pr_dist x lx,
        copy_dist p row s_entropy lab c = Ok (pr_dist, c') /\
        index pr_dist (List.last rest first) = Ok x /\ log x = Ok lx /\
        nb = fadd (pr_non_blank (entry_get last lab)) lx
  end ->
  index row blank_idx = Ok b -> log b = Ok lb ->
  exists curr' : BeamList,
    copy_beam p blank_idx row s_entropy last lab (curr, c) = Ok (curr', c') /\
    (let e := entry_get curr lab in
     let e' := entry_get curr' lab in
     let bl := fadd (pr_total (entry_get last lab)) lb in
     pr_blank e' = logaddexp (pr_blank e) bl /\
     pr_non_blank e' = logaddexp (pr_non_blank e) nb /\
     pr_total e' = logaddexp (pr_total e) (logaddexp bl nb) /\
     labeling e' = lab) /\
    (forall l, l <> lab ->
       dict_get labeling_eqb curr' l = dict_get labeling_eqb curr l).
Proof.
  intros Hnb Hb Hlb.
  pose proof (copy_beam_eq p blank_idx row s_entropy last lab curr c c' nb b
                lb Hnb Hb Hlb) as Heq.
  eexists. split; [exact Heq|].
  split.
  - cbn zeta. rewrite entry_get_update_same. now cbn.
  - intros l Hl. now apply dict_get_update_other.
Qed.

Lemma copy_beam_contribution_witness :
  (exists pr_dist x lx,
     copy_dist (ex_params 2) ex_row2 (Fin 0) [1%nat] [] = Ok (pr_dist, []) /\
     index pr_dist (List.last [] 1%nat) = Ok x /\ log x = Ok lx /\
     lnq (2 # 5) = fadd (pr_non_blank (entry_get ex_state1 [1%nat])) lx) /\
  index ex_row2 2 = Ok (Q2F (1 # 10)) /\
  log (Q2F (1 # 10)) = Ok (lnq (1 # 10)) /\
  exists curr' : BeamList,
    copy_beam (ex_params 2) 2 ex_row2 (Fin 0) ex_state1 [1%nat] ([], [])
      = Ok (curr', []) /\
    (let e := entry_get [] [1%nat] in
     let e' := entry_get curr' [1%nat] in
     let bl := fadd (pr_total (entry_get ex_state1 [1%nat])) (lnq (1 # 10)) in
     pr_blank e' = logaddexp (pr_blank e) bl /\
     pr_non_blank e' = logaddexp (pr_non_blank e) (lnq (2 # 5)) /\
     pr_total e' = logaddexp (pr_total e) (logaddexp bl (lnq (2 # 5))) /\
     labeling e' = [1%nat]) /\
    (forall l, l <> [1%nat] ->
       dict_get labeling_eqb curr' l = dict_get labeling_eqb [] l).
Proof.
  assert (H1 : exists pr_dist x lx,
            copy_dist (ex_params 2) ex_row2 (Fin 0) [1%nat] []
              = Ok (pr_dist, []) /\
            index pr_dist (List.last [] 1%nat) = Ok x /\ log x = Ok lx /\
            lnq (2 # 5)
              = fadd (pr_non_blank (entry_get ex_state1 [1%nat])) lx).
  { exists ex_row2, (Q2F (4 # 5)), (lnq (4 # 5)).
    split; [reflexivity|]. split; [reflexivity|].
    split; [now apply log_Q2F|].
    unfold ex_state1. lnq_eval. reflexivity. }
  assert (H2 : index ex_row2 2 = Ok (Q2F (1 # 10))) by reflexivity.
  assert (H3 : log (Q2F (1 # 10)) = Ok (lnq (1 # 10))) by now apply log_Q2F.
  split; [exact H1|]. split; [exact H2|]. split; [exact H3|].
  exact (copy_beam_contribution (ex_params 2) 2 ex_row2 (Fin 0) ex_state1
           [1%nat] [] [] [] (lnq (2 # 5)) (Q2F (1 # 10)) (lnq (1 # 10))
           H1 H2 H3).
Defined.

(** ** Labelings that are shorter than the context *)

Lemma foldM_ext_In {A S : Type} (f g : S -> A -> except S) (l : list A) :
  (forall s a, In a l -> f s a = g s a) ->
  forall s, foldM f l s = foldM g l s.
Proof.
  induction l as [|a l IH]; intros H s; [reflexivity|].
  cbn [foldM]. rewrite (H s a (or_introl eq_refl)).
  destruct (g s a) as [s'|e]; [|reflexivity]. cbn [bind].
  apply IH. intros s0 a0 Ha0. apply H. now right.
Qed.

Lemma dist_short (p : params) (row : list xfloat) (e : xfloat)
    (lab : list nat) (c : entropy_cache) :
  (Z.of_nat (List.length lab) < len_context p)%Z ->
  copy_dist p row e lab c = Ok (row, c) /\
  extend_dist p row e lab c = Ok (row, c).
Proof.
  intros H. unfold copy_dist, extend_dist.
  replace (len_context p + 1 <=? Z.of_nat (List.length lab))%Z with false
    by (symmetry; apply Z.leb_gt; lia).
  replace (len_context p <=? Z.of_nat (List.length lab))%Z with false
    by (symmetry; apply Z.leb_gt; lia).
  now rewrite andb_false_r.
Qed.

Lemma beam_step_dist_eq (p p0 : params) (blank_idx nchars : nat)
    (row : list xfloat) (e : xfloat) (last : BeamList)
    (st : BeamList * entropy_cache) (lab : list nat) :
  (forall c, copy_dist p row e lab c = copy_dist p0 row e lab c) ->
  (forall c, extend_dist p row e lab c = extend_dist p0 row e lab c) ->
  beam_step p blank_idx nchars row e last st lab
    = beam_step p0 blank_idx nchars row e last st lab.
Proof.
  intros Hc He. destruct st as [curr c]. unfold beam_step.
  assert (Hcopy : copy_beam p blank_idx row e last lab (curr, c)
                  = copy_beam p0 blank_idx row e last lab (curr, c)).
  { unfold copy_beam. destruct lab as [|first rest]; [reflexivity|].
    specialize (Hc c). unfold copy_dist in Hc. now rewrite Hc. }
  rewrite Hcopy.
  destruct (copy_beam p0 blank_idx row e last lab (curr, c)) as [[curr1 c1]|err];
    [|reflexivity].
  cbn [bind]. unfold extend_beam.
  specialize (He c1). unfold extend_dist in He. now rewrite He.
Qed.

Lemma timestep_short (p p0 : params) (blank_idx nchars t : nat)
    (st : BeamList * entropy_cache) (row_ent : list xfloat * xfloat) :
  beam_width p = beam_width p0 -> truthy (lm p0) = false ->
  labels_bounded t (fst st) -> (Z.of_nat t < len_context p)%Z ->
  timestep p blank_idx nchars st row_ent
    = timestep p0 blank_idx nchars st row_ent.
Proof.
  intros Hw Hlm Hb Ht. destruct st as [last c], row_ent as [row e].
  unfold timestep. rewrite Hw. apply foldM_ext_In.
  intros s lab Hlab.
  assert (Hlen : (List.length lab <= t)%nat).
  { apply py_slice_incl, sort_labelings_In in Hlab.
    destruct Hlab as (k & x & Hin & <-).
    destruct (Hb k x Hin) as [-> Hk]. exact Hk. }
  apply beam_step_dist_eq; intros c0.
  - rewrite (proj1 (dist_short p row e lab c0 ltac:(lia))).
    now rewrite (proj1 (dist_no_model p0 row e lab c0 Hlm)).
  - rewrite (proj2 (dist_short p row e lab c0 ltac:(lia))).
    now rewrite (proj2 (dist_no_model p0 row e lab c0 Hlm)).
Qed.

Lemma timesteps_short (p p0 : params) (blank_idx nchars : nat)
    (row_ents : list (list xfloat * xfloat)) :
  beam_width p = beam_width p0 -> truthy (lm p0) = false ->
  forall (t : nat) (st : BeamList * entropy_cache),
    labels_bounded t (fst st) ->
    (Z.of_nat (t + List.length row_ents) <= len_context p)%Z ->
    foldM (timestep p blank_idx nchars) row_ents st
      = foldM (timestep p0 blank_idx nchars) row_ents st.
Proof.
  intros Hw Hlm. induction row_ents as [|re res IH]; intros t st Hb Ht;
    [reflexivity|].
  cbn [foldM List.length] in *.
  rewrite (timestep_short p p0 blank_idx nchars t st re Hw Hlm Hb)
    by lia.
  destruct (timestep p0 blank_idx nchars st re) as [s1|err] eqn:E;
    [|reflexivity].
  cbn [bind]. apply (IH (S t)); [|lia].
  eapply timestep_bounded; eassumption.
Qed.

(** X24.  The language model is consulted only for labelings that are
    at least as long as the context: on a matrix that has no more
    time-steps than [len_context], [beam_search] never looks into the
    model and returns what it returns without one, even when the model
    defines no context at all. *)
Theorem beam_search_short_matrix (mat : ndarray) (bases : string)
    (p : params) (entr_cache : entropy_cache) :
  (Z.of_nat (List.length (rows mat)) <= len_context p)%Z ->
  beam_search mat bases p entr_cache
    = beam_search mat bases
        (mkParams (beam_width p) None (s_threshold p) (r_threshold p)
                  (len_context p)) entr_cache.
Proof.
  intros Hlen. unfold beam_search, beam_search_loop.
  rewrite initial_beam_eq. cbn [bind].
  destruct (signal_entropies_total mat) as (ents & -> & Hents). cbn [bind].
  rewrite (timesteps_short p
             (mkParams (beam_width p) None (s_threshold p) (r_threshold p)
                       (len_context p))
             (String.length bases) (chars mat) (combine (rows mat) ents)
             eq_refl eq_refl 0%nat); [reflexivity| |].
  - intros k e [[= <- <-]|[]]. cbn. split; [reflexivity | lia].
  - rewrite length_combine. cbn [Nat.add]. lia.
Qed.

Lemma beam_search_short_matrix_witness :
  (Z.of_nat (List.length (rows ex_mat))
     <= len_context (mkParams 2 (Some ex_model) (Fin 0) (Fin 0) 3))%Z /\
  beam_search ex_mat "AB" (mkParams 2 (Some ex_model) (Fin 0) (Fin 0) 3) []
    = beam_search ex_mat "AB"
        (mkParams (beam_width (mkParams 2 (Some ex_model) (Fin 0) (Fin 0) 3))
           None
           (s_threshold (mkParams 2 (Some ex_model) (Fin 0) (Fin 0) 3))
           (r_threshold (mkParams 2 (Some ex_model) (Fin 0) (Fin 0) 3))
           (len_context (mkParams 2 (Some ex_model) (Fin 0) (Fin 0) 3))) [].
Proof.
  assert (H : (Z.of_nat (List.length (rows ex_mat))
               <= len_context (mkParams 2 (Some ex_model) (Fin 0) (Fin 0) 3))%Z)
    by (cbn; lia).
  split; [exact H|].
  exact (beam_search_short_matrix ex_mat "AB"
           (mkParams 2 (Some ex_model) (Fin 0) (Fin 0) 3) [] H).
Defined.
